(** * generate_index.py: a PEP 503 index generated from GitHub releases

    A shallow embedding of [src/generate_index.py] and the proofs of the
    properties stated about it.

    Conventions of the model.
    - A Python [str] is a sequence of code points; a [string] of the model
      holds its UTF-8 form, byte by byte.  [re.sub] with the ASCII class
      [[-_.]] and the splitting at ['-'] work on the bytes, which is the
      same; [str.lower] works on the code points, with the mappings of the
      Unicode character database (version 14.0.0, the one of CPython 3.11)
      and the rule of the final sigma.
    - A JSON object of the releases API is a record whose fields are
      [option]s: [None] is an absent key.  Values have the types the API
      documents (strings, integers, arrays).
    - A Python [dict] whose iteration order is observable (the grouping of
      [main]) is an association list in insertion order.
    - Exceptions are values of [exn]; a computation returns an [outcome].
    - The [while True] loop of the fetcher is run with fuel; [None] means the
      fuel ran out. *)

From Stdlib Require Import Strings.String Strings.Ascii Numbers.DecimalString.
From Stdlib Require Import Lists.List Sorting.Sorted Sorting.Permutation.
From Stdlib Require Import Bool Arith ZArith Lia.
From Stdlib Require Import Numbers.DecimalNat.
Import ListNotations.

Local Open Scope list_scope.
Local Open Scope string_scope.

(* ================================================================== *)
(** * Strings: the Python string operations used by the program        *)
(* ================================================================== *)

Module PyStr.

(** The double quote character, for the HTML templates. *)
Definition dq : string := String (ascii_of_nat 34) EmptyString.

(** The line feed, the separator of ["\n".join(...)]. *)
Definition nl : string := String (ascii_of_nat 10) EmptyString.

(** [str(n)] for a non-negative integer. *)
Definition str_of_nat (n : nat) : string :=
  NilEmpty.string_of_uint (Nat.to_uint n).

(* ------------------------------------------------------------------ *)
(** ** Code points and their UTF-8 form                                *)
(* ------------------------------------------------------------------ *)

(** A Python [str] is a sequence of code points; a [string] of the model
    holds its UTF-8 form.  [str.lower] works on the code points, so the
    model decodes, lowers and encodes.  A byte that is not part of a
    well-formed sequence stands for itself: it is decoded to a number from
    [0x110000] on, which no table lists, and encoded back to the byte. *)

(** The first number that is not a code point. *)
Definition cp_limit : N := 0x110000.

(** The payload of a continuation byte [10xxxxxx]. *)
Definition cont (b : ascii) : option N :=
  let n := N_of_ascii b in
  if (0x80 <=? n)%N && (n <? 0xC0)%N then Some (n - 0x80)%N else None.

(** The payloads of the continuation bytes at the head of [s], at most
    [n] of them. *)
Fixpoint conts (n : nat) (s : string) : list N :=
  match n, s with
  | S k, String b r =>
      match cont b with
      | Some x => x :: conts k r
      | None => nil
      end
  | _, _ => nil
  end.

(** The code point whose well-formed sequence is at the head of
    [String b0 r], with the length of the sequence; [None] when the bytes
    there are no well-formed sequence (a stray continuation byte, a
    truncated or over-long sequence, a value out of range). *)
Definition utf8_head (b0 : ascii) (r : string) : option (N * nat) :=
  let n0 := N_of_ascii b0 in
  if (n0 <? 0x80)%N then Some (n0, 1)
  else if (n0 <? 0xC0)%N then None
  else if (n0 <? 0xE0)%N then
    match conts 1 r with
    | [x1] =>
        let c := ((n0 - 0xC0) * 64 + x1)%N in
        if (0x80 <=? c)%N then Some (c, 2) else None
    | _ => None
    end
  else if (n0 <? 0xF0)%N then
    match conts 2 r with
    | [x1; x2] =>
        let c := (((n0 - 0xE0) * 64 + x1) * 64 + x2)%N in
        if (0x800 <=? c)%N then Some (c, 3) else None
    | _ => None
    end
  else if (n0 <? 0xF8)%N then
    match conts 3 r with
    | [x1; x2; x3] =>
        let c := ((((n0 - 0xF0) * 64 + x1) * 64 + x2) * 64 + x3)%N in
        if (0x10000 <=? c)%N && (c <? cp_limit)%N then Some (c, 4) else None
    | _ => None
    end
  else None.

(** The code points of a string; [skip] bytes at the head belong to the
    sequence read before. *)
Fixpoint utf8_decode_from (skip : nat) (s : string) : list N :=
  match s with
  | EmptyString => nil
  | String b r =>
      match skip with
      | S k => utf8_decode_from k r
      | O =>
          match utf8_head b r with
          | Some (c, len) => c :: utf8_decode_from (Nat.pred len) r
          | None => (cp_limit + N_of_ascii b)%N :: utf8_decode_from 0 r
          end
      end
  end.

Definition utf8_decode (s : string) : list N := utf8_decode_from 0 s.

(** The UTF-8 sequence of a code point. *)
Definition utf8_encode_cp (c : N) : string :=
  let r1 := (c mod 64)%N in
  let q1 := (c / 64)%N in
  let r2 := (q1 mod 64)%N in
  let q2 := (q1 / 64)%N in
  let r3 := (q2 mod 64)%N in
  let q3 := (q2 / 64)%N in
  if (c <? 0x80)%N then String (ascii_of_N c) EmptyString
  else if (c <? 0x800)%N then
    String (ascii_of_N (0xC0 + q1))
      (String (ascii_of_N (0x80 + r1)) EmptyString)
  else if (c <? 0x10000)%N then
    String (ascii_of_N (0xE0 + q2))
      (String (ascii_of_N (0x80 + r2))
         (String (ascii_of_N (0x80 + r1)) EmptyString))
  else if (c <? cp_limit)%N then
    String (ascii_of_N (0xF0 + q3))
      (String (ascii_of_N (0x80 + r3))
         (String (ascii_of_N (0x80 + r2))
            (String (ascii_of_N (0x80 + r1)) EmptyString)))
  else String (ascii_of_N (c - cp_limit)) EmptyString.

Fixpoint utf8_encode (l : list N) : string :=
  match l with
  | nil => EmptyString
  | c :: r => utf8_encode_cp c ++ utf8_encode r
  end.

(* ------------------------------------------------------------------ *)
(** ** str.lower                                                       *)
(* ------------------------------------------------------------------ *)

(** The simple lower-case mappings of the Unicode character database
    (version 14.0.0, the one of CPython 3.11): the code points [lo],
    [lo + step], ..., up to [hi], are mapped to [to], [to + step], ...
    Each line of the list is [(lo, hi, step, to)]. *)
Definition lower_ranges : list (N * N * N * N) :=
  [
    (0x41, 0x5A, 1, 0x61); (0xC0, 0xD6, 1, 0xE0);
    (0xD8, 0xDE, 1, 0xF8); (0x100, 0x12E, 2, 0x101);
    (0x132, 0x136, 2, 0x133); (0x139, 0x147, 2, 0x13A);
    (0x14A, 0x176, 2, 0x14B); (0x178, 0x178, 1, 0xFF);
    (0x179, 0x17D, 2, 0x17A); (0x181, 0x181, 1, 0x253);
    (0x182, 0x184, 2, 0x183); (0x186, 0x186, 1, 0x254);
    (0x187, 0x187, 1, 0x188); (0x189, 0x18A, 1, 0x256);
    (0x18B, 0x18B, 1, 0x18C); (0x18E, 0x18E, 1, 0x1DD);
    (0x18F, 0x18F, 1, 0x259); (0x190, 0x190, 1, 0x25B);
    (0x191, 0x191, 1, 0x192); (0x193, 0x193, 1, 0x260);
    (0x194, 0x194, 1, 0x263); (0x196, 0x196, 1, 0x269);
    (0x197, 0x197, 1, 0x268); (0x198, 0x198, 1, 0x199);
    (0x19C, 0x19C, 1, 0x26F); (0x19D, 0x19D, 1, 0x272);
    (0x19F, 0x19F, 1, 0x275); (0x1A0, 0x1A4, 2, 0x1A1);
    (0x1A6, 0x1A6, 1, 0x280); (0x1A7, 0x1A7, 1, 0x1A8);
    (0x1A9, 0x1A9, 1, 0x283); (0x1AC, 0x1AC, 1, 0x1AD);
    (0x1AE, 0x1AE, 1, 0x288); (0x1AF, 0x1AF, 1, 0x1B0);
    (0x1B1, 0x1B2, 1, 0x28A); (0x1B3, 0x1B5, 2, 0x1B4);
    (0x1B7, 0x1B7, 1, 0x292); (0x1B8, 0x1B8, 1, 0x1B9);
    (0x1BC, 0x1BC, 1, 0x1BD); (0x1C4, 0x1C4, 1, 0x1C6);
    (0x1C5, 0x1C5, 1, 0x1C6); (0x1C7, 0x1C7, 1, 0x1C9);
    (0x1C8, 0x1C8, 1, 0x1C9); (0x1CA, 0x1CA, 1, 0x1CC);
    (0x1CB, 0x1DB, 2, 0x1CC); (0x1DE, 0x1EE, 2, 0x1DF);
    (0x1F1, 0x1F1, 1, 0x1F3); (0x1F2, 0x1F4, 2, 0x1F3);
    (0x1F6, 0x1F6, 1, 0x195); (0x1F7, 0x1F7, 1, 0x1BF);
    (0x1F8, 0x21E, 2, 0x1F9); (0x220, 0x220, 1, 0x19E);
    (0x222, 0x232, 2, 0x223); (0x23A, 0x23A, 1, 0x2C65);
    (0x23B, 0x23B, 1, 0x23C); (0x23D, 0x23D, 1, 0x19A);
    (0x23E, 0x23E, 1, 0x2C66); (0x241, 0x241, 1, 0x242);
    (0x243, 0x243, 1, 0x180); (0x244, 0x244, 1, 0x289);
    (0x245, 0x245, 1, 0x28C); (0x246, 0x24E, 2, 0x247);
    (0x370, 0x372, 2, 0x371); (0x376, 0x376, 1, 0x377);
    (0x37F, 0x37F, 1, 0x3F3); (0x386, 0x386, 1, 0x3AC);
    (0x388, 0x38A, 1, 0x3AD); (0x38C, 0x38C, 1, 0x3CC);
    (0x38E, 0x38F, 1, 0x3CD); (0x391, 0x3A1, 1, 0x3B1);
    (0x3A3, 0x3AB, 1, 0x3C3); (0x3CF, 0x3CF, 1, 0x3D7);
    (0x3D8, 0x3EE, 2, 0x3D9); (0x3F4, 0x3F4, 1, 0x3B8);
    (0x3F7, 0x3F7, 1, 0x3F8); (0x3F9, 0x3F9, 1, 0x3F2);
    (0x3FA, 0x3FA, 1, 0x3FB); (0x3FD, 0x3FF, 1, 0x37B);
    (0x400, 0x40F, 1, 0x450); (0x410, 0x42F, 1, 0x430);
    (0x460, 0x480, 2, 0x461); (0x48A, 0x4BE, 2, 0x48B);
    (0x4C0, 0x4C0, 1, 0x4CF); (0x4C1, 0x4CD, 2, 0x4C2);
    (0x4D0, 0x52E, 2, 0x4D1); (0x531, 0x556, 1, 0x561);
    (0x10A0, 0x10C5, 1, 0x2D00); (0x10C7, 0x10C7, 1, 0x2D27);
    (0x10CD, 0x10CD, 1, 0x2D2D); (0x13A0, 0x13EF, 1, 0xAB70);
    (0x13F0, 0x13F5, 1, 0x13F8); (0x1C90, 0x1CBA, 1, 0x10D0);
    (0x1CBD, 0x1CBF, 1, 0x10FD); (0x1E00, 0x1E94, 2, 0x1E01);
    (0x1E9E, 0x1E9E, 1, 0xDF); (0x1EA0, 0x1EFE, 2, 0x1EA1);
    (0x1F08, 0x1F0F, 1, 0x1F00); (0x1F18, 0x1F1D, 1, 0x1F10);
    (0x1F28, 0x1F2F, 1, 0x1F20); (0x1F38, 0x1F3F, 1, 0x1F30);
    (0x1F48, 0x1F4D, 1, 0x1F40); (0x1F59, 0x1F5F, 2, 0x1F51);
    (0x1F68, 0x1F6F, 1, 0x1F60); (0x1F88, 0x1F8F, 1, 0x1F80);
    (0x1F98, 0x1F9F, 1, 0x1F90); (0x1FA8, 0x1FAF, 1, 0x1FA0);
    (0x1FB8, 0x1FB9, 1, 0x1FB0); (0x1FBA, 0x1FBB, 1, 0x1F70);
    (0x1FBC, 0x1FBC, 1, 0x1FB3); (0x1FC8, 0x1FCB, 1, 0x1F72);
    (0x1FCC, 0x1FCC, 1, 0x1FC3); (0x1FD8, 0x1FD9, 1, 0x1FD0);
    (0x1FDA, 0x1FDB, 1, 0x1F76); (0x1FE8, 0x1FE9, 1, 0x1FE0);
    (0x1FEA, 0x1FEB, 1, 0x1F7A); (0x1FEC, 0x1FEC, 1, 0x1FE5);
    (0x1FF8, 0x1FF9, 1, 0x1F78); (0x1FFA, 0x1FFB, 1, 0x1F7C);
    (0x1FFC, 0x1FFC, 1, 0x1FF3); (0x2126, 0x2126, 1, 0x3C9);
    (0x212A, 0x212A, 1, 0x6B); (0x212B, 0x212B, 1, 0xE5);
    (0x2132, 0x2132, 1, 0x214E); (0x2160, 0x216F, 1, 0x2170);
    (0x2183, 0x2183, 1, 0x2184); (0x24B6, 0x24CF, 1, 0x24D0);
    (0x2C00, 0x2C2F, 1, 0x2C30); (0x2C60, 0x2C60, 1, 0x2C61);
    (0x2C62, 0x2C62, 1, 0x26B); (0x2C63, 0x2C63, 1, 0x1D7D);
    (0x2C64, 0x2C64, 1, 0x27D); (0x2C67, 0x2C6B, 2, 0x2C68);
    (0x2C6D, 0x2C6D, 1, 0x251); (0x2C6E, 0x2C6E, 1, 0x271);
    (0x2C6F, 0x2C6F, 1, 0x250); (0x2C70, 0x2C70, 1, 0x252);
    (0x2C72, 0x2C72, 1, 0x2C73); (0x2C75, 0x2C75, 1, 0x2C76);
    (0x2C7E, 0x2C7F, 1, 0x23F); (0x2C80, 0x2CE2, 2, 0x2C81);
    (0x2CEB, 0x2CED, 2, 0x2CEC); (0x2CF2, 0x2CF2, 1, 0x2CF3);
    (0xA640, 0xA66C, 2, 0xA641); (0xA680, 0xA69A, 2, 0xA681);
    (0xA722, 0xA72E, 2, 0xA723); (0xA732, 0xA76E, 2, 0xA733);
    (0xA779, 0xA77B, 2, 0xA77A); (0xA77D, 0xA77D, 1, 0x1D79);
    (0xA77E, 0xA786, 2, 0xA77F); (0xA78B, 0xA78B, 1, 0xA78C);
    (0xA78D, 0xA78D, 1, 0x265); (0xA790, 0xA792, 2, 0xA791);
    (0xA796, 0xA7A8, 2, 0xA797); (0xA7AA, 0xA7AA, 1, 0x266);
    (0xA7AB, 0xA7AB, 1, 0x25C); (0xA7AC, 0xA7AC, 1, 0x261);
    (0xA7AD, 0xA7AD, 1, 0x26C); (0xA7AE, 0xA7AE, 1, 0x26A);
    (0xA7B0, 0xA7B0, 1, 0x29E); (0xA7B1, 0xA7B1, 1, 0x287);
    (0xA7B2, 0xA7B2, 1, 0x29D); (0xA7B3, 0xA7B3, 1, 0xAB53);
    (0xA7B4, 0xA7C2, 2, 0xA7B5); (0xA7C4, 0xA7C4, 1, 0xA794);
    (0xA7C5, 0xA7C5, 1, 0x282); (0xA7C6, 0xA7C6, 1, 0x1D8E);
    (0xA7C7, 0xA7C9, 2, 0xA7C8); (0xA7D0, 0xA7D0, 1, 0xA7D1);
    (0xA7D6, 0xA7D8, 2, 0xA7D7); (0xA7F5, 0xA7F5, 1, 0xA7F6);
    (0xFF21, 0xFF3A, 1, 0xFF41); (0x10400, 0x10427, 1, 0x10428);
    (0x104B0, 0x104D3, 1, 0x104D8); (0x10570, 0x1057A, 1, 0x10597);
    (0x1057C, 0x1058A, 1, 0x105A3); (0x1058C, 0x10592, 1, 0x105B3);
    (0x10594, 0x10595, 1, 0x105BB); (0x10C80, 0x10CB2, 1, 0x10CC0);
    (0x118A0, 0x118BF, 1, 0x118C0); (0x16E40, 0x16E5F, 1, 0x16E60);
    (0x1E900, 0x1E921, 1, 0x1E922)
  ]%N.

(** The code points with the property Cased, as ranges [(lo, hi)]. *)
Definition cased_ranges : list (N * N) :=
  [
    (0x41, 0x5A); (0x61, 0x7A); (0xAA, 0xAA); (0xB5, 0xB5);
    (0xBA, 0xBA); (0xC0, 0xD6); (0xD8, 0xF6); (0xF8, 0x1BA);
    (0x1BC, 0x1BF); (0x1C4, 0x293); (0x295, 0x2B8); (0x2C0, 0x2C1);
    (0x2E0, 0x2E4); (0x345, 0x345); (0x370, 0x373); (0x376, 0x377);
    (0x37A, 0x37D); (0x37F, 0x37F); (0x386, 0x386); (0x388, 0x38A);
    (0x38C, 0x38C); (0x38E, 0x3A1); (0x3A3, 0x3F5); (0x3F7, 0x481);
    (0x48A, 0x52F); (0x531, 0x556); (0x560, 0x588); (0x10A0, 0x10C5);
    (0x10C7, 0x10C7); (0x10CD, 0x10CD); (0x10D0, 0x10FA); (0x10FD, 0x10FF);
    (0x13A0, 0x13F5); (0x13F8, 0x13FD); (0x1C80, 0x1C88); (0x1C90, 0x1CBA);
    (0x1CBD, 0x1CBF); (0x1D00, 0x1DBF); (0x1E00, 0x1F15); (0x1F18, 0x1F1D);
    (0x1F20, 0x1F45); (0x1F48, 0x1F4D); (0x1F50, 0x1F57); (0x1F59, 0x1F59);
    (0x1F5B, 0x1F5B); (0x1F5D, 0x1F5D); (0x1F5F, 0x1F7D); (0x1F80, 0x1FB4);
    (0x1FB6, 0x1FBC); (0x1FBE, 0x1FBE); (0x1FC2, 0x1FC4); (0x1FC6, 0x1FCC);
    (0x1FD0, 0x1FD3); (0x1FD6, 0x1FDB); (0x1FE0, 0x1FEC); (0x1FF2, 0x1FF4);
    (0x1FF6, 0x1FFC); (0x2071, 0x2071); (0x207F, 0x207F); (0x2090, 0x209C);
    (0x2102, 0x2102); (0x2107, 0x2107); (0x210A, 0x2113); (0x2115, 0x2115);
    (0x2119, 0x211D); (0x2124, 0x2124); (0x2126, 0x2126); (0x2128, 0x2128);
    (0x212A, 0x212D); (0x212F, 0x2134); (0x2139, 0x2139); (0x213C, 0x213F);
    (0x2145, 0x2149); (0x214E, 0x214E); (0x2160, 0x217F); (0x2183, 0x2184);
    (0x24B6, 0x24E9); (0x2C00, 0x2CE4); (0x2CEB, 0x2CEE); (0x2CF2, 0x2CF3);
    (0x2D00, 0x2D25); (0x2D27, 0x2D27); (0x2D2D, 0x2D2D); (0xA640, 0xA66D);
    (0xA680, 0xA69D); (0xA722, 0xA787); (0xA78B, 0xA78E); (0xA790, 0xA7CA);
    (0xA7D0, 0xA7D1); (0xA7D3, 0xA7D3); (0xA7D5, 0xA7D9); (0xA7F5, 0xA7F6);
    (0xA7F8, 0xA7FA); (0xAB30, 0xAB5A); (0xAB5C, 0xAB68); (0xAB70, 0xABBF);
    (0xFB00, 0xFB06); (0xFB13, 0xFB17); (0xFF21, 0xFF3A); (0xFF41, 0xFF5A);
    (0x10400, 0x1044F); (0x104B0, 0x104D3); (0x104D8, 0x104FB); (0x10570, 0x1057A);
    (0x1057C, 0x1058A); (0x1058C, 0x10592); (0x10594, 0x10595); (0x10597, 0x105A1);
    (0x105A3, 0x105B1); (0x105B3, 0x105B9); (0x105BB, 0x105BC); (0x10780, 0x10780);
    (0x10783, 0x10785); (0x10787, 0x107B0); (0x107B2, 0x107BA); (0x10C80, 0x10CB2);
    (0x10CC0, 0x10CF2); (0x118A0, 0x118DF); (0x16E40, 0x16E7F); (0x1D400, 0x1D454);
    (0x1D456, 0x1D49C); (0x1D49E, 0x1D49F); (0x1D4A2, 0x1D4A2); (0x1D4A5, 0x1D4A6);
    (0x1D4A9, 0x1D4AC); (0x1D4AE, 0x1D4B9); (0x1D4BB, 0x1D4BB); (0x1D4BD, 0x1D4C3);
    (0x1D4C5, 0x1D505); (0x1D507, 0x1D50A); (0x1D50D, 0x1D514); (0x1D516, 0x1D51C);
    (0x1D51E, 0x1D539); (0x1D53B, 0x1D53E); (0x1D540, 0x1D544); (0x1D546, 0x1D546);
    (0x1D54A, 0x1D550); (0x1D552, 0x1D6A5); (0x1D6A8, 0x1D6C0); (0x1D6C2, 0x1D6DA);
    (0x1D6DC, 0x1D6FA); (0x1D6FC, 0x1D714); (0x1D716, 0x1D734); (0x1D736, 0x1D74E);
    (0x1D750, 0x1D76E); (0x1D770, 0x1D788); (0x1D78A, 0x1D7A8); (0x1D7AA, 0x1D7C2);
    (0x1D7C4, 0x1D7CB); (0x1DF00, 0x1DF09); (0x1DF0B, 0x1DF1E); (0x1E900, 0x1E943);
    (0x1F130, 0x1F149); (0x1F150, 0x1F169); (0x1F170, 0x1F189)
  ]%N.

(** The code points with the property Case_Ignorable, as ranges
    [(lo, hi)]. *)
Definition case_ignorable_ranges : list (N * N) :=
  [
    (0x27, 0x27); (0x2E, 0x2E); (0x3A, 0x3A); (0x5E, 0x5E);
    (0x60, 0x60); (0xA8, 0xA8); (0xAD, 0xAD); (0xAF, 0xAF);
    (0xB4, 0xB4); (0xB7, 0xB8); (0x2B0, 0x36F); (0x374, 0x375);
    (0x37A, 0x37A); (0x384, 0x385); (0x387, 0x387); (0x483, 0x489);
    (0x559, 0x559); (0x55F, 0x55F); (0x591, 0x5BD); (0x5BF, 0x5BF);
    (0x5C1, 0x5C2); (0x5C4, 0x5C5); (0x5C7, 0x5C7); (0x5F4, 0x5F4);
    (0x600, 0x605); (0x610, 0x61A); (0x61C, 0x61C); (0x640, 0x640);
    (0x64B, 0x65F); (0x670, 0x670); (0x6D6, 0x6DD); (0x6DF, 0x6E8);
    (0x6EA, 0x6ED); (0x70F, 0x70F); (0x711, 0x711); (0x730, 0x74A);
    (0x7A6, 0x7B0); (0x7EB, 0x7F5); (0x7FA, 0x7FA); (0x7FD, 0x7FD);
    (0x816, 0x82D); (0x859, 0x85B); (0x888, 0x888); (0x890, 0x891);
    (0x898, 0x89F); (0x8C9, 0x902); (0x93A, 0x93A); (0x93C, 0x93C);
    (0x941, 0x948); (0x94D, 0x94D); (0x951, 0x957); (0x962, 0x963);
    (0x971, 0x971); (0x981, 0x981); (0x9BC, 0x9BC); (0x9C1, 0x9C4);
    (0x9CD, 0x9CD); (0x9E2, 0x9E3); (0x9FE, 0x9FE); (0xA01, 0xA02);
    (0xA3C, 0xA3C); (0xA41, 0xA42); (0xA47, 0xA48); (0xA4B, 0xA4D);
    (0xA51, 0xA51); (0xA70, 0xA71); (0xA75, 0xA75); (0xA81, 0xA82);
    (0xABC, 0xABC); (0xAC1, 0xAC5); (0xAC7, 0xAC8); (0xACD, 0xACD);
    (0xAE2, 0xAE3); (0xAFA, 0xAFF); (0xB01, 0xB01); (0xB3C, 0xB3C);
    (0xB3F, 0xB3F); (0xB41, 0xB44); (0xB4D, 0xB4D); (0xB55, 0xB56);
    (0xB62, 0xB63); (0xB82, 0xB82); (0xBC0, 0xBC0); (0xBCD, 0xBCD);
    (0xC00, 0xC00); (0xC04, 0xC04); (0xC3C, 0xC3C); (0xC3E, 0xC40);
    (0xC46, 0xC48); (0xC4A, 0xC4D); (0xC55, 0xC56); (0xC62, 0xC63);
    (0xC81, 0xC81); (0xCBC, 0xCBC); (0xCBF, 0xCBF); (0xCC6, 0xCC6);
    (0xCCC, 0xCCD); (0xCE2, 0xCE3); (0xD00, 0xD01); (0xD3B, 0xD3C);
    (0xD41, 0xD44); (0xD4D, 0xD4D); (0xD62, 0xD63); (0xD81, 0xD81);
    (0xDCA, 0xDCA); (0xDD2, 0xDD4); (0xDD6, 0xDD6); (0xE31, 0xE31);
    (0xE34, 0xE3A); (0xE46, 0xE4E); (0xEB1, 0xEB1); (0xEB4, 0xEBC);
    (0xEC6, 0xEC6); (0xEC8, 0xECD); (0xF18, 0xF19); (0xF35, 0xF35);
    (0xF37, 0xF37); (0xF39, 0xF39); (0xF71, 0xF7E); (0xF80, 0xF84);
    (0xF86, 0xF87); (0xF8D, 0xF97); (0xF99, 0xFBC); (0xFC6, 0xFC6);
    (0x102D, 0x1030); (0x1032, 0x1037); (0x1039, 0x103A); (0x103D, 0x103E);
    (0x1058, 0x1059); (0x105E, 0x1060); (0x1071, 0x1074); (0x1082, 0x1082);
    (0x1085, 0x1086); (0x108D, 0x108D); (0x109D, 0x109D); (0x10FC, 0x10FC);
    (0x135D, 0x135F); (0x1712, 0x1714); (0x1732, 0x1733); (0x1752, 0x1753);
    (0x1772, 0x1773); (0x17B4, 0x17B5); (0x17B7, 0x17BD); (0x17C6, 0x17C6);
    (0x17C9, 0x17D3); (0x17D7, 0x17D7); (0x17DD, 0x17DD); (0x180B, 0x180F);
    (0x1843, 0x1843); (0x1885, 0x1886); (0x18A9, 0x18A9); (0x1920, 0x1922);
    (0x1927, 0x1928); (0x1932, 0x1932); (0x1939, 0x193B); (0x1A17, 0x1A18);
    (0x1A1B, 0x1A1B); (0x1A56, 0x1A56); (0x1A58, 0x1A5E); (0x1A60, 0x1A60);
    (0x1A62, 0x1A62); (0x1A65, 0x1A6C); (0x1A73, 0x1A7C); (0x1A7F, 0x1A7F);
    (0x1AA7, 0x1AA7); (0x1AB0, 0x1ACE); (0x1B00, 0x1B03); (0x1B34, 0x1B34);
    (0x1B36, 0x1B3A); (0x1B3C, 0x1B3C); (0x1B42, 0x1B42); (0x1B6B, 0x1B73);
    (0x1B80, 0x1B81); (0x1BA2, 0x1BA5); (0x1BA8, 0x1BA9); (0x1BAB, 0x1BAD);
    (0x1BE6, 0x1BE6); (0x1BE8, 0x1BE9); (0x1BED, 0x1BED); (0x1BEF, 0x1BF1);
    (0x1C2C, 0x1C33); (0x1C36, 0x1C37); (0x1C78, 0x1C7D); (0x1CD0, 0x1CD2);
    (0x1CD4, 0x1CE0); (0x1CE2, 0x1CE8); (0x1CED, 0x1CED); (0x1CF4, 0x1CF4);
    (0x1CF8, 0x1CF9); (0x1D2C, 0x1D6A); (0x1D78, 0x1D78); (0x1D9B, 0x1DFF);
    (0x1FBD, 0x1FBD); (0x1FBF, 0x1FC1); (0x1FCD, 0x1FCF); (0x1FDD, 0x1FDF);
    (0x1FED, 0x1FEF); (0x1FFD, 0x1FFE); (0x200B, 0x200F); (0x2018, 0x2019);
    (0x2024, 0x2024); (0x2027, 0x2027); (0x202A, 0x202E); (0x2060, 0x2064);
    (0x2066, 0x206F); (0x2071, 0x2071); (0x207F, 0x207F); (0x2090, 0x209C);
    (0x20D0, 0x20F0); (0x2C7C, 0x2C7D); (0x2CEF, 0x2CF1); (0x2D6F, 0x2D6F);
    (0x2D7F, 0x2D7F); (0x2DE0, 0x2DFF); (0x2E2F, 0x2E2F); (0x3005, 0x3005);
    (0x302A, 0x302D); (0x3031, 0x3035); (0x303B, 0x303B); (0x3099, 0x309E);
    (0x30FC, 0x30FE); (0xA015, 0xA015); (0xA4F8, 0xA4FD); (0xA60C, 0xA60C);
    (0xA66F, 0xA672); (0xA674, 0xA67D); (0xA67F, 0xA67F); (0xA69C, 0xA69F);
    (0xA6F0, 0xA6F1); (0xA700, 0xA721); (0xA770, 0xA770); (0xA788, 0xA78A);
    (0xA7F2, 0xA7F4); (0xA7F8, 0xA7F9); (0xA802, 0xA802); (0xA806, 0xA806);
    (0xA80B, 0xA80B); (0xA825, 0xA826); (0xA82C, 0xA82C); (0xA8C4, 0xA8C5);
    (0xA8E0, 0xA8F1); (0xA8FF, 0xA8FF); (0xA926, 0xA92D); (0xA947, 0xA951);
    (0xA980, 0xA982); (0xA9B3, 0xA9B3); (0xA9B6, 0xA9B9); (0xA9BC, 0xA9BD);
    (0xA9CF, 0xA9CF); (0xA9E5, 0xA9E6); (0xAA29, 0xAA2E); (0xAA31, 0xAA32);
    (0xAA35, 0xAA36); (0xAA43, 0xAA43); (0xAA4C, 0xAA4C); (0xAA70, 0xAA70);
    (0xAA7C, 0xAA7C); (0xAAB0, 0xAAB0); (0xAAB2, 0xAAB4); (0xAAB7, 0xAAB8);
    (0xAABE, 0xAABF); (0xAAC1, 0xAAC1); (0xAADD, 0xAADD); (0xAAEC, 0xAAED);
    (0xAAF3, 0xAAF4); (0xAAF6, 0xAAF6); (0xAB5B, 0xAB5F); (0xAB69, 0xAB6B);
    (0xABE5, 0xABE5); (0xABE8, 0xABE8); (0xABED, 0xABED); (0xFB1E, 0xFB1E);
    (0xFBB2, 0xFBC2); (0xFE00, 0xFE0F); (0xFE13, 0xFE13); (0xFE20, 0xFE2F);
    (0xFE52, 0xFE52); (0xFE55, 0xFE55); (0xFEFF, 0xFEFF); (0xFF07, 0xFF07);
    (0xFF0E, 0xFF0E); (0xFF1A, 0xFF1A); (0xFF3E, 0xFF3E); (0xFF40, 0xFF40);
    (0xFF70, 0xFF70); (0xFF9E, 0xFF9F); (0xFFE3, 0xFFE3); (0xFFF9, 0xFFFB);
    (0x101FD, 0x101FD); (0x102E0, 0x102E0); (0x10376, 0x1037A); (0x10780, 0x10785);
    (0x10787, 0x107B0); (0x107B2, 0x107BA); (0x10A01, 0x10A03); (0x10A05, 0x10A06);
    (0x10A0C, 0x10A0F); (0x10A38, 0x10A3A); (0x10A3F, 0x10A3F); (0x10AE5, 0x10AE6);
    (0x10D24, 0x10D27); (0x10EAB, 0x10EAC); (0x10F46, 0x10F50); (0x10F82, 0x10F85);
    (0x11001, 0x11001); (0x11038, 0x11046); (0x11070, 0x11070); (0x11073, 0x11074);
    (0x1107F, 0x11081); (0x110B3, 0x110B6); (0x110B9, 0x110BA); (0x110BD, 0x110BD);
    (0x110C2, 0x110C2); (0x110CD, 0x110CD); (0x11100, 0x11102); (0x11127, 0x1112B);
    (0x1112D, 0x11134); (0x11173, 0x11173); (0x11180, 0x11181); (0x111B6, 0x111BE);
    (0x111C9, 0x111CC); (0x111CF, 0x111CF); (0x1122F, 0x11231); (0x11234, 0x11234);
    (0x11236, 0x11237); (0x1123E, 0x1123E); (0x112DF, 0x112DF); (0x112E3, 0x112EA);
    (0x11300, 0x11301); (0x1133B, 0x1133C); (0x11340, 0x11340); (0x11366, 0x1136C);
    (0x11370, 0x11374); (0x11438, 0x1143F); (0x11442, 0x11444); (0x11446, 0x11446);
    (0x1145E, 0x1145E); (0x114B3, 0x114B8); (0x114BA, 0x114BA); (0x114BF, 0x114C0);
    (0x114C2, 0x114C3); (0x115B2, 0x115B5); (0x115BC, 0x115BD); (0x115BF, 0x115C0);
    (0x115DC, 0x115DD); (0x11633, 0x1163A); (0x1163D, 0x1163D); (0x1163F, 0x11640);
    (0x116AB, 0x116AB); (0x116AD, 0x116AD); (0x116B0, 0x116B5); (0x116B7, 0x116B7);
    (0x1171D, 0x1171F); (0x11722, 0x11725); (0x11727, 0x1172B); (0x1182F, 0x11837);
    (0x11839, 0x1183A); (0x1193B, 0x1193C); (0x1193E, 0x1193E); (0x11943, 0x11943);
    (0x119D4, 0x119D7); (0x119DA, 0x119DB); (0x119E0, 0x119E0); (0x11A01, 0x11A0A);
    (0x11A33, 0x11A38); (0x11A3B, 0x11A3E); (0x11A47, 0x11A47); (0x11A51, 0x11A56);
    (0x11A59, 0x11A5B); (0x11A8A, 0x11A96); (0x11A98, 0x11A99); (0x11C30, 0x11C36);
    (0x11C38, 0x11C3D); (0x11C3F, 0x11C3F); (0x11C92, 0x11CA7); (0x11CAA, 0x11CB0);
    (0x11CB2, 0x11CB3); (0x11CB5, 0x11CB6); (0x11D31, 0x11D36); (0x11D3A, 0x11D3A);
    (0x11D3C, 0x11D3D); (0x11D3F, 0x11D45); (0x11D47, 0x11D47); (0x11D90, 0x11D91);
    (0x11D95, 0x11D95); (0x11D97, 0x11D97); (0x11EF3, 0x11EF4); (0x13430, 0x13438);
    (0x16AF0, 0x16AF4); (0x16B30, 0x16B36); (0x16B40, 0x16B43); (0x16F4F, 0x16F4F);
    (0x16F8F, 0x16F9F); (0x16FE0, 0x16FE1); (0x16FE3, 0x16FE4); (0x1AFF0, 0x1AFF3);
    (0x1AFF5, 0x1AFFB); (0x1AFFD, 0x1AFFE); (0x1BC9D, 0x1BC9E); (0x1BCA0, 0x1BCA3);
    (0x1CF00, 0x1CF2D); (0x1CF30, 0x1CF46); (0x1D167, 0x1D169); (0x1D173, 0x1D182);
    (0x1D185, 0x1D18B); (0x1D1AA, 0x1D1AD); (0x1D242, 0x1D244); (0x1DA00, 0x1DA36);
    (0x1DA3B, 0x1DA6C); (0x1DA75, 0x1DA75); (0x1DA84, 0x1DA84); (0x1DA9B, 0x1DA9F);
    (0x1DAA1, 0x1DAAF); (0x1E000, 0x1E006); (0x1E008, 0x1E018); (0x1E01B, 0x1E021);
    (0x1E023, 0x1E024); (0x1E026, 0x1E02A); (0x1E130, 0x1E13D); (0x1E2AE, 0x1E2AE);
    (0x1E2EC, 0x1E2EF); (0x1E8D0, 0x1E8D6); (0x1E944, 0x1E94B); (0x1F3FB, 0x1F3FF);
    (0xE0001, 0xE0001); (0xE0020, 0xE007F); (0xE0100, 0xE01EF)
  ]%N.

(** [c] is one of the code points [lo], [lo + step], ..., up to [hi]. *)
Definition in_lower_range (c : N) (r : N * N * N * N) : bool :=
  let '(lo, hi, step, _) := r in
  (lo <=? c)%N && (c <=? hi)%N && ((c - lo) mod step =? 0)%N.

Definition in_ranges (c : N) (l : list (N * N)) : bool :=
  existsb (fun r => (fst r <=? c)%N && (c <=? snd r)%N) l.

(** GREEK CAPITAL LETTER SIGMA and the two small sigmas. *)
Definition capital_sigma : N := 0x3A3.
Definition small_sigma : N := 0x3C3.
Definition final_sigma : N := 0x3C2.

(** The full lower-case mapping of a code point: the simple mapping, but
    for U+0130, the one code point whose lower case is two code points. *)
Definition to_lower_full (c : N) : list N :=
  if (c =? 0x130)%N then [0x69; 0x307]%N
  else match find (in_lower_range c) lower_ranges with
       | Some (lo, _, _, to) => [(to + (c - lo))%N]
       | None => [c]
       end.

Definition is_cased (c : N) : bool := in_ranges c cased_ranges.
Definition is_case_ignorable (c : N) : bool :=
  in_ranges c case_ignorable_ranges.

(** After the case-ignorable code points at the head of [l] comes a cased
    one. *)
Fixpoint cased_ahead (l : list N) : bool :=
  match l with
  | nil => false
  | c :: r => if is_case_ignorable c then cased_ahead r else is_cased c
  end.

(** The lower case of the code point [c], which stands before [rest]:
    its full lower-case mapping, but a capital sigma becomes the final
    sigma when it ends a word, that is when the nearest code point before
    it that is not case-ignorable is cased ([before]) and the nearest one
    after it is not. *)
Definition lower_cp (before : bool) (c : N) (rest : list N) : list N :=
  if (c =? capital_sigma)%N
  then [if before && negb (cased_ahead rest)
        then final_sigma else small_sigma]
  else to_lower_full c.

(** [before], one code point later. *)
Definition cased_before (before : bool) (c : N) : bool :=
  if is_case_ignorable c then before else is_cased c.

(** [str.lower] on code points. *)
Fixpoint lower_from (before : bool) (l : list N) : list N :=
  match l with
  | nil => nil
  | c :: r => (lower_cp before c r ++ lower_from (cased_before before c) r)%list
  end.

(** [s.lower()]. *)
Definition lower (s : string) : string :=
  utf8_encode (lower_from false (utf8_decode s)).

(* ------------------------------------------------------------------ *)
(** ** Separators, splitting and joining                              *)
(* ------------------------------------------------------------------ *)

(** Membership in the character class [[-_.]]. *)
Definition is_sep (c : ascii) : bool :=
  (c =? "-")%char || (c =? "_")%char || (c =? ".")%char.

(** [re.sub(r'[-_.]+', '-', s)]: every maximal run of separator characters
    is replaced by one ['-'].  [in_run] tells that the previous character
    belonged to a run whose replacement is already emitted. *)
Fixpoint re_sub_seps (in_run : bool) (s : string) : string :=
  match s with
  | EmptyString => EmptyString
  | String c r =>
      if is_sep c
      then if in_run then re_sub_seps true r
           else String "-" (re_sub_seps true r)
      else String c (re_sub_seps false r)
  end.

(** [s.endswith(suffix)]: the last [len(suffix)] characters of [s] are
    [suffix]. *)
Definition endswith (s suffix : string) : bool :=
  (String.length suffix <=? String.length s)%nat
  && (substring (String.length s - String.length suffix)
                (String.length suffix) s =? suffix).

(** [s.split(sep)] for a one-character separator: the pieces between the
    occurrences of [sep]; the result is never empty. *)
Fixpoint split (sep : ascii) (s : string) : list string :=
  match s with
  | EmptyString => [EmptyString]
  | String c r =>
      if (c =? sep)%char then EmptyString :: split sep r
      else match split sep r with
           | p :: ps => String c p :: ps
           | [] => [String c EmptyString]
           end
  end.

(** [sep.join(parts)]. *)
Fixpoint join (sep : string) (parts : list string) : string :=
  match parts with
  | [] => EmptyString
  | [p] => p
  | p :: ps => p ++ sep ++ join sep ps
  end.

(** [c in s] for a character. *)
Fixpoint contains_char (c : ascii) (s : string) : bool :=
  match s with
  | EmptyString => false
  | String d r => (d =? c)%char || contains_char c r
  end.

(** [sub in s]: [sub] occurs in [s] as a contiguous substring. *)
Definition occurs_in (sub s : string) : Prop :=
  exists pre post, s = pre ++ sub ++ post.

End PyStr.
Import PyStr.

(* ================================================================== *)
(** * normalize_name                                                   *)
(* ================================================================== *)

(** [normalize_name(name)]:
    [re.sub(r'[-_.]+', '-', name).lower()]. *)
Definition normalize_name (name : string) : string :=
  lower (re_sub_seps false name).


(* ================================================================== *)
(** * Data model                                                       *)
(* ================================================================== *)

(** An asset object of the API: the keys ["name"], ["browser_download_url"]
    and ["size"], each possibly absent. *)
Record asset := {
  name : option string;
  browser_download_url : option string;
  size : option Z
}.

(** A release object of the API: the keys ["tag_name"] and ["assets"]. *)
Record release := {
  tag_name : option string;
  assets : option (list asset)
}.

(** The dict built by [extract_wheels], with the keys ["filename"], ["url"],
    ["size"] and ["tag"]. *)
Record wheel := {
  filename : string;
  url : string;
  wheel_size : Z;
  tag : string
}.

(** The exceptions the program can meet.  [HTTPError] is the class the
    fetcher catches; [URLError] stands for a [urllib.error.URLError] that is
    not an [HTTPError] (a transport failure: no route, refused connection,
    failed name resolution). *)
Inductive exn :=
| HTTPError (msg : string)
| URLError (msg : string)
| KeyError (key : string)
| IndexError (msg : string)
| OSError (msg : string)
| OtherError (msg : string).

(** [isinstance(e, HTTPError)], the test of [except HTTPError]. *)
Definition is_HTTPError (e : exn) : bool :=
  match e with
  | HTTPError _ => true
  | _ => false
  end.

(** [str(e)]. *)
Definition exn_str (e : exn) : string :=
  match e with
  | HTTPError msg | URLError msg | IndexError msg | OSError msg
  | OtherError msg => msg
  | KeyError key => "'" ++ key ++ "'"
  end.

(** The result of a call: a value or a raised exception. *)
Inductive outcome (A : Type) :=
| Returned (a : A)
| Raised (e : exn).
Arguments Returned {A} a.
Arguments Raised {A} e.

(** [d.get(key, default)]. *)
Definition get_default {A : Type} (field : option A) (default : A) : A :=
  match field with
  | Some v => v
  | None => default
  end.

(** [d[key]]: raises [KeyError] on an absent key. *)
Definition getitem {A : Type} (key : string) (field : option A) : outcome A :=
  match field with
  | Some v => Returned v
  | None => Raised (KeyError key)
  end.

(** [l[0]]: raises [IndexError] on an empty list. *)
Definition getitem0 {A : Type} (l : list A) : outcome A :=
  match l with
  | x :: _ => Returned x
  | [] => Raised (IndexError "list index out of range")
  end.

(* ================================================================== *)
(** * extract_wheels                                                   *)
(* ================================================================== *)

(** The inner loop [for asset in release.get("assets", [])], threading the
    list [wheels] it appends to. *)
Fixpoint extract_assets (tag : string) (assets : list asset)
    (wheels : list wheel) : outcome (list wheel) :=
  match assets with
  | [] => Returned wheels
  | asset :: rest =>
      match getitem "name" (name asset) with
      | Raised e => Raised e
      | Returned filename =>
          if endswith filename ".whl" then
            match getitem "browser_download_url"
                          (browser_download_url asset) with
            | Raised e => Raised e
            | Returned u =>
                extract_assets tag rest
                  (wheels ++ [ {| filename := filename;
                                  url := u;
                                  wheel_size := get_default (size asset) 0%Z;
                                  tag := tag |} ])%list
            end
          else extract_assets tag rest wheels
      end
  end.

(** The outer loop [for release in releases]. *)
Fixpoint extract_releases (releases : list release) (wheels : list wheel)
    : outcome (list wheel) :=
  match releases with
  | [] => Returned wheels
  | release :: rest =>
      let tag := get_default (tag_name release) "unknown" in
      match extract_assets tag (get_default (assets release) []) wheels with
      | Raised e => Raised e
      | Returned wheels' => extract_releases rest wheels'
      end
  end.

(** [extract_wheels(releases)]. *)
Definition extract_wheels (releases : list release) : outcome (list wheel) :=
  extract_releases releases [].

(* ================================================================== *)
(** * Sorting                                                          *)
(* ================================================================== *)

(** [sorted(l, key=key)] on string keys: Python's sort is stable and
    compares strings by code point, as [String.leb] does. *)
Section Sorted.
Context {A : Type} (key : A -> string).

Fixpoint insert_by (x : A) (l : list A) : list A :=
  match l with
  | [] => [x]
  | y :: r => if (key x <=? key y)%string then x :: y :: r
              else y :: insert_by x r
  end.

Fixpoint sorted_by (l : list A) : list A :=
  match l with
  | [] => []
  | x :: r => insert_by x (sorted_by r)
  end.
End Sorted.

(** [sorted(l)] on a list of strings. *)
Definition sorted (l : list string) : list string :=
  sorted_by (fun s => s) l.

(* ================================================================== *)
(** * The HTML templates                                               *)
(* ================================================================== *)

(** The tag every index page carries. *)
Definition meta_tag : string :=
  "<meta name=" ++ dq ++ "pypi:repository-version" ++ dq
  ++ " content=" ++ dq ++ "1.0" ++ dq ++ ">".

(** One line of the root index:
    [f'    <a href="{pkg}/">{pkg}</a><br/>']. *)
Definition root_anchor (pkg : string) : string :=
  "    <a href=" ++ dq ++ pkg ++ "/" ++ dq ++ ">" ++ pkg ++ "</a><br/>".

Definition root_prefix : string :=
"<!DOCTYPE html>
<html>
<head>
    " ++ meta_tag ++ "
    <title>Simple Index</title>
</head>
<body>
    <h1>Simple Index</h1>
".

Definition html_suffix : string :=
"
</body>
</html>".

(** [generate_root_index(packages)]. *)
Definition generate_root_index (packages : list string) : string :=
  let links := join nl (map root_anchor (sorted packages)) in
  root_prefix ++ links ++ html_suffix.

(** One line of a package index:
    [f'    <a href="{w["url"]}#sha256=" data-dist-info-metadata="false">{w["filename"]}</a><br/>']. *)
Definition package_anchor (w : wheel) : string :=
  "    <a href=" ++ dq ++ url w ++ "#sha256=" ++ dq
  ++ " data-dist-info-metadata=" ++ dq ++ "false" ++ dq ++ ">"
  ++ filename w ++ "</a><br/>".

Definition package_prefix (package_name : string) : string :=
"<!DOCTYPE html>
<html>
<head>
    " ++ meta_tag ++ "
    <title>Links for " ++ package_name ++ "</title>
</head>
<body>
    <h1>Links for " ++ package_name ++ "</h1>
".

(** [generate_package_index(package_name, wheels)]. *)
Definition generate_package_index (package_name : string)
    (wheels : list wheel) : string :=
  let sorted_wheels := sorted_by filename wheels in
  let links := join nl (map package_anchor sorted_wheels) in
  package_prefix package_name ++ links ++ html_suffix.

(* ================================================================== *)
(** * Grouping by normalized package name (the loop of [main])         *)
(* ================================================================== *)

(** The dict [packages]: normalized name to list of wheels, in insertion
    order. *)
Definition dict : Type := list (string * list wheel).

(** [key in d]. *)
Fixpoint dict_contains (key : string) (d : dict) : bool :=
  match d with
  | [] => false
  | (k, _) :: r => (k =? key) || dict_contains key r
  end.

(** [d[key]]. *)
Fixpoint dict_getitem (key : string) (d : dict) : outcome (list wheel) :=
  match d with
  | [] => Raised (KeyError key)
  | (k, v) :: r => if k =? key then Returned v else dict_getitem key r
  end.

(** [d[key] = v]: an existing key keeps its place, a new key goes last. *)
Fixpoint dict_setitem (key : string) (v : list wheel) (d : dict) : dict :=
  match d with
  | [] => [(key, v)]
  | (k, x) :: r => if k =? key then (k, v) :: r
                   else (k, x) :: dict_setitem key v r
  end.

(** [d.keys()]. *)
Definition dict_keys (d : dict) : list string := map fst d.

(** [wheel["filename"].split("-")[0]]. *)
Definition name_part (w : wheel) : outcome string :=
  getitem0 (split "-" (filename w)).

(** The loop [for wheel in wheels] of [main], threading [packages]. *)
Fixpoint group_loop (wheels : list wheel) (packages : dict) : outcome dict :=
  match wheels with
  | [] => Returned packages
  | wheel :: rest =>
      match name_part wheel with
      | Raised e => Raised e
      | Returned part =>
          let normalized := normalize_name part in
          let packages :=
            if dict_contains normalized packages then packages
            else dict_setitem normalized [] packages in
          match dict_getitem normalized packages with
          | Raised e => Raised e
          | Returned l =>
              group_loop rest
                (dict_setitem normalized (l ++ [wheel])%list packages)
          end
      end
  end.

(** The grouping stage: [packages = {}] followed by the loop. *)
Definition group_packages (wheels : list wheel) : outcome dict :=
  group_loop wheels [].

(* ================================================================== *)
(** * generate_landing_page                                            *)
(* ================================================================== *)

(** One item of the package summary:
    [f"<li><strong>{pkg}</strong>: {len(wheels)} wheels</li>"]. *)
Definition landing_item (entry : string * list wheel) : string :=
  "<li><strong>" ++ fst entry ++ "</strong>: "
  ++ str_of_nat (List.length (snd entry)) ++ " wheels</li>".

(** [generate_landing_page(packages, total_wheels)]; the keys of a dict are
    distinct, so [sorted(packages.items())] orders by key. *)
Definition generate_landing_page (packages : dict) (total_wheels : nat)
    : string :=
  let pkg_list := join nl (map landing_item (sorted_by fst packages)) in
  "<!DOCTYPE html>
<html>
<head>
    <meta charset=" ++ dq ++ "utf-8" ++ dq ++ ">
    <meta name=" ++ dq ++ "viewport" ++ dq ++ " content=" ++ dq ++ "width=device-width, initial-scale=1" ++ dq ++ ">
    <title>Flash Attention Pre-built Wheels Index</title>
    <style>
        body {
            font-family: -apple-system, BlinkMacSystemFont, 'Segoe UI', Roboto, Oxygen, Ubuntu, sans-serif;
            max-width: 800px;
            margin: 0 auto;
            padding: 2rem;
            line-height: 1.6;
        }
        h1 { color: #2d3748; }
        code {
            background: #f1f5f9;
            padding: 0.2rem 0.4rem;
            border-radius: 4px;
            font-size: 0.9em;
        }
        pre {
            background: #1e293b;
            color: #e2e8f0;
            padding: 1rem;
            border-radius: 8px;
            overflow-x: auto;
        }
        pre code {
            background: none;
            padding: 0;
        }
        .stats {
            background: #f8fafc;
            border: 1px solid #e2e8f0;
            border-radius: 8px;
            padding: 1rem;
            margin: 1rem 0;
        }
        a { color: #3b82f6; }
    </style>
</head>
<body>
    <h1>🚀 Flash Attention Pre-built Wheels</h1>
    
    <p>
        This is a PEP 503 compliant Python package index for pre-built 
        <a href=" ++ dq ++ "https://github.com/Dao-AILab/flash-attention" ++ dq ++ ">Flash Attention</a> wheels,
        sourced from <a href=" ++ dq ++ "https://github.com/mjun0812/flash-attention-prebuild-wheels" ++ dq ++ ">mjun0812/flash-attention-prebuild-wheels</a>.
    </p>
    
    <div class=" ++ dq ++ "stats" ++ dq ++ ">
        <strong>📦 "
  ++ str_of_nat total_wheels
  ++ "</strong> wheels available for <strong>"
  ++ str_of_nat (List.length packages)
  ++ "</strong> package(s)
    </div>
    
    <h2>Installation</h2>
    
    <p>Install flash-attn using this index:</p>
    <pre><code>pip install flash-attn --index-url https://YOUR_DOMAIN/simple/</code></pre>
    
    <p>Or use as an extra index (with PyPI fallback):</p>
    <pre><code>pip install flash-attn --extra-index-url https://YOUR_DOMAIN/simple/</code></pre>
    
    <p>Install a specific version:</p>
    <pre><code>pip install flash-attn==2.5.9 --index-url https://YOUR_DOMAIN/simple/</code></pre>
    
    <h2>Available Packages</h2>
    <ul>
        "
  ++ pkg_list
  ++ "
    </ul>
    
    <p>
        <a href=" ++ dq ++ "simple/" ++ dq ++ ">Browse the simple index →</a>
    </p>
    
    <hr>
    <p style=" ++ dq ++ "color: #64748b; font-size: 0.875rem;" ++ dq ++ ">
        Auto-generated from GitHub releases. 
        Wheels are served directly from GitHub.
    </p>
</body>
</html>".

(* ================================================================== *)
(** * The environment: HTTP, file system, standard output              *)
(* ================================================================== *)

(** A [urllib.request.Request]. *)
Record Request := {
  req_url : string;
  req_headers : list (string * string)
}.

(** What the [try] block of the fetcher ends with: the decoded JSON array of
    a page, or the exception raised by [urlopen] or the decoding. *)
Inductive response :=
| Body (data : list release)
| Fails (e : exn).

(** A [pathlib.Path] expression: [Path(s)] and [p / s]. *)
Inductive path :=
| Path (s : string)
| PathJoin (p : path) (s : string).

(** The operating system, as far as the program uses it, over any type [FS]
    of file-system states. *)
Record OS (FS : Type) := {
  environ_GITHUB_TOKEN : option string;
  (** [os.environ.get("GITHUB_TOKEN")] *)
  urlopen_json : Request -> response;
  (** [urlopen(req)], [read], [decode] and [json.loads] *)
  path_str : path -> string;
  (** [str(p)] *)
  path_absolute : FS -> path -> string;
  (** [str(p.absolute())] *)
  mkdir : path -> bool -> bool -> FS -> option exn * FS;
  (** [p.mkdir(parents=.., exist_ok=..)]; [Some e] is a raised exception *)
  write_text : path -> string -> FS -> option exn * FS
  (** [p.write_text(data)] *)
}.
Arguments environ_GITHUB_TOKEN {FS} _.
Arguments urlopen_json {FS} _ _.
Arguments path_str {FS} _ _.
Arguments path_absolute {FS} _ _ _.
Arguments mkdir {FS} _ _ _ _ _.
Arguments write_text {FS} _ _ _ _.

(** The observable state of a run. *)
Record world (FS : Type) := {
  stdout : list string;      (** the arguments of the [print] calls so far *)
  requests : list Request;   (** the requests sent so far *)
  fs : FS                    (** the file system *)
}.
Arguments stdout {FS} _.
Arguments requests {FS} _.
Arguments fs {FS} _.

Definition GITHUB_REPO : string := "mjun0812/flash-attention-prebuild-wheels".
Definition API_URL : string :=
  "https://api.github.com/repos/" ++ GITHUB_REPO ++ "/releases".

(** ["=" * 60] and the like. *)
Fixpoint str_repeat (s : string) (n : nat) : string :=
  match n with
  | O => EmptyString
  | S k => s ++ str_repeat s k
  end.

(** The dict [headers] of the fetcher; [if token:] is false for an absent
    and for an empty token. *)
Definition request_headers (token : option string) : list (string * string) :=
  let headers := [("Accept", "application/vnd.github+json")] in
  match token with
  | None => headers
  | Some t =>
      if t =? "" then headers
      else app headers [("Authorization", "Bearer " ++ t)]
  end.

(** [Request(f"{API_URL}?page={page}&per_page=100", headers=headers)]. *)
Definition page_request (headers : list (string * string)) (page : nat)
    : Request :=
  {| req_url := API_URL ++ "?page=" ++ str_of_nat page ++ "&per_page=100";
     req_headers := headers |}.

Section Program.
Variable FS : Type.
Variable os : OS FS.

(** A computation: from a world to an outcome and a world, or [None] when
    the fuel of a loop is exhausted. *)
Definition M (A : Type) : Type :=
  world FS -> option (outcome A * world FS).

Definition ret {A : Type} (a : A) : M A :=
  fun w => Some (Returned a, w).

Definition raise {A : Type} (e : exn) : M A :=
  fun w => Some (Raised e, w).

Definition bind {A B : Type} (m : M A) (k : A -> M B) : M B :=
  fun w =>
    match m w with
    | None => None
    | Some (Raised e, w') => Some (Raised e, w')
    | Some (Returned a, w') => k a w'
    end.

Definition lift {A : Type} (o : outcome A) : M A :=
  fun w => Some (o, w).

(** [print(s)]. *)
Definition print (s : string) : M unit :=
  fun w => Some (Returned tt,
                 {| stdout := (stdout w ++ [s])%list;
                    requests := requests w;
                    fs := fs w |}).

(** The [try] block of the fetcher: the request is sent and answered. *)
Definition send (req : Request) : M response :=
  fun w => Some (Returned (urlopen_json os req),
                 {| stdout := stdout w;
                    requests := (requests w ++ [req])%list;
                    fs := fs w |}).

(** A file-system call. *)
Definition fs_call (op : FS -> option exn * FS) : M unit :=
  fun w =>
    let '(r, fs') := op (fs w) in
    let w' := {| stdout := stdout w; requests := requests w; fs := fs' |} in
    match r with
    | None => Some (Returned tt, w')
    | Some e => Some (Raised e, w')
    end.

(** [for x in l: body(x)]. *)
Fixpoint for_each {A : Type} (l : list A) (body : A -> M unit) : M unit :=
  match l with
  | [] => ret tt
  | x :: r => bind (body x) (fun _ => for_each r body)
  end.

Notation "x <- c ;; k" := (bind c (fun x => k))
  (at level 61, c at next level, right associativity).
Notation "c ;;; k" := (bind c (fun _ => k))
  (at level 61, right associativity).

(** The loop [while True] of [get_all_releases]. *)
Fixpoint fetch_loop (fuel : nat) (headers : list (string * string))
    (releases : list release) (page : nat) : M (list release) :=
  match fuel with
  | O => fun _ => None
  | S fuel' =>
      r <- send (page_request headers page) ;;
      match r with
      | Fails e =>
          if is_HTTPError e then
            print ("Error fetching page " ++ str_of_nat page ++ ": "
                   ++ exn_str e) ;;;
            ret releases
          else raise e
      | Body data =>
          match data with
          | [] => ret releases
          | _ :: _ =>
              print ("  Fetched page " ++ str_of_nat page ++ " ("
                     ++ str_of_nat (List.length data) ++ " releases)") ;;;
              fetch_loop fuel' headers (releases ++ data)%list (page + 1)
          end
      end
  end.

(** [get_all_releases()]. *)
Definition get_all_releases (fuel : nat) : M (list release) :=
  fetch_loop fuel (request_headers (environ_GITHUB_TOKEN os)) [] 1.

(** The body of [for pkg_name, pkg_wheels in packages.items()] that writes
    one package index. *)
Definition write_package (output_dir : path)
    (entry : string * list wheel) : M unit :=
  let '(pkg_name, pkg_wheels) := entry in
  let pkg_dir := PathJoin output_dir pkg_name in
  fs_call (mkdir os pkg_dir false true) ;;;
  let pkg_html := generate_package_index pkg_name pkg_wheels in
  fs_call (write_text os (PathJoin pkg_dir "index.html") pkg_html) ;;;
  print ("      Created: " ++ path_str os pkg_dir ++ "/index.html").

(** [main()]; the value returned is the exit code. *)
Definition main (fuel : nat) : M Z :=
  print (str_repeat "=" 60) ;;;
  print "Flash Attention Wheel Index Generator" ;;;
  print (str_repeat "=" 60) ;;;
  print (nl ++ "[1/4] Fetching releases from GitHub...") ;;;
  releases <- get_all_releases fuel ;;
  print ("      Found " ++ str_of_nat (List.length releases)
         ++ " releases total") ;;;
  print (nl ++ "[2/4] Extracting wheel files...") ;;;
  wheels <- lift (extract_wheels releases) ;;
  print ("      Found " ++ str_of_nat (List.length wheels)
         ++ " wheel files") ;;;
  match wheels with
  | [] =>
      print "ERROR: No wheels found!" ;;;
      ret 1%Z
  | _ :: _ =>
      print (nl ++ "[3/4] Grouping packages...") ;;;
      packages <- lift (group_packages wheels) ;;
      for_each packages (fun entry =>
        print ("      " ++ fst entry ++ ": "
               ++ str_of_nat (List.length (snd entry)) ++ " wheels")) ;;;
      print (nl ++ "[4/4] Generating index files...") ;;;
      let output_dir := Path "public/simple" in
      fs_call (mkdir os output_dir true true) ;;;
      let root_html := generate_root_index (dict_keys packages) in
      fs_call (write_text os (PathJoin output_dir "index.html")
                          root_html) ;;;
      print ("      Created: " ++ path_str os output_dir
             ++ "/index.html") ;;;
      for_each packages (write_package output_dir) ;;;
      let landing_html :=
        generate_landing_page packages (List.length wheels) in
      fs_call (write_text os (PathJoin (Path "public") "index.html")
                          landing_html) ;;;
      print (nl ++ str_repeat "=" 60) ;;;
      print "SUCCESS!" ;;;
      print (str_repeat "=" 60) ;;;
      w <- (fun w => Some (Returned w, w)) ;;
      print (nl ++ "Output directory: "
             ++ path_absolute os (fs w) output_dir) ;;;
      print (nl ++ "Usage:") ;;;
      print "  pip install flash-attn --index-url https://<your-domain>/simple/" ;;;
      print (nl ++ "Or with PyPI fallback:") ;;;
      print "  pip install flash-attn --extra-index-url https://<your-domain>/simple/" ;;;
      ret 0%Z
  end.

End Program.
Arguments ret {FS A} a.
Arguments raise {FS A} e.
Arguments bind {FS A B} m k.
Arguments lift {FS A} o.
Arguments print {FS} s.
Arguments send {FS} os req.
Arguments fs_call {FS} op.
Arguments for_each {FS A} l body.
Arguments fetch_loop {FS} os fuel headers releases page.
Arguments get_all_releases {FS} os fuel.
Arguments write_package {FS} os output_dir entry.
Arguments main {FS} os fuel.

(* ================================================================== *)
(** * Vocabulary of the statements                                     *)
(* ================================================================== *)

(** Index of the last occurrence of a character, [s.rfind(c)]. *)
Fixpoint rfind_char (c : ascii) (s : string) : option nat :=
  match s with
  | EmptyString => None
  | String d r =>
      match rfind_char c r with
      | Some i => Some (S i)
      | None => if (d =? c)%char then Some 0 else None
      end
  end.

(** The stem of a file name.  This definition follows the wording of the
    specification, not the source (the source has no such notion): as in
    [pathlib.PurePath.stem], the name without its last suffix. *)
Definition stem (file : string) : string :=
  match rfind_char "." file with
  | Some i =>
      if (0 <? i)%nat && (i <? String.length file - 1)%nat
      then substring 0 i file
      else file
  | None => file
  end.

(** The normalized package name under which [main] files a wheel. *)
Definition key_of (w : wheel) : string :=
  normalize_name (hd EmptyString (split "-" (filename w))).

(** What one iteration of the grouping loop does to [packages] for a wheel
    of key [k]: the wheel goes to the end of the list of [k], and a new key
    goes last. *)
Fixpoint add_wheel (k : string) (w : wheel) (d : dict) : dict :=
  match d with
  | [] => [(k, [w])]
  | (k', g) :: r =>
      if k' =? k then (k', (g ++ [w])%list) :: r
      else (k', g) :: add_wheel k w r
  end.

(** The wheels of key [k], in their order in [wheels]. *)
Definition group_of (k : string) (wheels : list wheel) : list wheel :=
  filter (fun w => key_of w =? k) wheels.

(** The state of [packages] after the loop has run over [ws]. *)
Definition grouped (ws : list wheel) : dict :=
  fold_left (fun d w => add_wheel (key_of w) w d) ws [].

(** [l] is in ascending order of [key], every element against all the later
    ones. *)
Definition ascending {A : Type} (key : A -> string) (l : list A) : Prop :=
  StronglySorted (fun a b => (key a <=? key b) = true) l.

(** The world [w] after the lines [out] were printed and the requests [rq]
    were sent. *)
Definition extend {FS : Type} (w : world FS) (out : list string)
    (rq : list Request) : world FS :=
  {| stdout := (stdout w ++ out)%list;
     requests := (requests w ++ rq)%list;
     fs := fs w |}.

(** A wheel whose file name has no hyphen. *)
Definition hyphenless_wheel : wheel :=
  {| filename := "foo.whl";
     url := "https://example.invalid/foo.whl";
     wheel_size := 1%Z;
     tag := "v1.0" |}.

(** Two builds of one package, and one of another. *)
Definition wheel_a1 : wheel :=
  {| filename := "flash_attn-2.5.9-cp310-linux_x86_64.whl";
     url := "https://example.invalid/a1"; wheel_size := 10%Z; tag := "v1" |}.
Definition wheel_b1 : wheel :=
  {| filename := "torch_ext-0.1-cp310-linux_x86_64.whl";
     url := "https://example.invalid/b1"; wheel_size := 20%Z; tag := "v1" |}.
Definition wheel_a2 : wheel :=
  {| filename := "Flash_Attn-2.6.0-cp311-linux_x86_64.whl";
     url := "https://example.invalid/a2"; wheel_size := 30%Z; tag := "v2" |}.

(** [sum(len(g) for g in packages.values())]. *)
Definition total_wheels (d : dict) : nat :=
  list_sum (map (fun entry => List.length (snd entry)) d).

(** All the assets of a list of releases, in order. *)
Definition all_assets (releases : list release) : list asset :=
  flat_map (fun r => get_default (assets r) []) releases.

(** The names of all the assets that have one, in order. *)
Definition asset_names (releases : list release) : list string :=
  flat_map (fun a => match name a with Some n => [n] | None => [] end)
           (all_assets releases).

(** An asset with the three keys present. *)
Definition full_asset (n u : string) (s : Z) : asset :=
  {| name := Some n; browser_download_url := Some u; size := Some s |}.

(** A text file listed without a download URL. *)
Definition readme_without_url : asset :=
  {| name := Some "readme.txt"; browser_download_url := None; size := None |}.

(** An asset whose name ends in [.whl]. *)
Definition is_wheel_asset (a : asset) : bool :=
  match name a with
  | Some n => endswith n ".whl"
  | None => false
  end.

(** The wheel assets of a list of releases, each with its release. *)
Definition wheel_assets (releases : list release) : list (release * asset) :=
  flat_map (fun r => map (pair r)
                         (filter is_wheel_asset (get_default (assets r) [])))
           releases.

(** [w] is the record extraction builds for the asset [a] of release [r]. *)
Definition is_wheel_of (ra : release * asset) (w : wheel) : Prop :=
  name (snd ra) = Some (filename w)
  /\ browser_download_url (snd ra) = Some (url w)
  /\ wheel_size w = get_default (size (snd ra)) 0%Z
  /\ tag w = get_default (tag_name (fst ra)) "unknown".

(** An asset on which extraction does not raise: it has a name, and a URL
    when the name ends in [.whl]. *)
Definition asset_ok (a : asset) : bool :=
  match name a with
  | None => false
  | Some n =>
      if endswith n ".whl"
      then match browser_download_url a with Some _ => true | None => false end
      else true
  end.

(** The key whose lookup fails on an asset that is not [asset_ok]. *)
Definition missing_key (a : asset) : string :=
  match name a with
  | None => "name"
  | Some _ => "browser_download_url"
  end.

(** The first asset on which extraction raises, if any. *)
Definition first_bad_asset (l : list asset) : option asset :=
  find (fun a => negb (asset_ok a)) l.

(** The pages [first], [first + 1], ... of the API are the non-empty arrays
    [pages]. *)
Definition pages_answer {FS : Type} (os : OS FS)
    (headers : list (string * string)) (first : nat)
    (pages : list (list release)) : Prop :=
  forall i data,
    nth_error pages i = Some data ->
    urlopen_json os (page_request headers (first + i)) = Body data
    /\ data <> [].

(** The requests for the pages [first .. first + n - 1]. *)
Definition page_requests (headers : list (string * string))
    (first n : nat) : list Request :=
  map (page_request headers) (seq first n).

(* ------------------------------------------------------------------ *)
(** ** A recording operating system, and sample data                   *)
(* ------------------------------------------------------------------ *)

(** A file-system call, as recorded. *)
Inductive fs_event :=
| Mkdir (p : path) (parents exist_ok : bool)
| WriteText (p : path) (data : string).

Fixpoint posix_str (p : path) : string :=
  match p with
  | Path s => s
  | PathJoin q s => posix_str q ++ "/" ++ s
  end.

(** An operating system whose file system never fails and records every
    call, with a given token and API. *)
Definition recording_os (token : option string)
    (api : Request -> response) : OS (list fs_event) :=
  {| environ_GITHUB_TOKEN := token;
     urlopen_json := api;
     path_str := posix_str;
     path_absolute := fun _ p => "/work/" ++ posix_str p;
     mkdir := fun p parents exist_ok t =>
                (None, (t ++ [Mkdir p parents exist_ok])%list);
     write_text := fun p data t => (None, (t ++ [WriteText p data])%list) |}.

(** The world before a run on the recording system. *)
Definition fresh_world : world (list fs_event) :=
  {| stdout := []; requests := []; fs := [] |}.

Definition sample_wheel_url : string :=
  "https://github.com/mjun0812/flash-attention-prebuild-wheels/releases/download/v1.0/flash_attn-1.0-cp310-linux_x86_64.whl".

(** A release [v1.0] with one wheel and one text file. *)
Definition sample_release : release :=
  {| tag_name := Some "v1.0";
     assets := Some
       [ {| name := Some "flash_attn-1.0-cp310-linux_x86_64.whl";
            browser_download_url := Some sample_wheel_url;
            size := Some 100%Z |};
         {| name := Some "readme.txt";
            browser_download_url := Some "https://example.invalid/readme.txt";
            size := Some 12%Z |} ] |}.

(** A release whose only asset is not a wheel. *)
Definition text_only_release : release :=
  {| tag_name := Some "v0.1";
     assets := Some
       [ {| name := Some "readme.txt";
            browser_download_url := Some "https://example.invalid/readme.txt";
            size := Some 12%Z |} ] |}.

(** An API that answers page 1 with [first_page] and any other page with
    [otherwise]. *)
Definition api_with_first_page (first_page : list release)
    (otherwise : response) : Request -> response :=
  fun req =>
    if req_url req =? req_url (page_request [] 1) then Body first_page
    else otherwise.

(** One hundred records on page 1, none afterwards. *)
Definition full_page : list release := repeat sample_release 100.
Definition api_one_full_page : Request -> response :=
  api_with_first_page full_page (Body []).

(** One page, then a refused connection. *)
Definition connection_refused : exn :=
  URLError "<urlopen error [Errno 111] Connection refused>".
Definition api_then_refused : Request -> response :=
  api_with_first_page [sample_release] (Fails connection_refused).

(** One page, then an HTTP error status. *)
Definition rate_limited : exn :=
  HTTPError "HTTP Error 403: rate limit exceeded".
Definition api_then_forbidden : Request -> response :=
  api_with_first_page [sample_release] (Fails rate_limited).

(** One page without any wheel, none afterwards. *)
Definition api_without_wheels : Request -> response :=
  api_with_first_page [text_only_release] (Body []).

(* ------------------------------------------------------------------ *)
(** ** Further vocabulary: normal forms                                *)
(* ------------------------------------------------------------------ *)

(** An ASCII upper-case letter. *)
Definition is_upper (c : ascii) : bool :=
  let n := nat_of_ascii c in (65 <=? n)%nat && (n <=? 90)%nat.

(** The normal form of PEP 503, read from the left: the only separator is
    ['-'], never right after another separator, and no letter is upper
    case.  [prev_sep] tells that the previous character was a separator. *)
Fixpoint pep503_normal_from (prev_sep : bool) (s : string) : bool :=
  match s with
  | EmptyString => true
  | String c r =>
      if is_sep c
      then (c =? "-")%char && negb prev_sep && pep503_normal_from true r
      else negb (is_upper c) && pep503_normal_from false r
  end.

Definition pep503_normal (s : string) : bool := pep503_normal_from false s.

(** No character of [s] satisfies [p]. *)
Fixpoint none_char (p : ascii -> bool) (s : string) : bool :=
  match s with
  | EmptyString => true
  | String c r => negb (p c) && none_char p r
  end.

(* ------------------------------------------------------------------ *)
(** ** Further vocabulary: code points                                 *)
(* ------------------------------------------------------------------ *)

(** A code point, and the number that stands for a stray byte. *)
Definition valid_cp (c : N) : Prop := (c < cp_limit)%N.
Definition stray_byte (c : N) : Prop :=
  (cp_limit + 0x80 <= c < cp_limit + 0x100)%N.

(** [s] without its first [k] bytes. *)
Fixpoint string_drop (k : nat) (s : string) : string :=
  match k, s with
  | S k', String _ r => string_drop k' r
  | _, _ => s
  end.

(** The lists of numbers that decoding yields: code points, and stray bytes
    where the bytes that follow complete no sequence. *)
Fixpoint canonical (ts : list N) : Prop :=
  match ts with
  | nil => True
  | c :: rest =>
      (valid_cp c
       \/ (stray_byte c
           /\ utf8_head (ascii_of_N (c - cp_limit)) (utf8_encode rest) = None))
      /\ canonical rest
  end.

(** The separators and the ASCII capital letters, as code points. *)
Definition sep_cp (c : N) : bool :=
  ((c =? 0x2D) || (c =? 0x5F) || (c =? 0x2E))%N.
Definition upper_cp (c : N) : bool := ((0x41 <=? c) && (c <=? 0x5A))%N.

(** [to_lower_full d] is [[d]]. *)
Definition unmapped (d : N) : bool :=
  match to_lower_full d with
  | [d'] => (d' =? d)%N
  | _ => false
  end.

(** What the proofs use of a code point that the table yields: it is a code
    point, not the capital sigma, not mapped itself, no separator and no
    ASCII capital letter. *)
Definition good_out (d : N) : bool :=
  (d <? cp_limit)%N && negb (d =? capital_sigma)%N && unmapped d
  && negb (sep_cp d) && negb (upper_cp d).

(** The code points a range of the table yields. *)
Definition range_outputs (r : N * N * N * N) : list N :=
  let '(lo, hi, step, to) := r in
  map (fun k => (to + step * N.of_nat k)%N)
      (seq 0 (S (N.to_nat ((hi - lo) / step)))).

(** The facts about the table, checked by computation. *)
Definition table_ok : bool :=
  forallb (fun r => forallb good_out (range_outputs r)) lower_ranges
  && forallb (fun r => let '(lo, hi, step, to) := r in
                       (hi <? cp_limit)%N && (0 <? step)%N) lower_ranges
  && forallb good_out [0x69; 0x307; small_sigma; final_sigma]%N
  && forallb (fun k => negb (unmapped (0x41 + N.of_nat k)))
             (seq 0 26)
  && unmapped 0x2D && negb (unmapped capital_sigma).

(** A code point that [str.lower] leaves as it is, wherever it stands. *)
Definition fixed_cp (d : N) : Prop :=
  d <> capital_sigma /\ to_lower_full d = [d].

(** The only separator is ['-'], never right after another separator. *)
Fixpoint sep_ok_from (prev_sep : bool) (s : string) : bool :=
  match s with
  | EmptyString => true
  | String c r =>
      if is_sep c
      then (c =? "-")%char && negb prev_sep && sep_ok_from true r
      else sep_ok_from false r
  end.

(** The same, on code points. *)
Fixpoint sep_ok_cps (prev_sep : bool) (l : list N) : bool :=
  match l with
  | nil => true
  | c :: r =>
      if sep_cp c
      then (c =? 0x2D)%N && negb prev_sep && sep_ok_cps true r
      else sep_ok_cps false r
  end.

(** [pep503_normal_from], on code points. *)
Fixpoint normal_cps (prev_sep : bool) (l : list N) : bool :=
  match l with
  | nil => true
  | c :: r =>
      if sep_cp c
      then (c =? 0x2D)%N && negb prev_sep && normal_cps true r
      else negb (upper_cp c) && normal_cps false r
  end.

(** No byte of [s] is an ASCII character. *)
Fixpoint all_high (s : string) : bool :=
  match s with
  | EmptyString => true
  | String b r => (0x80 <=? N_of_ascii b)%N && all_high r
  end.

(** [re.sub(r'[-_.]+', '-', s)], on code points. *)
Fixpoint re_sub_cps (in_run : bool) (l : list N) : list N :=
  match l with
  | nil => nil
  | c :: r =>
      if sep_cp c
      then if in_run then re_sub_cps true r
           else 0x2D%N :: re_sub_cps true r
      else c :: re_sub_cps false r
  end.

(** No code point of [s] is the capital sigma. *)
Definition no_capital_sigma (s : string) : bool :=
  forallb (fun c => negb (c =? capital_sigma)%N) (utf8_decode s).

(* ------------------------------------------------------------------ *)
(** ** Further vocabulary: grouping                                    *)
(* ------------------------------------------------------------------ *)

(** The distinct elements of a list, in the order of their first
    occurrence. *)
Fixpoint distinct_in_order (l : list string) : list string :=
  match l with
  | [] => []
  | k :: r => k :: filter (fun k' => negb (k' =? k)) (distinct_in_order r)
  end.

(** A wheel of a distribution whose name is written with a hyphen. *)
Definition hyphenated_wheel : wheel :=
  {| filename := "flash-attn-2.6.0-cp311-linux_x86_64.whl";
     url := "https://example.invalid/h"; wheel_size := 5%Z; tag := "v3" |}.

(* ------------------------------------------------------------------ *)
(** ** Further vocabulary: the fetcher                                 *)
(* ------------------------------------------------------------------ *)

(** The line printed after a non-empty page. *)
Definition fetched_line (page : nat) (data : list release) : string :=
  "  Fetched page " ++ str_of_nat page ++ " ("
  ++ str_of_nat (List.length data) ++ " releases)".

(** The lines printed for the non-empty pages [first], [first + 1], ... *)
Fixpoint progress_lines (first : nat) (pages : list (list release))
    : list string :=
  match pages with
  | [] => []
  | data :: rest => fetched_line first data :: progress_lines (first + 1) rest
  end.

(** The line printed when a page fails with an [HTTPError]. *)
Definition error_line (page : nat) (e : exn) : string :=
  "Error fetching page " ++ str_of_nat page ++ ": " ++ exn_str e.

(** A response that ends the pagination: anything but a non-empty page. *)
Definition ends_pagination (r : response) : bool :=
  match r with
  | Body (_ :: _) => false
  | _ => true
  end.

(** What the fetcher prints on the response that ends the pagination. *)
Definition final_lines (page : nat) (r : response) : list string :=
  match r with
  | Fails e => if is_HTTPError e then [error_line page e] else []
  | Body _ => []
  end.

(** How the fetcher ends on that response, having accumulated [acc]. *)
Definition final_outcome (acc : list release) (r : response)
    : outcome (list release) :=
  match r with
  | Fails e => if is_HTTPError e then Returned acc else Raised e
  | Body _ => Returned acc
  end.

(** An API that answers every page with the same non-empty array, as one
    that ignores the [page] parameter does. *)
Definition api_endless : Request -> response :=
  fun _ => Body [sample_release].

(* ------------------------------------------------------------------ *)
(** ** Further vocabulary: the file-system calls of main               *)
(* ------------------------------------------------------------------ *)

(** The world [w] with the file system [s]. *)
Definition with_fs {FS : Type} (w : world FS) (s : FS) : world FS :=
  {| stdout := stdout w; requests := requests w; fs := s |}.

(** The call a recorded event stands for, on the operating system [os]. *)
Definition apply_event {FS : Type} (os : OS FS) (ev : fs_event) (s : FS)
    : option exn * FS :=
  match ev with
  | Mkdir p parents exist_ok => mkdir os p parents exist_ok s
  | WriteText p data => write_text os p data s
  end.

(** The calls of [script] made in turn until one raises: the exception, if
    any, and the file system reached. *)
Fixpoint run_script {FS : Type} (os : OS FS) (script : list fs_event)
    (s : FS) : option exn * FS :=
  match script with
  | [] => (None, s)
  | ev :: rest =>
      match apply_event os ev s with
      | (None, s') => run_script os rest s'
      | (Some e, s') => (Some e, s')
      end
  end.

(** The two calls [main] makes for a package: its directory, its index. *)
Definition package_events (entry : string * list wheel) : list fs_event :=
  [ Mkdir (PathJoin (Path "public/simple") (fst entry)) false true;
    WriteText (PathJoin (PathJoin (Path "public/simple") (fst entry))
                        "index.html")
              (generate_package_index (fst entry) (snd entry)) ].

(** The calls [main] makes for the grouping [packages] of [n] wheels. *)
Definition main_script (packages : dict) (n : nat) : list fs_event :=
  ([ Mkdir (Path "public/simple") true true;
     WriteText (PathJoin (Path "public/simple") "index.html")
               (generate_root_index (dict_keys packages)) ]
   ++ flat_map package_events packages
   ++ [ WriteText (PathJoin (Path "public") "index.html")
                  (generate_landing_page packages n) ])%list.

(** How [main] ends after its file-system calls. *)
Definition script_outcome (r : option exn) : outcome Z :=
  match r with
  | None => Returned 0%Z
  | Some e => Raised e
  end.


(** An API with the sample release on page 1 and nothing afterwards. *)
Definition api_sample : Request -> response :=
  api_with_first_page [sample_release] (Body []).

(** An API whose first page has an asset without name. *)
Definition api_nameless_asset : Request -> response :=
  api_with_first_page
    [ {| tag_name := Some "v1.0";
         assets := Some [ {| name := None; browser_download_url := None;
                             size := None |} ] |} ]
    (Body []).

(* ================================================================== *)
(** * Properties                                                       *)
(* ================================================================== *)

(* ------------------------------------------------------------------ *)
(** ** UTF-8: decoding and encoding are inverse                        *)
(* ------------------------------------------------------------------ *)

(** The arithmetic of UTF-8 divides by 64: in this part [lia] reads a
    quotient and a remainder as the numbers that satisfy the equation of
    the Euclidean division. *)
Ltac Zify.zify_post_hook ::= Z.to_euclidean_division_equations.

(** Decides the comparisons of the goal, by cases. *)
Ltac ncases :=
  repeat match goal with
         | |- context [(?a <? ?b)%N] => destruct (N.ltb_spec a b); try lia
         | |- context [(?a <=? ?b)%N] => destruct (N.leb_spec a b); try lia
         | |- context [(?a =? ?b)%N] => destruct (N.eqb_spec a b); try lia
         end.

Lemma string_drop_app (t rest : string) :
  string_drop (String.length t) (t ++ rest) = rest.
Proof. induction t as [| b t IH]; simpl; [ now destruct rest | exact IH ]. Qed.

Lemma decode_skip (t rest : string) :
  utf8_decode_from (String.length t) (t ++ rest) = utf8_decode_from 0 rest.
Proof. induction t as [| b t IH]; simpl; [ reflexivity | exact IH ]. Qed.

Lemma cont_byte (r : N) : (r < 64)%N -> cont (ascii_of_N (0x80 + r)) = Some r.
Proof.
  intros H. unfold cont. rewrite N_ascii_embedding by lia.
  ncases. cbn [andb]. f_equal. lia.
Qed.

Lemma cont_inv (b : ascii) (x : N) :
  cont b = Some x -> (x < 64)%N /\ N_of_ascii b = (0x80 + x)%N.
Proof.
  unfold cont. ncases; cbn [andb]; try discriminate.
  intros E. injection E as <-. lia.
Qed.

Lemma cont_none (b : ascii) :
  (N_of_ascii b < 0x80 \/ 0xC0 <= N_of_ascii b)%N -> cont b = None.
Proof. intros H. unfold cont. ncases; reflexivity. Qed.

Lemma conts_inv (n : nat) (s : string) (x : N) (xs : list N) :
  conts (S n) s = x :: xs ->
  exists b r, s = String b r /\ cont b = Some x /\ conts n r = xs.
Proof.
  destruct s as [| b r]; simpl; [ discriminate | ].
  destruct (cont b) as [y |] eqn:E; [ | discriminate ].
  intros H. injection H as <- <-. now exists b, r.
Qed.

Lemma byte_of_N (b : ascii) (n : N) : N_of_ascii b = n -> ascii_of_N n = b.
Proof. intros <-. apply ascii_N_embedding. Qed.

(** The sequence of a code point is read back as that code point. *)
Lemma utf8_head_encode (c : N) (rest : string) :
  valid_cp c ->
  exists b0 tail,
    utf8_encode_cp c = String b0 tail
    /\ utf8_head b0 (tail ++ rest) = Some (c, S (String.length tail))
    /\ cont b0 = None.
Proof.
  unfold valid_cp, cp_limit. intros V. unfold utf8_encode_cp, cp_limit.
  destruct (N.ltb_spec c 0x80) as [H1 | H1].
  { eexists. exists EmptyString. split; [ reflexivity | ]. split.
    - unfold utf8_head. rewrite N_ascii_embedding by lia.
      destruct (N.ltb_spec c 0x80); [ reflexivity | lia ].
    - apply cont_none. rewrite N_ascii_embedding by lia. lia. }
  destruct (N.ltb_spec c 0x800) as [H2 | H2].
  { eexists. eexists. split; [ reflexivity | ]. split.
    - unfold utf8_head. rewrite N_ascii_embedding by lia.
      cbn [append conts]. rewrite cont_byte by lia.
      ncases. cbn [andb]. repeat f_equal. lia.
    - apply cont_none. rewrite N_ascii_embedding by lia. lia. }
  destruct (N.ltb_spec c 0x10000) as [H3 | H3].
  { eexists. eexists. split; [ reflexivity | ]. split.
    - unfold utf8_head. rewrite N_ascii_embedding by lia.
      cbn [append conts]. rewrite !cont_byte by lia.
      ncases. cbn [andb]. repeat f_equal. lia.
    - apply cont_none. rewrite N_ascii_embedding by lia. lia. }
  destruct (N.ltb_spec c 0x110000) as [H4 | H4]; [ | lia ].
  eexists. eexists. split; [ reflexivity | ]. split.
  - unfold utf8_head, cp_limit. rewrite N_ascii_embedding by lia.
    cbn [append conts]. rewrite !cont_byte by lia.
    ncases. cbn [andb]. repeat f_equal. lia.
  - apply cont_none. rewrite N_ascii_embedding by lia. lia.
Qed.

Lemma decode_encode_cp (c : N) (rest : string) :
  valid_cp c ->
  utf8_decode_from 0 (utf8_encode_cp c ++ rest)
  = c :: utf8_decode_from 0 rest.
Proof.
  intros V. destruct (utf8_head_encode c rest V) as [b0 [tail [E [H _]]]].
  rewrite E. cbn [append utf8_decode_from]. rewrite H.
  cbn [Nat.pred]. now rewrite decode_skip.
Qed.

(** A well-formed sequence at the head of a string is the sequence of the
    code point read there. *)
Lemma utf8_head_sound (b0 : ascii) (r : string) (c : N) (len : nat) :
  utf8_head b0 r = Some (c, len) ->
  valid_cp c
  /\ exists tail rest,
       r = tail ++ rest
       /\ utf8_encode_cp c = String b0 tail
       /\ len = S (String.length tail).
Proof.
  unfold utf8_head, valid_cp, cp_limit.
  pose proof (N_ascii_bounded b0) as B0.
  destruct (N.ltb_spec (N_of_ascii b0) 0x80) as [H1 | H1].
  { intros E. injection E as <- <-. split; [ lia | ].
    exists EmptyString, r. split; [ reflexivity | ]. split; [ | reflexivity ].
    unfold utf8_encode_cp. ncases. now rewrite ascii_N_embedding. }
  destruct (N.ltb_spec (N_of_ascii b0) 0xC0) as [H2 | H2]; [ discriminate | ].
  destruct (N.ltb_spec (N_of_ascii b0) 0xE0) as [H3 | H3].
  { destruct (conts 1 r) as [| x1 [| ? ?]] eqn:C; try discriminate.
    apply conts_inv in C. destruct C as [b1 [r1 [-> [C1 _]]]].
    apply cont_inv in C1. destruct C1 as [X1 N1].
    destruct (N.leb_spec 0x80 ((N_of_ascii b0 - 0xC0) * 64 + x1)) as [L | L];
      [ | discriminate ].
    intros E. injection E as <- <-. split; [ lia | ].
    exists (String b1 EmptyString), r1.
    split; [ reflexivity | ]. split; [ | reflexivity ].
    unfold utf8_encode_cp, cp_limit. ncases.
    f_equal; [ | f_equal ]; apply byte_of_N; lia. }
  destruct (N.ltb_spec (N_of_ascii b0) 0xF0) as [H4 | H4].
  { destruct (conts 2 r) as [| x1 [| x2 [| ? ?]]] eqn:C; try discriminate.
    apply conts_inv in C. destruct C as [b1 [r1 [-> [C1 C]]]].
    apply conts_inv in C. destruct C as [b2 [r2 [-> [C2 _]]]].
    apply cont_inv in C1. destruct C1 as [X1 N1].
    apply cont_inv in C2. destruct C2 as [X2 N2].
    destruct (N.leb_spec 0x800
                (((N_of_ascii b0 - 0xE0) * 64 + x1) * 64 + x2)) as [L | L];
      [ | discriminate ].
    intros E. injection E as <- <-. split; [ lia | ].
    exists (String b1 (String b2 EmptyString)), r2.
    split; [ reflexivity | ]. split; [ | reflexivity ].
    unfold utf8_encode_cp, cp_limit. ncases.
    f_equal; [ | f_equal; [ | f_equal ] ]; apply byte_of_N; lia. }
  destruct (N.ltb_spec (N_of_ascii b0) 0xF8) as [H5 | H5]; [ | discriminate ].
  destruct (conts 3 r) as [| x1 [| x2 [| x3 [| ? ?]]]] eqn:C;
    try discriminate.
  apply conts_inv in C. destruct C as [b1 [r1 [-> [C1 C]]]].
  apply conts_inv in C. destruct C as [b2 [r2 [-> [C2 C]]]].
  apply conts_inv in C. destruct C as [b3 [r3 [-> [C3 _]]]].
  apply cont_inv in C1. destruct C1 as [X1 N1].
  apply cont_inv in C2. destruct C2 as [X2 N2].
  apply cont_inv in C3. destruct C3 as [X3 N3].
  set (c0 := ((((N_of_ascii b0 - 0xF0) * 64 + x1) * 64 + x2) * 64 + x3)%N).
  destruct (N.leb_spec 0x10000 c0) as [L | L]; [ | discriminate ].
  destruct (N.ltb_spec c0 0x110000) as [U | U]; [ | discriminate ].
  cbn [andb]. intros E. injection E as <- <-. split; [ exact U | ].
  exists (String b1 (String b2 (String b3 EmptyString))), r3.
  split; [ reflexivity | ]. split; [ | reflexivity ].
  unfold utf8_encode_cp, cp_limit. subst c0. ncases.
  f_equal; [ | f_equal; [ | f_equal; [ | f_equal ] ] ]; apply byte_of_N; lia.
Qed.

Lemma encode_stray (b : ascii) :
  utf8_encode_cp (cp_limit + N_of_ascii b) = String b EmptyString.
Proof.
  pose proof (N_ascii_bounded b) as B.
  unfold utf8_encode_cp, cp_limit. ncases.
  f_equal. apply byte_of_N. lia.
Qed.

Lemma utf8_head_ascii (b : ascii) (r : string) :
  (N_of_ascii b < 0x80)%N -> utf8_head b r = Some (N_of_ascii b, 1).
Proof. intros H. unfold utf8_head. now ncases. Qed.

Lemma encode_decode_from (s : string) :
  forall k, utf8_encode (utf8_decode_from k s) = string_drop k s.
Proof.
  induction s as [| b r IH]; intros k; [ now destruct k | ].
  destruct k as [| k]; cbn [utf8_decode_from string_drop]; [ | apply IH ].
  destruct (utf8_head b r) as [[c len] |] eqn:H.
  - apply utf8_head_sound in H.
    destruct H as [_ [tail [rest [-> [E ->]]]]].
    cbn [utf8_encode Nat.pred]. rewrite IH, E, string_drop_app.
    reflexivity.
  - cbn [utf8_encode]. rewrite IH, encode_stray. reflexivity.
Qed.

(** Encoding undoes decoding, on every string of bytes. *)
Lemma encode_decode (s : string) : utf8_encode (utf8_decode s) = s.
Proof. apply (encode_decode_from s 0). Qed.

Lemma canonical_decode_from (s : string) :
  forall k, canonical (utf8_decode_from k s).
Proof.
  induction s as [| b r IH]; intros k; [ exact I | ].
  destruct k as [| k]; cbn [utf8_decode_from]; [ | apply IH ].
  destruct (utf8_head b r) as [[c len] |] eqn:H.
  - apply utf8_head_sound in H. destruct H as [V _].
    split; [ now left | apply IH ].
  - split; [ right | apply IH ].
    pose proof (N_ascii_bounded b) as B.
    assert (Hb : (0x80 <= N_of_ascii b)%N).
    { destruct (N.ltb_spec (N_of_ascii b) 0x80) as [L | L]; [ | exact L ].
      rewrite (utf8_head_ascii b r L) in H. discriminate H. }
    split; [ unfold stray_byte, cp_limit; lia | ].
    replace (cp_limit + N_of_ascii b - cp_limit)%N with (N_of_ascii b)
      by (unfold cp_limit; lia).
    now rewrite ascii_N_embedding, encode_decode_from.
Qed.

(** Decoding undoes encoding, on canonical lists. *)
Lemma decode_encode (ts : list N) :
  canonical ts -> utf8_decode (utf8_encode ts) = ts.
Proof.
  unfold utf8_decode.
  induction ts as [| c rest IH]; [ reflexivity | ].
  intros [[V | [S H]] C]; cbn [utf8_encode].
  - rewrite decode_encode_cp by exact V. now rewrite IH.
  - unfold stray_byte, cp_limit in S.
    replace c with (cp_limit + N_of_ascii (ascii_of_N (c - cp_limit)))%N at 1
      by (rewrite N_ascii_embedding; unfold cp_limit; lia).
    rewrite encode_stray. cbn [append utf8_decode_from]. rewrite H.
    rewrite N_ascii_embedding by (unfold cp_limit; lia).
    rewrite IH by exact C. f_equal. unfold cp_limit. lia.
Qed.

(* ------------------------------------------------------------------ *)
(** ** The lower-case table                                            *)
(* ------------------------------------------------------------------ *)

Lemma table_ok_true : table_ok = true.
Proof. vm_compute. reflexivity. Qed.

Lemma table_facts :
  (forall r, In r lower_ranges -> Forall (fun d => good_out d = true)
                                         (range_outputs r))
  /\ (forall lo hi step to, In (lo, hi, step, to) lower_ranges ->
                            (hi < cp_limit)%N /\ (0 < step)%N)
  /\ Forall (fun d => good_out d = true)
            [0x69; 0x307; small_sigma; final_sigma]%N
  /\ (forall c, upper_cp c = true -> unmapped c = false)
  /\ unmapped 0x2D = true
  /\ unmapped capital_sigma = false.
Proof.
  pose proof table_ok_true as T. unfold table_ok in T.
  apply andb_true_iff in T. destruct T as [T T6].
  apply andb_true_iff in T. destruct T as [T T5].
  apply andb_true_iff in T. destruct T as [T T4].
  apply andb_true_iff in T. destruct T as [T T3].
  apply andb_true_iff in T. destruct T as [T1 T2].
  rewrite forallb_forall in T1, T2, T3, T4.
  split; [ | split; [ | split; [ | split; [ | split ] ] ] ].
  - intros r Hr. apply Forall_forall. intros d Hd.
    specialize (T1 r Hr). rewrite forallb_forall in T1. now apply T1.
  - intros lo hi step to Hr. specialize (T2 _ Hr). cbn beta iota in T2.
    apply andb_true_iff in T2. destruct T2 as [A B].
    apply N.ltb_lt in A, B. now split.
  - apply Forall_forall. exact T3.
  - intros c Hc. unfold upper_cp in Hc. apply andb_true_iff in Hc.
    destruct Hc as [A B]. apply N.leb_le in A, B.
    specialize (T4 (N.to_nat (c - 0x41))).
    replace (0x41 + N.of_nat (N.to_nat (c - 0x41)))%N with c in T4 by lia.
    apply negb_true_iff, T4, in_seq. lia.
  - exact T5.
  - now apply negb_true_iff.
Qed.

Lemma in_range_outputs (c lo hi step to : N) :
  in_lower_range c (lo, hi, step, to) = true ->
  In (to + (c - lo))%N (range_outputs (lo, hi, step, to)).
Proof.
  unfold in_lower_range, range_outputs. intros H.
  apply andb_true_iff in H. destruct H as [H M].
  apply andb_true_iff in H. destruct H as [L U].
  apply N.leb_le in L, U. apply N.eqb_eq in M.
  apply N.Div0.div_exact in M.
  apply in_map_iff. exists (N.to_nat ((c - lo) / step)). split.
  - replace (N.of_nat (N.to_nat ((c - lo) / step)))
      with ((c - lo) / step)%N by lia.
    now rewrite <- M.
  - apply in_seq.
    assert (D : ((c - lo) / step <= (hi - lo) / step)%N)
      by (apply N.Div0.div_le_mono; lia).
    lia.
Qed.

(** The mapping of a code point: the code point itself, or code points
    that are good. *)
Lemma to_lower_full_cases (c : N) :
  (to_lower_full c = [c] /\ unmapped c = true)
  \/ (Forall (fun d => good_out d = true) (to_lower_full c)
      /\ to_lower_full c <> nil /\ (c < cp_limit)%N).
Proof.
  destruct table_facts as [T1 [T2 [T3 _]]].
  unfold unmapped, to_lower_full.
  destruct (N.eqb_spec c 0x130) as [-> | Hc].
  - right. split; [ | split; [ discriminate | reflexivity ] ].
    inversion T3 as [| ? ? A T3']. inversion T3' as [| ? ? B _]. subst.
    now repeat constructor.
  - destruct (find (in_lower_range c) lower_ranges)
      as [[[[lo hi] step] to] |] eqn:F.
    + right. apply find_some in F. destruct F as [Hin Hr].
      split; [ | split; [ discriminate | ] ].
      * constructor; [ | constructor ].
        specialize (T1 _ Hin). rewrite Forall_forall in T1.
        apply T1. now apply in_range_outputs.
      * destruct (T2 _ _ _ _ Hin) as [A _].
        unfold in_lower_range in Hr.
        apply andb_true_iff in Hr. destruct Hr as [Hr _].
        apply andb_true_iff in Hr. destruct Hr as [_ U].
        apply N.leb_le in U. lia.
    + left. split; [ reflexivity | apply N.eqb_refl ].
Qed.

Lemma unmapped_spec (d : N) : unmapped d = true -> to_lower_full d = [d].
Proof.
  unfold unmapped. destruct (to_lower_full d) as [| d' [| ? ?]];
    try discriminate.
  intros E. apply N.eqb_eq in E. now subst.
Qed.

Lemma stray_unmapped (c : N) :
  (cp_limit <= c)%N -> to_lower_full c = [c] /\ c <> capital_sigma.
Proof.
  intros H. split.
  - destruct (to_lower_full_cases c) as [[E _] | [_ [_ V]]];
      [ exact E | lia ].
  - unfold cp_limit, capital_sigma in *. lia.
Qed.

(* ------------------------------------------------------------------ *)
(** ** str.lower is idempotent                                         *)
(* ------------------------------------------------------------------ *)

Lemma good_out_spec (d : N) :
  good_out d = true ->
  valid_cp d /\ fixed_cp d /\ sep_cp d = false /\ upper_cp d = false.
Proof.
  unfold good_out. rewrite !andb_true_iff, !negb_true_iff.
  intros [[[[V S] U] P] Q].
  apply N.ltb_lt in V. apply N.eqb_neq in S. apply unmapped_spec in U.
  repeat split; assumption.
Qed.

(** The lower case of a code point is the code point itself, which is then
    fixed, or a non-empty list of good code points. *)
Lemma lower_cp_cases (before : bool) (c : N) (rest : list N) :
  (lower_cp before c rest = [c] /\ fixed_cp c)
  \/ (Forall (fun d => good_out d = true) (lower_cp before c rest)
      /\ lower_cp before c rest <> nil /\ (c < cp_limit)%N).
Proof.
  unfold lower_cp. destruct (N.eqb_spec c capital_sigma) as [-> | Hc].
  - right. destruct table_facts as [_ [_ [T3 _]]].
    rewrite Forall_forall in T3.
    split; [ | split; [ discriminate | reflexivity ] ].
    constructor; [ | constructor ].
    destruct (before && negb (cased_ahead rest)); apply T3; simpl; tauto.
  - destruct (to_lower_full_cases c) as [[E U] | R]; [ left | now right ].
    split; [ exact E | now split ].
Qed.

Lemma lower_from_fixed (l : list N) :
  Forall fixed_cp l -> forall b, lower_from b l = l.
Proof.
  induction 1 as [| c l [Hs Hf] _ IH]; intros b; [ reflexivity | ].
  cbn [lower_from]. unfold lower_cp.
  destruct (N.eqb_spec c capital_sigma); [ contradiction | ].
  rewrite Hf, IH. reflexivity.
Qed.

Lemma lower_from_out_fixed (l : list N) :
  forall b, Forall fixed_cp (lower_from b l).
Proof.
  induction l as [| c l IH]; intros b; [ constructor | ].
  cbn [lower_from]. apply Forall_app. split; [ | apply IH ].
  destruct (lower_cp_cases b c l) as [[-> F] | [G _]].
  - now constructor.
  - eapply Forall_impl; [ | exact G ].
    intros d Hd. now apply good_out_spec in Hd.
Qed.

(** [str.lower], applied twice, is [str.lower]. *)
Lemma lower_from_idem (l : list N) (b b' : bool) :
  lower_from b' (lower_from b l) = lower_from b l.
Proof. apply lower_from_fixed, lower_from_out_fixed. Qed.

(* ------------------------------------------------------------------ *)
(** ** Lowering keeps lists canonical                                  *)
(* ------------------------------------------------------------------ *)

Lemma conts_encode_valid (c : N) (rest : string) (n : nat) :
  valid_cp c -> conts n (utf8_encode_cp c ++ rest) = nil.
Proof.
  intros V. destruct (utf8_head_encode c rest V) as [b0 [tail [E [_ C]]]].
  rewrite E. destruct n; cbn [append conts]; [ reflexivity | ].
  now rewrite C.
Qed.

Lemma stray_encode (c : N) :
  stray_byte c -> utf8_encode_cp c = String (ascii_of_N (c - cp_limit)) EmptyString.
Proof.
  unfold stray_byte, cp_limit. intros S.
  unfold utf8_encode_cp, cp_limit. now ncases.
Qed.

Lemma lower_cp_stray (before : bool) (c : N) (rest : list N) :
  stray_byte c -> lower_cp before c rest = [c].
Proof.
  intros S. unfold lower_cp.
  destruct (stray_unmapped c) as [E Hs];
    [ unfold stray_byte, cp_limit in *; lia | ].
  now destruct (N.eqb_spec c capital_sigma).
Qed.

Lemma canonical_wf (ts : list N) :
  canonical ts -> Forall (fun c => valid_cp c \/ stray_byte c) ts.
Proof.
  induction ts as [| c rest IH]; [ constructor | ].
  intros [[V | [S _]] C]; constructor; auto.
Qed.

(** Lowering does not change the continuation bytes at the head of the
    UTF-8 form. *)
Lemma conts_lower (ts : list N) :
  Forall (fun c => valid_cp c \/ stray_byte c) ts ->
  forall n b,
    conts n (utf8_encode (lower_from b ts)) = conts n (utf8_encode ts).
Proof.
  induction 1 as [| c rest [V | S] _ IH]; intros n b; [ reflexivity | | ].
  - cbn [lower_from utf8_encode]. rewrite (conts_encode_valid c _ n V).
    destruct (lower_cp_cases b c rest) as [[-> _] | [G [Hne _]]].
    + cbn [app utf8_encode]. now apply conts_encode_valid.
    + destruct (lower_cp b c rest) as [| d out]; [ now elim Hne | ].
      cbn [app utf8_encode]. apply conts_encode_valid.
      inversion G as [| ? ? Hd _]. now apply good_out_spec in Hd.
  - cbn [lower_from utf8_encode]. rewrite (lower_cp_stray b c rest S).
    cbn [app utf8_encode]. rewrite (stray_encode c S).
    destruct n; cbn [append conts]; [ reflexivity | ].
    destruct (cont _); [ | reflexivity ]. now rewrite IH.
Qed.

Lemma utf8_head_conts (b0 : ascii) (r1 r2 : string) :
  (forall n, conts n r1 = conts n r2) -> utf8_head b0 r1 = utf8_head b0 r2.
Proof. intros H. unfold utf8_head. now rewrite !H. Qed.

Lemma canonical_app (out rest : list N) :
  Forall valid_cp out -> canonical rest -> canonical (out ++ rest).
Proof.
  induction 1 as [| d out V _ IH]; intros C; [ exact C | ].
  split; [ now left | now apply IH ].
Qed.

Lemma canonical_lower (ts : list N) :
  canonical ts -> forall b, canonical (lower_from b ts).
Proof.
  induction ts as [| c rest IH]; intros C b; [ exact I | ].
  destruct C as [Hc C]. cbn [lower_from].
  destruct Hc as [V | [S H]].
  - apply canonical_app; [ | now apply IH ].
    destruct (lower_cp_cases b c rest) as [[-> _] | [G _]].
    + now constructor.
    + eapply Forall_impl; [ | exact G ].
      intros d Hd. now apply good_out_spec in Hd.
  - rewrite (lower_cp_stray b c rest S). cbn [app].
    split; [ right; split; [ exact S | ] | now apply IH ].
    rewrite <- H. apply utf8_head_conts. intros n.
    apply conts_lower. now apply canonical_wf.
Qed.

(** [s.lower()], applied twice, is [s.lower()]. *)
Lemma lower_idem (s : string) : lower (lower s) = lower s.
Proof.
  unfold lower. rewrite decode_encode.
  - now rewrite lower_from_idem.
  - apply canonical_lower, canonical_decode_from.
Qed.

(* ------------------------------------------------------------------ *)
(** ** Separators and capital letters, on bytes and on code points     *)
(* ------------------------------------------------------------------ *)

Lemma ascii_facts (a : ascii) :
  is_sep a = sep_cp (N_of_ascii a)
  /\ is_upper a = upper_cp (N_of_ascii a)
  /\ (a =? "-")%char = (N_of_ascii a =? 0x2D)%N.
Proof.
  destruct a as [[] [] [] [] [] [] [] []]; vm_compute; repeat split.
Qed.

Lemma high_cp (c : N) :
  (0x80 <= c)%N -> sep_cp c = false /\ upper_cp c = false.
Proof. intros H. unfold sep_cp, upper_cp. now ncases. Qed.

Lemma high_byte (a : ascii) :
  (0x80 <=? N_of_ascii a)%N = true -> is_sep a = false /\ is_upper a = false.
Proof.
  intros H. apply N.leb_le in H.
  destruct (ascii_facts a) as [-> [-> _]]. now apply high_cp.
Qed.

Lemma encode_ascii (c : N) :
  (c < 0x80)%N -> utf8_encode_cp c = String (ascii_of_N c) EmptyString.
Proof. intros H. unfold utf8_encode_cp. now ncases. Qed.

Lemma encode_high (c : N) :
  (0x80 <= c)%N -> valid_cp c \/ stray_byte c ->
  exists b t, utf8_encode_cp c = String b t /\ all_high (String b t) = true.
Proof.
  unfold valid_cp, stray_byte, cp_limit. intros H W.
  unfold utf8_encode_cp, cp_limit.
  ncases; eexists; eexists; (split; [ reflexivity | ]);
    cbn [all_high]; rewrite !N_ascii_embedding by lia;
    rewrite ?andb_true_iff; repeat split; apply N.leb_le; lia.
Qed.

Lemma high_bytes_sep (t rest : string) (p : bool) :
  all_high t = true -> t <> EmptyString ->
  sep_ok_from p (t ++ rest) = sep_ok_from false rest.
Proof.
  revert p; induction t as [| b t IH]; intros p H Hne; [ now elim Hne | ].
  cbn [all_high] in H. apply andb_true_iff in H. destruct H as [Hb Ht].
  cbn [append sep_ok_from]. destruct (high_byte b Hb) as [-> _].
  destruct t as [| b' t]; [ reflexivity | ].
  apply IH; [ exact Ht | discriminate ].
Qed.

Lemma high_bytes_normal (t rest : string) (p : bool) :
  all_high t = true -> t <> EmptyString ->
  pep503_normal_from p (t ++ rest) = pep503_normal_from false rest.
Proof.
  revert p; induction t as [| b t IH]; intros p H Hne; [ now elim Hne | ].
  cbn [all_high] in H. apply andb_true_iff in H. destruct H as [Hb Ht].
  cbn [append pep503_normal_from]. destruct (high_byte b Hb) as [-> ->].
  destruct t as [| b' t]; [ reflexivity | ].
  cbn [negb andb]. apply IH; [ exact Ht | discriminate ].
Qed.

Lemma sep_ok_encode (ts : list N) :
  Forall (fun c => valid_cp c \/ stray_byte c) ts ->
  forall p, sep_ok_from p (utf8_encode ts) = sep_ok_cps p ts.
Proof.
  induction 1 as [| c rest W _ IH]; intros p; [ reflexivity | ].
  cbn [utf8_encode sep_ok_cps].
  destruct (N.ltb_spec c 0x80) as [A | A].
  - rewrite (encode_ascii c A). cbn [append sep_ok_from].
    destruct (ascii_facts (ascii_of_N c)) as [-> [_ ->]].
    rewrite N_ascii_embedding by lia. now rewrite !IH.
  - destruct (encode_high c A W) as [b [t [-> H]]].
    rewrite (high_bytes_sep _ _ _ H) by discriminate.
    destruct (high_cp c A) as [-> _]. apply IH.
Qed.

Lemma normal_encode (ts : list N) :
  Forall (fun c => valid_cp c \/ stray_byte c) ts ->
  forall p, pep503_normal_from p (utf8_encode ts) = normal_cps p ts.
Proof.
  induction 1 as [| c rest W _ IH]; intros p; [ reflexivity | ].
  cbn [utf8_encode normal_cps].
  destruct (N.ltb_spec c 0x80) as [A | A].
  - rewrite (encode_ascii c A). cbn [append pep503_normal_from].
    destruct (ascii_facts (ascii_of_N c)) as [-> [-> ->]].
    rewrite N_ascii_embedding by lia. now rewrite !IH.
  - destruct (encode_high c A W) as [b [t [-> H]]].
    rewrite (high_bytes_normal _ _ _ H) by discriminate.
    destruct (high_cp c A) as [-> ->]. apply IH.
Qed.

Lemma normal_cps_app (out rest : list N) (p : bool) :
  Forall (fun d => sep_cp d = false /\ upper_cp d = false) out ->
  out <> nil ->
  normal_cps p (out ++ rest) = normal_cps false rest.
Proof.
  revert p; induction out as [| d out IH]; intros p H Hne;
    [ now elim Hne | ].
  inversion H as [| ? ? [Hs Hu] H']; subst.
  cbn [app normal_cps]. rewrite Hs, Hu. cbn [negb andb].
  destruct out as [| d' out]; [ reflexivity | ].
  apply IH; [ exact H' | discriminate ].
Qed.

(** Lowering code points whose separators are in order gives a normal
    form. *)
Lemma normal_lower (ts : list N) :
  forall p b, sep_ok_cps p ts = true -> normal_cps p (lower_from b ts) = true.
Proof.
  destruct table_facts as [_ [_ [_ [Tu [Td _]]]]].
  induction ts as [| c rest IH]; intros p b H; [ reflexivity | ].
  cbn [sep_ok_cps] in H. cbn [lower_from].
  destruct (sep_cp c) eqn:S.
  - apply andb_true_iff in H. destruct H as [H Hr].
    apply andb_true_iff in H. destruct H as [Hc Hp].
    apply N.eqb_eq in Hc. subst c.
    replace (lower_cp b 0x2D rest) with [0x2D%N].
    + cbn [app normal_cps]. rewrite S, Hp, N.eqb_refl. cbn [andb].
      now apply IH.
    + unfold lower_cp. apply unmapped_spec in Td.
      now rewrite Td.
  - destruct (lower_cp_cases b c rest) as [[E [_ F]] | [G [Hne _]]].
    + rewrite E. cbn [app normal_cps]. rewrite S.
      destruct (upper_cp c) eqn:U.
      * apply Tu in U. unfold unmapped in U. rewrite F, N.eqb_refl in U.
        discriminate U.
      * cbn [negb andb]. now apply IH.
    + rewrite normal_cps_app; [ now apply IH | | exact Hne ].
      eapply Forall_impl; [ | exact G ].
      intros d Hd. now apply good_out_spec in Hd.
Qed.

Lemma sep_ok_re_sub (s : string) (b : bool) :
  sep_ok_from b (re_sub_seps b s) = true.
Proof.
  revert b; induction s as [| c r IH]; intros b; [ reflexivity | ].
  cbn [re_sub_seps]. destruct (is_sep c) eqn:E.
  - destruct b; [ apply IH | ].
    cbn [sep_ok_from]. replace (is_sep "-") with true by reflexivity.
    rewrite Ascii.eqb_refl. cbn [negb andb]. apply IH.
  - cbn [sep_ok_from]. rewrite E. apply IH.
Qed.

Lemma sep_ok_fixed (u : string) (b : bool) :
  sep_ok_from b u = true -> re_sub_seps b u = u.
Proof.
  revert b; induction u as [| c r IH]; intros b; [ reflexivity | ].
  cbn [sep_ok_from re_sub_seps]. destruct (is_sep c).
  - rewrite !andb_true_iff, Ascii.eqb_eq, negb_true_iff.
    intros [[-> ->] H]. now rewrite (IH true H).
  - intros H. now rewrite (IH false H).
Qed.

Lemma normal_sep_ok (u : string) (b : bool) :
  pep503_normal_from b u = true -> sep_ok_from b u = true.
Proof.
  revert b; induction u as [| c r IH]; intros b; [ reflexivity | ].
  cbn [sep_ok_from pep503_normal_from]. destruct (is_sep c).
  - rewrite !andb_true_iff. intros [[A B] H].
    repeat split; try assumption. now apply IH.
  - rewrite andb_true_iff. intros [_ H]. now apply IH.
Qed.

(** The lower case of a string whose separators are in order is in normal
    form. *)
Lemma lower_normal (t : string) (b : bool) :
  sep_ok_from b t = true -> pep503_normal_from b (lower t) = true.
Proof.
  intros H. unfold lower.
  assert (C : canonical (utf8_decode t)) by apply canonical_decode_from.
  rewrite normal_encode
    by (apply canonical_wf, canonical_lower; exact C).
  apply normal_lower.
  rewrite <- sep_ok_encode by (apply canonical_wf; exact C).
  now rewrite encode_decode.
Qed.

Lemma normalized_is_normal_from (s : string) (b : bool) :
  pep503_normal_from b (lower (re_sub_seps b s)) = true.
Proof. apply lower_normal, sep_ok_re_sub. Qed.

Lemma re_sub_seps_fixed (s : string) (b : bool) :
  re_sub_seps false (lower (re_sub_seps b s)) = lower (re_sub_seps b s).
Proof.
  apply sep_ok_fixed, normal_sep_ok, lower_normal.
  destruct b; [ | apply sep_ok_re_sub ].
  pose proof (sep_ok_re_sub s true) as H.
  destruct (re_sub_seps true s) as [| c r]; [ reflexivity | ].
  cbn [sep_ok_from] in *. destruct (is_sep c); [ | exact H ].
  rewrite !andb_true_iff in H. destruct H as [[_ H] _]. discriminate H.
Qed.

Lemma normalize_name_fixed (x : string) :
  normalize_name (normalize_name x) = normalize_name x.
Proof.
  unfold normalize_name. rewrite re_sub_seps_fixed. apply lower_idem.
Qed.

(* ------------------------------------------------------------------ *)
(** ** The empty name                                                  *)
(* ------------------------------------------------------------------ *)

Lemma encode_cp_cons (c : N) : exists b t, utf8_encode_cp c = String b t.
Proof. unfold utf8_encode_cp. ncases; eexists; eexists; reflexivity. Qed.

Lemma lower_empty (u : string) : lower u = EmptyString <-> u = EmptyString.
Proof.
  split; [ | now intros -> ].
  destruct u as [| b r]; [ reflexivity | ].
  unfold lower, utf8_decode. cbn [utf8_decode_from].
  intros H. exfalso.
  assert (Hcons : forall c rest bf,
            utf8_encode (lower_from bf (c :: rest)) <> EmptyString).
  { intros c rest bf. cbn [lower_from].
    destruct (lower_cp_cases bf c rest) as [[-> _] | [_ [Hne _]]].
    - cbn [app utf8_encode].
      destruct (encode_cp_cons c) as [b0 [t ->]]. discriminate.
    - destruct (lower_cp bf c rest) as [| d out]; [ now elim Hne | ].
      cbn [app utf8_encode].
      destruct (encode_cp_cons d) as [b0 [t ->]]. discriminate. }
  destruct (utf8_head b r) as [[c len] |]; now apply Hcons in H.
Qed.

Lemma re_sub_seps_empty (s : string) :
  re_sub_seps false s = EmptyString <-> s = EmptyString.
Proof.
  split; [ | now intros -> ].
  destruct s as [| c r]; [ reflexivity | ]. simpl.
  destruct (is_sep c); discriminate.
Qed.

(* ------------------------------------------------------------------ *)
(** ** normalize_name is idempotent                                    *)
(* ------------------------------------------------------------------ *)

(** The name of the example is U+00C9, two ['_'], U+0130, ['.'], [A],
    capital sigma, ['.'], [B]. *)
Example normalize_unicode :
  utf8_decode (normalize_name (utf8_encode [0xC9; 0x5F; 0x5F; 0x130; 0x2E;
                                            0x41; 0x3A3; 0x2E; 0x42]%N))
  = [0xE9; 0x2D; 0x69; 0x307; 0x2D; 0x61; 0x3C2; 0x2D; 0x62]%N.
Proof. vm_compute. reflexivity. Qed.

(** From here on [lia] is as it was. *)
Ltac Zify.zify_post_hook ::= idtac.

Example normalize_collapses :
  normalize_name "Foo__Bar..Baz" = "foo-bar-baz".
Proof. reflexivity. Qed.

(** C8. Package-name normalization is idempotent: for every non-empty string
    [x], [normalize_name (normalize_name x) = normalize_name x], where
    [normalize_name] replaces every run of ['-'], ['_'], ['.'] by a single
    ['-'] and lowercases the result. *)
Theorem normalize_name_idempotent (x : string) :
  x <> EmptyString ->
  normalize_name (normalize_name x) = normalize_name x.
Proof. intros _. apply normalize_name_fixed. Qed.

Lemma normalize_name_idempotent_witness :
  "Flash_Attn" <> EmptyString /\
  normalize_name (normalize_name "Flash_Attn") = normalize_name "Flash_Attn".
Proof.
  split; [ discriminate | ].
  apply (normalize_name_idempotent "Flash_Attn"). discriminate.
Defined.

(* ------------------------------------------------------------------ *)
(** ** Wheel extraction                                                *)
(* ------------------------------------------------------------------ *)

Lemma find_over_app {A : Type} (f : A -> bool) (l1 l2 : list A) :
  find f (l1 ++ l2)%list =
  match find f l1 with
  | Some x => Some x
  | None => find f l2
  end.
Proof.
  induction l1 as [| x l1 IH]; simpl; [ reflexivity | ].
  destruct (f x); [ reflexivity | exact IH ].
Qed.

Lemma extract_assets_spec (r : release) (l : list asset) (acc : list wheel) :
  match first_bad_asset l with
  | None =>
      exists new,
        extract_assets (get_default (tag_name r) "unknown") l acc
        = Returned (acc ++ new)%list
        /\ Forall2 is_wheel_of (map (pair r) (filter is_wheel_asset l)) new
  | Some a =>
      extract_assets (get_default (tag_name r) "unknown") l acc
      = Raised (KeyError (missing_key a))
  end.
Proof.
  revert acc; induction l as [| a l IH]; intros acc; simpl.
  - exists []. split; [ now rewrite app_nil_r | constructor ].
  - unfold first_bad_asset, asset_ok, missing_key, is_wheel_asset in *.
    simpl. destruct (name a) as [n |] eqn:En; simpl;
      [ | rewrite En; reflexivity ].
    destruct (endswith n ".whl") eqn:Ew.
    + destruct (browser_download_url a) as [u |] eqn:Eu; simpl.
      * specialize (IH (acc ++ [ {| filename := n; url := u;
                                   wheel_size := get_default (size a) 0%Z;
                                   tag := get_default (tag_name r) "unknown" |} ])%list).
        destruct (find _ l) as [b |]; [ exact IH | ].
        destruct IH as [new [Hrun Hrel]].
        eexists (_ :: new). split.
        -- rewrite Hrun, <- app_assoc. reflexivity.
        -- constructor; [ | exact Hrel ].
           repeat split; simpl; assumption.
      * rewrite En. reflexivity.
    + simpl. apply IH.
Qed.

Lemma extract_releases_spec (rs : list release) (acc : list wheel) :
  match first_bad_asset (all_assets rs) with
  | None =>
      exists new,
        extract_releases rs acc = Returned (acc ++ new)%list
        /\ Forall2 is_wheel_of (wheel_assets rs) new
  | Some a => extract_releases rs acc = Raised (KeyError (missing_key a))
  end.
Proof.
  revert acc; induction rs as [| r rs IH]; intros acc; simpl.
  - exists []. split; [ now rewrite app_nil_r | constructor ].
  - unfold first_bad_asset in *. rewrite find_over_app.
    pose proof (extract_assets_spec r (get_default (assets r) []) acc) as Ha.
    unfold first_bad_asset in Ha.
    destruct (find _ (get_default (assets r) [])) as [a |].
    + now rewrite Ha.
    + destruct Ha as [new1 [Hrun1 Hrel1]]. rewrite Hrun1.
      specialize (IH (acc ++ new1)%list).
      destruct (find _ (all_assets rs)) as [b |]; [ exact IH | ].
      destruct IH as [new2 [Hrun2 Hrel2]].
      exists (new1 ++ new2)%list. split.
      * rewrite Hrun2, <- app_assoc. reflexivity.
      * apply Forall2_app; assumption.
Qed.

Lemma extract_wheels_spec (rs : list release) :
  match first_bad_asset (all_assets rs) with
  | None =>
      exists ws,
        extract_wheels rs = Returned ws
        /\ Forall2 is_wheel_of (wheel_assets rs) ws
  | Some a => extract_wheels rs = Raised (KeyError (missing_key a))
  end.
Proof. exact (extract_releases_spec rs []). Qed.

Lemma Forall2_map_eq {A B C : Type} (R : A -> B -> Prop)
    (f : A -> C) (g : B -> C) (l1 : list A) (l2 : list B) :
  (forall a b, R a b -> f a = g b) ->
  Forall2 R l1 l2 -> map f l1 = map g l2.
Proof.
  intros HR H; induction H as [| a b l1 l2 Hab _ IH]; simpl;
    [ reflexivity | ].
  now rewrite (HR _ _ Hab), IH.
Qed.

Lemma wheel_asset_names (rs : list release) :
  map (fun ra => name (snd ra)) (wheel_assets rs)
  = map Some (filter (fun n => endswith n ".whl") (asset_names rs)).
Proof.
  unfold wheel_assets, asset_names, all_assets.
  induction rs as [| r rs IH]; simpl; [ reflexivity | ].
  rewrite flat_map_app, filter_app, !map_app, IH. f_equal.
  clear IH. induction (get_default (assets r) []) as [| a l IHl]; simpl;
    [ reflexivity | ].
  unfold is_wheel_asset at 1.
  destruct (name a) as [n |] eqn:En; simpl; [ | exact IHl ].
  destruct (endswith n ".whl"); simpl; [ | exact IHl ].
  now rewrite En, IHl.
Qed.

Lemma map_Some_inj {A : Type} (l1 l2 : list A) :
  map Some l1 = map Some l2 -> l1 = l2.
Proof.
  revert l2; induction l1 as [| x l1 IH]; intros [| y l2] H; simpl in H;
    try discriminate; [ reflexivity | ].
  injection H as Hx Hl. subst. f_equal. now apply IH.
Qed.

Lemma extracted_filenames (rs : list release) (ws : list wheel) :
  Forall2 is_wheel_of (wheel_assets rs) ws ->
  map filename ws = filter (fun n => endswith n ".whl") (asset_names rs).
Proof.
  intros H. apply map_Some_inj. rewrite <- wheel_asset_names.
  rewrite map_map. symmetry.
  apply (Forall2_map_eq is_wheel_of); [ | exact H ].
  intros ra w Hw. apply Hw.
Qed.

Lemma extract_wheels_returned (rs : list release) (ws : list wheel) :
  extract_wheels rs = Returned ws ->
  Forall2 is_wheel_of (wheel_assets rs) ws.
Proof.
  intros H. pose proof (extract_wheels_spec rs) as S.
  destruct (first_bad_asset (all_assets rs)).
  - rewrite H in S. discriminate.
  - destruct S as [ws' [Hrun Hrel]]. rewrite H in Hrun.
    injection Hrun as <-. exact Hrel.
Qed.

(** C4. For every release list, wheel extraction keeps exactly the assets
    whose name ends in [.whl], compared case-sensitively: the records
    returned are, in order, those of the wheel assets, and their file names
    are the asset names that end in [.whl].  A release with the assets
    [a.whl], [a.tar.gz] and [b.WHL] yields exactly one record, for
    [a.whl]. *)
Theorem extract_wheels_keeps_whl :
  (forall releases wheels,
      extract_wheels releases = Returned wheels ->
      Forall2 is_wheel_of (wheel_assets releases) wheels
      /\ map filename wheels
         = filter (fun n => endswith n ".whl") (asset_names releases))
  /\ (forall t u1 s1 u2 s2 u3 s3,
         extract_wheels
           [ {| tag_name := t;
                assets := Some
                  [ {| name := Some "a.whl";
                       browser_download_url := Some u1; size := s1 |};
                    {| name := Some "a.tar.gz";
                       browser_download_url := u2; size := s2 |};
                    {| name := Some "b.WHL";
                       browser_download_url := u3; size := s3 |} ] |} ]
         = Returned
             [ {| filename := "a.whl"; url := u1;
                  wheel_size := get_default s1 0%Z;
                  tag := get_default t "unknown" |} ]).
Proof.
  split.
  - intros rs ws H. apply extract_wheels_returned in H.
    split; [ exact H | now apply extracted_filenames ].
  - intros. reflexivity.
Qed.

Lemma extract_wheels_keeps_whl_witness :
  extract_wheels [sample_release; text_only_release]
  = Returned [ {| filename := "flash_attn-1.0-cp310-linux_x86_64.whl";
                  url := sample_wheel_url;
                  wheel_size := 100%Z; tag := "v1.0" |} ]
  /\ map filename [ {| filename := "flash_attn-1.0-cp310-linux_x86_64.whl";
                       url := sample_wheel_url;
                       wheel_size := 100%Z; tag := "v1.0" |} ]
     = filter (fun n => endswith n ".whl")
              (asset_names [sample_release; text_only_release]).
Proof.
  split; [ reflexivity | ].
  apply (proj1 extract_wheels_keeps_whl
               [sample_release; text_only_release]).
  reflexivity.
Defined.

(** C9 does not hold as stated: an asset without a download URL whose name
    does not end in [.whl] is skipped, and extraction returns. *)
Lemma extract_skips_nonwheel_without_url :
  browser_download_url readme_without_url = None
  /\ extract_wheels
       [ {| tag_name := Some "v1.0";
            assets := Some [readme_without_url] |} ]
     = Returned [].
Proof. split; reflexivity. Qed.

(** C9, amended. Wheel extraction returns exactly when every asset has a
    ["name"] key and every asset whose name ends in [.whl] also has a
    ["browser_download_url"] key; then an absent ["size"] or ["tag_name"] is
    defaulted (to 0 and ["unknown"]).  Otherwise it raises a [KeyError] at
    the first asset that breaks the condition: for ["name"] when that key is
    absent, for ["browser_download_url"] otherwise.  An asset without URL
    whose name does not end in [.whl] is skipped without error. *)
Theorem extract_wheels_total_iff_assets_ok (releases : list release) :
  (forall a,
      asset_ok a = true <->
      exists n, name a = Some n
                /\ (endswith n ".whl" = true ->
                    browser_download_url a <> None))
  /\ match find (fun a => negb (asset_ok a)) (all_assets releases) with
     | None =>
         forallb asset_ok (all_assets releases) = true
         /\ exists wheels,
              extract_wheels releases = Returned wheels
              /\ Forall2 is_wheel_of (wheel_assets releases) wheels
     | Some a =>
         In a (all_assets releases)
         /\ asset_ok a = false
         /\ extract_wheels releases = Raised (KeyError (missing_key a))
         /\ (name a = None -> missing_key a = "name")
         /\ (name a <> None -> missing_key a = "browser_download_url")
     end.
Proof.
  split.
  - intros a. unfold asset_ok. destruct (name a) as [n |].
    + destruct (endswith n ".whl") eqn:E.
      * destruct (browser_download_url a); split.
        -- intros _. exists n. split; [ reflexivity | discriminate ].
        -- reflexivity.
        -- discriminate.
        -- intros [m [Hm Hu]]. injection Hm as <-. now elim Hu.
      * split; [ | reflexivity ].
        intros _. exists n. split; [ reflexivity | ].
        intros H. congruence.
    + split; [ discriminate | ]. intros [n [Hn _]]. discriminate.
  - pose proof (extract_wheels_spec releases) as S.
    unfold first_bad_asset in S.
    destruct (find _ (all_assets releases)) as [a |] eqn:F.
    + apply find_some in F. destruct F as [Hin Hbad].
      apply negb_true_iff in Hbad.
      repeat split; try assumption; unfold missing_key.
      * intros ->. reflexivity.
      * destruct (name a); [ reflexivity | congruence ].
    + split; [ | exact S ].
      apply forallb_forall. intros a Ha.
      apply (find_none _ _ F) in Ha. now apply negb_false_iff in Ha.
Qed.

Lemma extract_wheels_total_iff_assets_ok_witness :
  (exists wheels,
     extract_wheels [sample_release; text_only_release] = Returned wheels)
  /\ extract_wheels
       [ {| tag_name := None;
            assets := Some
              [ readme_without_url;
                {| name := Some "x.whl"; browser_download_url := None;
                   size := Some 7%Z |} ] |} ]
     = Raised (KeyError "browser_download_url").
Proof.
  split.
  - destruct (proj2 (extract_wheels_total_iff_assets_ok
                       [sample_release; text_only_release]))
      as [_ [wheels [H _]]].
    exists wheels. exact H.
  - exact (proj1 (proj2 (proj2 (proj2 (extract_wheels_total_iff_assets_ok
       [ {| tag_name := None;
            assets := Some
              [ readme_without_url;
                {| name := Some "x.whl"; browser_download_url := None;
                   size := Some 7%Z |} ] |} ]))))).
Defined.

(* ------------------------------------------------------------------ *)
(** ** Grouping                                                        *)
(* ------------------------------------------------------------------ *)

Lemma split_cons (sep : ascii) (s : string) :
  exists p ps, split sep s = p :: ps.
Proof.
  induction s as [| c r [p [ps IH]]]; simpl; [ now eexists; eexists | ].
  destruct (c =? sep)%char; [ now eexists; eexists | ].
  rewrite IH. now eexists; eexists.
Qed.

Lemma split_without_sep (sep : ascii) (s : string) :
  contains_char sep s = false -> split sep s = [s].
Proof.
  induction s as [| c r IH]; simpl; [ reflexivity | ].
  destruct (c =? sep)%char; simpl; [ discriminate | ].
  intros H. now rewrite (IH H).
Qed.

Lemma name_part_returns (w : wheel) :
  name_part w = Returned (hd EmptyString (split "-" (filename w))).
Proof.
  unfold name_part.
  destruct (split_cons "-" (filename w)) as [p [ps E]]. now rewrite E.
Qed.

Lemma group_step (k : string) (w : wheel) (d : dict) :
  exists l,
    dict_getitem k (if dict_contains k d then d else dict_setitem k [] d)
    = Returned l
    /\ dict_setitem k (l ++ [w])%list
         (if dict_contains k d then d else dict_setitem k [] d)
       = add_wheel k w d.
Proof.
  induction d as [| [k' g] r [l [Hget Hset]]]; simpl.
  - exists []. simpl. rewrite !String.eqb_refl. now split.
  - destruct (k' =? k) eqn:E; simpl.
    + exists g. rewrite !E. now split.
    + exists l. destruct (dict_contains k r); simpl; rewrite !E;
        rewrite Hget, Hset; now split.
Qed.

Lemma group_loop_fold (ws : list wheel) (d : dict) :
  group_loop ws d
  = Returned (fold_left (fun d w => add_wheel (key_of w) w d) ws d).
Proof.
  revert d; induction ws as [| w ws IH]; intros d; simpl; [ reflexivity | ].
  rewrite name_part_returns.
  destruct (group_step (key_of w) w d) as [l [Hget Hset]].
  unfold key_of in *. rewrite Hget, Hset. apply IH.
Qed.

Lemma dict_contains_keys (k : string) (d : dict) :
  dict_contains k d = true <-> In k (dict_keys d).
Proof.
  induction d as [| [k' g] r IH]; simpl; [ split; [ discriminate | tauto ] | ].
  rewrite orb_true_iff, IH, String.eqb_eq. tauto.
Qed.

Lemma add_wheel_keys (k : string) (w : wheel) (d : dict) :
  dict_keys (add_wheel k w d)
  = if dict_contains k d then dict_keys d else (dict_keys d ++ [k])%list.
Proof.
  induction d as [| [k' g] r IH]; simpl; [ reflexivity | ].
  destruct (k' =? k) eqn:E; simpl; [ reflexivity | ].
  rewrite IH. now destruct (dict_contains k r).
Qed.

Lemma add_wheel_NoDup (k : string) (w : wheel) (d : dict) :
  NoDup (dict_keys d) -> NoDup (dict_keys (add_wheel k w d)).
Proof.
  intros H. rewrite add_wheel_keys.
  destruct (dict_contains k d) eqn:E; [ exact H | ].
  apply NoDup_app; [ exact H | | ].
  - constructor; [ intros [] | constructor ].
  - intros x Hx [<- | []].
    apply dict_contains_keys in Hx. congruence.
Qed.

Lemma add_wheel_getitem (k k' : string) (w : wheel) (d : dict) :
  dict_getitem k' (add_wheel k w d)
  = if k' =? k
    then Returned (match dict_getitem k d with
                   | Returned g => (g ++ [w])%list
                   | Raised _ => [w]
                   end)
    else dict_getitem k' d.
Proof.
  induction d as [| [k0 g] r IH]; simpl.
  - rewrite (String.eqb_sym k k'). now destruct (k' =? k).
  - destruct (k0 =? k) eqn:E0; simpl.
    + apply String.eqb_eq in E0. subst k0.
      rewrite (String.eqb_sym k k'). now destruct (k' =? k).
    + destruct (k0 =? k') eqn:E1; [ | exact IH ].
      apply String.eqb_eq in E1. subst k0.
      now rewrite E0.
Qed.

Lemma add_wheel_total (k : string) (w : wheel) (d : dict) :
  total_wheels (add_wheel k w d) = S (total_wheels d).
Proof.
  unfold total_wheels.
  induction d as [| [k' g] r IH]; simpl; [ reflexivity | ].
  destruct (k' =? k); simpl.
  - rewrite length_app. simpl. lia.
  - rewrite IH. lia.
Qed.

Lemma getitem_In (k : string) (g : list wheel) (d : dict) :
  dict_getitem k d = Returned g -> In (k, g) d.
Proof.
  induction d as [| [k' g'] r IH]; simpl; [ discriminate | ].
  destruct (k' =? k) eqn:E.
  - apply String.eqb_eq in E. intros H. injection H as <-. subst. now left.
  - intros H. right. now apply IH.
Qed.

Lemma In_getitem (k : string) (g : list wheel) (d : dict) :
  NoDup (dict_keys d) -> In (k, g) d -> dict_getitem k d = Returned g.
Proof.
  induction d as [| [k' g'] r IH]; simpl; [ tauto | ].
  intros Hnd [Heq | Hin].
  - injection Heq as -> ->. now rewrite String.eqb_refl.
  - inversion Hnd as [| ? ? Hnotin Hnd']; subst.
    destruct (k' =? k) eqn:E.
    + apply String.eqb_eq in E. subst k'. elim Hnotin.
      apply (in_map fst) in Hin. exact Hin.
    + now apply IH.
Qed.

Lemma grouped_snoc (ws : list wheel) (w : wheel) :
  grouped (ws ++ [w]) = add_wheel (key_of w) w (grouped ws).
Proof. unfold grouped. now rewrite fold_left_app. Qed.

Lemma grouped_NoDup (ws : list wheel) : NoDup (dict_keys (grouped ws)).
Proof.
  induction ws as [| w ws IH] using rev_ind; [ constructor | ].
  rewrite grouped_snoc. now apply add_wheel_NoDup.
Qed.

Lemma grouped_total (ws : list wheel) :
  total_wheels (grouped ws) = List.length ws.
Proof.
  induction ws as [| w ws IH] using rev_ind; [ reflexivity | ].
  rewrite grouped_snoc, add_wheel_total, IH, length_app. simpl. lia.
Qed.

Lemma grouped_getitem (ws : list wheel) (k : string) :
  dict_getitem k (grouped ws)
  = match group_of k ws with
    | [] => Raised (KeyError k)
    | _ :: _ => Returned (group_of k ws)
    end.
Proof.
  induction ws as [| w ws IH] using rev_ind; [ reflexivity | ].
  rewrite grouped_snoc, add_wheel_getitem.
  unfold group_of in *. rewrite filter_app. simpl.
  rewrite (String.eqb_sym k (key_of w)).
  destruct (key_of w =? k) eqn:E.
  - apply String.eqb_eq in E. subst k. rewrite IH.
    now destruct (filter _ ws).
  - rewrite app_nil_r. exact IH.
Qed.

Lemma group_packages_grouped (ws : list wheel) :
  group_packages ws = Returned (grouped ws).
Proof. apply group_loop_fold. Qed.

Lemma grouped_entry (ws : list wheel) (k : string) (g : list wheel) :
  In (k, g) (grouped ws) <-> g = group_of k ws /\ g <> [].
Proof.
  pose proof (grouped_getitem ws k) as G. split.
  - intros H. apply In_getitem in H; [ | apply grouped_NoDup ].
    rewrite H in G. destruct (group_of k ws) eqn:E; [ discriminate | ].
    injection G as ->. split; [ reflexivity | discriminate ].
  - intros [-> Hne]. apply getitem_In.
    destruct (group_of k ws); [ now elim Hne | exact G ].
Qed.

Lemma grouped_files_wheel (ws : list wheel) (w : wheel) :
  In w ws ->
  In (key_of w, group_of (key_of w) ws) (grouped ws)
  /\ In w (group_of (key_of w) ws).
Proof.
  intros Hin.
  assert (Hw : In w (group_of (key_of w) ws)).
  { apply filter_In. split; [ exact Hin | apply String.eqb_refl ]. }
  split; [ | exact Hw ].
  apply grouped_entry. split; [ reflexivity | ].
  intros E. rewrite E in Hw. exact Hw.
Qed.

(** C2 does not hold as stated: for [foo.whl], which has no hyphen, the name
    taken is the whole file name [foo.whl], suffix included, not its stem
    [foo]; the wheel is filed under [foo-whl]. *)
Lemma name_part_keeps_suffix :
  contains_char "-" (filename hyphenless_wheel) = false
  /\ stem (filename hyphenless_wheel) = "foo"
  /\ name_part hyphenless_wheel = Returned "foo.whl"
  /\ name_part hyphenless_wheel
     <> Returned (stem (filename hyphenless_wheel))
  /\ group_packages [hyphenless_wheel]
     = Returned [("foo-whl", [hyphenless_wheel])].
Proof. repeat split; try reflexivity. discriminate. Qed.

(** C2, amended. For every wheel file name that contains no ['-'], the
    grouper takes the whole file name, its [.whl] suffix included, as the
    package name before normalization, and files the wheel under the
    normalization of that name; it validates nothing: the name is always
    found and grouping returns for every list of wheels. *)
Theorem no_hyphen_name_is_whole_filename :
  (forall w,
      contains_char "-" (filename w) = false ->
      name_part w = Returned (filename w)
      /\ key_of w = normalize_name (filename w)
      /\ forall wheels,
           In w wheels ->
           exists packages g,
             group_packages wheels = Returned packages
             /\ In (normalize_name (filename w), g) packages
             /\ In w g)
  /\ (forall w, exists part, name_part w = Returned part)
  /\ (forall wheels, exists packages,
         group_packages wheels = Returned packages).
Proof.
  split; [ | split ].
  - intros w H.
    assert (K : key_of w = normalize_name (filename w)).
    { unfold key_of. now rewrite (split_without_sep _ _ H). }
    split; [ | split; [ exact K | ] ].
    + unfold name_part. now rewrite (split_without_sep _ _ H).
    + intros ws Hin. rewrite <- K.
      exists (grouped ws), (group_of (key_of w) ws).
      split; [ apply group_packages_grouped | ].
      now apply grouped_files_wheel.
  - intros w. eexists. apply name_part_returns.
  - intros ws. eexists. apply group_packages_grouped.
Qed.

Lemma no_hyphen_name_is_whole_filename_witness :
  contains_char "-" (filename hyphenless_wheel) = false
  /\ name_part hyphenless_wheel = Returned "foo.whl"
  /\ key_of hyphenless_wheel = "foo-whl".
Proof.
  split; [ reflexivity | ].
  destruct (proj1 no_hyphen_name_is_whole_filename hyphenless_wheel)
    as [Hname [Hkey _]]; [ reflexivity | ].
  split; [ exact Hname | exact Hkey ].
Defined.

(** C10. Grouping partitions the extracted wheel list: it returns for every
    list of wheels; the keys of the result are distinct; the list of each
    key is the sub-list of the input wheels of that key, in input order, and
    is not empty; every input wheel is in the list of its key and in the
    list of no other key; and the lengths of the lists add up to the length
    of the input. *)
Theorem grouping_partitions (wheels : list wheel) :
  exists packages,
    group_packages wheels = Returned packages
    /\ NoDup (dict_keys packages)
    /\ (forall k g, In (k, g) packages ->
                    g = filter (fun w => key_of w =? k) wheels /\ g <> [])
    /\ (forall w, In w wheels ->
                  exists g, In (key_of w, g) packages /\ In w g)
    /\ (forall w k g, In (k, g) packages -> In w g -> k = key_of w)
    /\ total_wheels packages = List.length wheels.
Proof.
  exists (grouped wheels).
  split; [ apply group_packages_grouped | ].
  split; [ apply grouped_NoDup | ].
  split; [ intros k g H; now apply grouped_entry | ].
  split.
  { intros w Hin. exists (group_of (key_of w) wheels).
    now apply grouped_files_wheel. }
  split.
  { intros w k g H Hw. apply grouped_entry in H. destruct H as [-> _].
    apply filter_In in Hw. destruct Hw as [_ E].
    apply String.eqb_eq in E. now symmetry. }
  apply grouped_total.
Qed.

Lemma grouping_partitions_witness :
  exists packages,
    group_packages [wheel_a1; wheel_b1; wheel_a2] = Returned packages
    /\ NoDup (dict_keys packages)
    /\ (exists g, In (key_of wheel_a2, g) packages /\ In wheel_a2 g)
    /\ total_wheels packages = 3.
Proof.
  destruct (grouping_partitions [wheel_a1; wheel_b1; wheel_a2])
    as (packages & Hrun & Hnd & _ & Hin & _ & Htotal).
  exists packages. split; [ exact Hrun | ]. split; [ exact Hnd | ].
  split; [ | exact Htotal ].
  apply Hin. right. right. left. reflexivity.
Defined.

Example grouping_sample :
  group_packages [wheel_a1; wheel_b1; wheel_a2]
  = Returned [ ("flash-attn", [wheel_a1; wheel_a2]);
               ("torch-ext", [wheel_b1]) ].
Proof. reflexivity. Qed.

(* ------------------------------------------------------------------ *)
(** ** Sorting                                                         *)
(* ------------------------------------------------------------------ *)

Lemma string_compare_refl (s : string) : (s ?= s) = Eq.
Proof.
  induction s as [| c r IH]; simpl; [ reflexivity | ].
  unfold Ascii.compare. now rewrite N.compare_refl.
Qed.

Lemma string_compare_lt_trans (a b c : string) :
  (a ?= b) = Lt -> (b ?= c) = Lt -> (a ?= c) = Lt.
Proof.
  revert b c; induction a as [| x a IH]; intros [| y b] [| z c]; simpl;
    try discriminate; try reflexivity.
  unfold Ascii.compare.
  destruct (N.compare_spec (N_of_ascii x) (N_of_ascii y)) as [Exy | Lxy | Gxy];
    try discriminate;
    destruct (N.compare_spec (N_of_ascii y) (N_of_ascii z)) as [Eyz | Lyz | Gyz];
    try discriminate; intros H1 H2.
  - rewrite Exy, Eyz, N.compare_refl. now apply (IH b).
  - rewrite Exy. now apply N.compare_lt_iff in Lyz as ->.
  - rewrite <- Eyz. now apply N.compare_lt_iff in Lxy as ->.
  - assert (L : (N_of_ascii x < N_of_ascii z)%N) by lia.
    now apply N.compare_lt_iff in L as ->.
Qed.

Lemma string_leb_trans (a b c : string) :
  (a <=? b) = true -> (b <=? c) = true -> (a <=? c) = true.
Proof.
  unfold String.leb.
  destruct (a ?= b) eqn:Eab; try discriminate;
    destruct (b ?= c) eqn:Ebc; try discriminate; intros _ _.
  - apply String.compare_eq_iff in Eab. subst. now rewrite Ebc.
  - apply String.compare_eq_iff in Eab. subst. now rewrite Ebc.
  - apply String.compare_eq_iff in Ebc. subst. now rewrite Eab.
  - now rewrite (string_compare_lt_trans _ _ _ Eab Ebc).
Qed.

Lemma string_leb_false (a b : string) :
  (a <=? b) = false -> (b <=? a) = true.
Proof.
  intros H. destruct (String.leb_total a b) as [T | T]; congruence.
Qed.

Section SortedFacts.
Context {A : Type} (key : A -> string).

Lemma insert_by_perm (x : A) (l : list A) :
  Permutation (insert_by key x l) (x :: l).
Proof.
  induction l as [| y l IH]; simpl; [ apply Permutation_refl | ].
  destruct (key x <=? key y); [ apply Permutation_refl | ].
  eapply perm_trans; [ apply perm_skip, IH | apply perm_swap ].
Qed.

Lemma sorted_by_perm (l : list A) : Permutation (sorted_by key l) l.
Proof.
  induction l as [| x l IH]; simpl; [ constructor | ].
  eapply perm_trans; [ apply insert_by_perm | now apply perm_skip ].
Qed.

Lemma insert_by_ascending (x : A) (l : list A) :
  ascending key l -> ascending key (insert_by key x l).
Proof.
  unfold ascending.
  induction l as [| y l IH]; simpl; intros H.
  - constructor; constructor.
  - apply StronglySorted_inv in H. destruct H as [Hl Hy].
    destruct (key x <=? key y) eqn:E.
    + constructor; [ now constructor | ].
      constructor; [ exact E | ].
      eapply Forall_impl; [ | exact Hy ].
      intros z Hz. now apply (string_leb_trans _ (key y)).
    + constructor; [ now apply IH | ].
      apply (Permutation_Forall (Permutation_sym (insert_by_perm x l))).
      constructor; [ now apply string_leb_false | exact Hy ].
Qed.

Lemma sorted_by_ascending (l : list A) : ascending key (sorted_by key l).
Proof.
  induction l as [| x l IH]; simpl; [ constructor | ].
  now apply insert_by_ascending.
Qed.

(** Two ascending lists with the same elements are equal, when elements of
    equal key are equal. *)
Lemma ascending_unique (l1 l2 : list A) :
  (forall a b, In a l1 -> In b l1 -> key a = key b -> a = b) ->
  ascending key l1 -> ascending key l2 -> Permutation l1 l2 -> l1 = l2.
Proof.
  unfold ascending. revert l2.
  induction l1 as [| a l1 IH]; intros l2 Hinj S1 S2 P.
  - apply Permutation_nil in P. now subst.
  - destruct l2 as [| b l2].
    { apply Permutation_sym, Permutation_nil in P. discriminate. }
    apply StronglySorted_inv in S1. destruct S1 as [S1 F1].
    apply StronglySorted_inv in S2. destruct S2 as [S2 F2].
    assert (Hab : a = b).
    { assert (Ia : In a (b :: l2))
        by (eapply Permutation_in; [ exact P | now left ]).
      assert (Ib : In b (a :: l1))
        by (eapply Permutation_in;
            [ apply Permutation_sym; exact P | now left ]).
      destruct Ia as [-> | Ia]; [ reflexivity | ].
      destruct Ib as [-> | Ib]; [ reflexivity | ].
      apply Hinj; [ now left | now right | ].
      apply String.leb_antisym.
      - rewrite Forall_forall in F1. now apply F1.
      - rewrite Forall_forall in F2. now apply F2. }
    subst b. f_equal.
    apply IH; try assumption.
    + intros x y Hx Hy. apply Hinj; now right.
    + now apply Permutation_cons_inv in P.
Qed.

Lemma sorted_by_order_free (l1 l2 : list A) :
  (forall a b, In a l1 -> In b l1 -> key a = key b -> a = b) ->
  Permutation l1 l2 -> sorted_by key l1 = sorted_by key l2.
Proof.
  intros Hinj P. apply ascending_unique.
  - intros a b Ha Hb. apply Hinj;
      eapply Permutation_in; try eassumption; apply sorted_by_perm.
  - apply sorted_by_ascending.
  - apply sorted_by_ascending.
  - eapply perm_trans; [ apply sorted_by_perm | ].
    eapply perm_trans; [ exact P | ].
    apply Permutation_sym, sorted_by_perm.
Qed.

Lemma map_insert_by (x : A) (l : list A) :
  map key (insert_by key x l)
  = insert_by (fun s => s) (key x) (map key l).
Proof.
  induction l as [| y l IH]; simpl; [ reflexivity | ].
  destruct (key x <=? key y); simpl; [ reflexivity | now rewrite IH ].
Qed.

Lemma map_sorted_by (l : list A) :
  map key (sorted_by key l) = sorted (map key l).
Proof.
  unfold sorted. induction l as [| x l IH]; simpl; [ reflexivity | ].
  now rewrite map_insert_by, IH.
Qed.

Lemma NoDup_keys_inj (l : list A) :
  NoDup (map key l) ->
  forall a b, In a l -> In b l -> key a = key b -> a = b.
Proof.
  induction l as [| x l IH]; simpl; intros Hnd a b Ha Hb E; [ tauto | ].
  inversion Hnd as [| ? ? Hx Hl]; subst.
  destruct Ha as [-> | Ha], Hb as [-> | Hb]; try reflexivity.
  - elim Hx. rewrite E. now apply in_map.
  - elim Hx. rewrite <- E. now apply in_map.
  - now apply IH.
Qed.

End SortedFacts.

Lemma sorted_order_free (l1 l2 : list string) :
  Permutation l1 l2 -> sorted l1 = sorted l2.
Proof. apply sorted_by_order_free. intros a b _ _ E. exact E. Qed.

Lemma ascending_map {A : Type} (key : A -> string) (l : list A) :
  ascending key l -> ascending (fun s => s) (map key l).
Proof.
  unfold ascending. induction 1 as [| a l Hl IH Ha]; simpl; constructor.
  - exact IH.
  - now apply Forall_map.
Qed.

(* ------------------------------------------------------------------ *)
(** ** Substrings                                                      *)
(* ------------------------------------------------------------------ *)

Lemma append_assoc (a b c : string) : (a ++ b) ++ c = a ++ b ++ c.
Proof. induction a as [| x a IH]; simpl; [ reflexivity | now rewrite IH ]. Qed.

Lemma occurs_in_refl (s : string) : occurs_in s s.
Proof.
  exists EmptyString, EmptyString. simpl.
  induction s as [| c r IH]; simpl; [ reflexivity | now rewrite <- IH ].
Qed.

Lemma occurs_in_left (sub s t : string) :
  occurs_in sub s -> occurs_in sub (s ++ t).
Proof.
  intros [pre [post ->]]. exists pre, (post ++ t).
  now rewrite !append_assoc.
Qed.

Lemma occurs_in_right (sub s t : string) :
  occurs_in sub t -> occurs_in sub (s ++ t).
Proof.
  intros [pre [post ->]]. exists (s ++ pre), post.
  now rewrite !append_assoc.
Qed.

Lemma occurs_in_join (sub sep : string) (parts : list string) (p : string) :
  In p parts -> occurs_in sub p -> occurs_in sub (join sep parts).
Proof.
  induction parts as [| q parts IH]; simpl; [ tauto | ].
  intros [-> | Hin] Hp.
  - destruct parts; [ exact Hp | now apply occurs_in_left ].
  - destruct parts as [| q' parts]; [ destruct Hin | ].
    apply occurs_in_right, occurs_in_right. now apply IH.
Qed.

(* ------------------------------------------------------------------ *)
(** ** The index pages                                                 *)
(* ------------------------------------------------------------------ *)

Lemma grouped_keys (ws : list wheel) (k : string) :
  In k (dict_keys (grouped ws)) <-> exists w, In w ws /\ key_of w = k.
Proof.
  split.
  - intros H. apply in_map_iff in H. destruct H as [[k' g] [<- Hin]].
    simpl. apply grouped_entry in Hin. destruct Hin as [-> Hne].
    destruct (group_of k' ws) as [| w g] eqn:E; [ now elim Hne | ].
    assert (Hw : In w (group_of k' ws)) by (rewrite E; now left).
    apply filter_In in Hw. destruct Hw as [Hin Hk].
    exists w. split; [ exact Hin | now apply String.eqb_eq ].
  - intros [w [Hin <-]].
    apply (in_map fst) with (x := (key_of w, group_of (key_of w) ws)).
    now apply grouped_files_wheel.
Qed.

Lemma meta_tag_in_root_prefix : occurs_in meta_tag root_prefix.
Proof.
  unfold root_prefix. apply occurs_in_right, occurs_in_left, occurs_in_refl.
Qed.

Lemma meta_tag_in_package_prefix (n : string) :
  occurs_in meta_tag (package_prefix n).
Proof.
  unfold package_prefix.
  apply occurs_in_right, occurs_in_left, occurs_in_refl.
Qed.

(** C5. The root index is the fixed head, one anchor line per package name
    and the fixed tail.  The anchor of a name links to the name followed by
    ["/"]; the anchors are those of the given names, in ascending order,
    whatever the order of the input; for the keys of the grouping, which are
    the distinct normalized names of the wheels, there is exactly one anchor
    per name; and the document contains the tag
    [<meta name="pypi:repository-version" content="1.0">]. *)
Theorem root_index_anchors (packages : list string) :
  generate_root_index packages
  = root_prefix ++ join nl (map root_anchor (sorted packages)) ++ html_suffix
  /\ (forall pkg,
        root_anchor pkg
        = "    <a href=" ++ dq ++ (pkg ++ "/") ++ dq ++ ">" ++ pkg
          ++ "</a><br/>")
  /\ Permutation (sorted packages) packages
  /\ List.length (map root_anchor (sorted packages)) = List.length packages
  /\ (NoDup packages -> NoDup (sorted packages))
  /\ ascending (fun s => s) (sorted packages)
  /\ (forall packages',
        Permutation packages packages' ->
        generate_root_index packages' = generate_root_index packages)
  /\ (forall pkg,
        In pkg packages ->
        occurs_in (root_anchor pkg) (generate_root_index packages))
  /\ meta_tag
     = "<meta name=" ++ dq ++ "pypi:repository-version" ++ dq
       ++ " content=" ++ dq ++ "1.0" ++ dq ++ ">"
  /\ occurs_in meta_tag (generate_root_index packages)
  /\ (forall wheels grouping,
        group_packages wheels = Returned grouping ->
        NoDup (dict_keys grouping)
        /\ forall k, In k (dict_keys grouping)
                     <-> exists w, In w wheels /\ key_of w = k).
Proof.
  assert (P : Permutation (sorted packages) packages)
    by apply sorted_by_perm.
  repeat match goal with |- _ /\ _ => split end.
  - reflexivity.
  - intros pkg. unfold root_anchor. now rewrite !append_assoc.
  - exact P.
  - rewrite length_map. now apply Permutation_length.
  - intros H. eapply Permutation_NoDup; [ apply Permutation_sym, P | exact H ].
  - apply sorted_by_ascending.
  - intros packages' H. unfold generate_root_index.
    now rewrite (sorted_order_free _ _ H).
  - intros pkg Hin. unfold generate_root_index.
    apply occurs_in_right, occurs_in_left.
    apply occurs_in_join with (p := root_anchor pkg);
      [ | apply occurs_in_refl ].
    apply in_map. eapply Permutation_in; [ apply Permutation_sym, P | exact Hin ].
  - reflexivity.
  - unfold generate_root_index. apply occurs_in_left, meta_tag_in_root_prefix.
  - intros ws d H. rewrite group_packages_grouped in H. injection H as <-.
    split; [ apply grouped_NoDup | apply grouped_keys ].
Qed.

Lemma root_index_anchors_witness :
  Permutation ["torch-ext"; "flash-attn"] ["flash-attn"; "torch-ext"]
  /\ generate_root_index ["flash-attn"; "torch-ext"]
     = generate_root_index ["torch-ext"; "flash-attn"]
  /\ sorted ["torch-ext"; "flash-attn"] = ["flash-attn"; "torch-ext"]
  /\ NoDup (sorted ["torch-ext"; "flash-attn"]).
Proof.
  destruct (root_index_anchors ["torch-ext"; "flash-attn"])
    as (_ & _ & _ & _ & Hnd & _ & Hperm & _).
  split; [ apply perm_swap | ].
  split; [ apply Hperm, perm_swap | ].
  split; [ reflexivity | ].
  apply Hnd. constructor.
  - intros [H | []]. discriminate H.
  - constructor; [ intros [] | constructor ].
Defined.

(** C6. A package index is the head for the package, one anchor line per
    wheel and the fixed tail.  The anchors are those of the given wheels,
    each once, in ascending order of file name whatever the order of the
    input; the [href] of an anchor is the URL of the wheel followed by the
    empty fragment [#sha256=], its text is the file name, and it carries
    [data-dist-info-metadata="false"]. *)
Theorem package_index_anchors (package_name : string) (wheels : list wheel) :
  generate_package_index package_name wheels
  = package_prefix package_name
    ++ join nl (map package_anchor (sorted_by filename wheels))
    ++ html_suffix
  /\ (forall w,
        package_anchor w
        = "    <a href=" ++ dq ++ (url w ++ "#sha256=") ++ dq
          ++ " data-dist-info-metadata=" ++ dq ++ "false" ++ dq ++ ">"
          ++ filename w ++ "</a><br/>")
  /\ Permutation (sorted_by filename wheels) wheels
  /\ List.length (map package_anchor (sorted_by filename wheels))
     = List.length wheels
  /\ ascending filename (sorted_by filename wheels)
  /\ (forall wheels',
        Permutation wheels wheels' ->
        map filename (sorted_by filename wheels')
        = map filename (sorted_by filename wheels))
  /\ (forall wheels',
        Permutation wheels wheels' ->
        NoDup (map filename wheels) ->
        generate_package_index package_name wheels'
        = generate_package_index package_name wheels)
  /\ (forall w,
        In w wheels ->
        occurs_in (package_anchor w)
                  (generate_package_index package_name wheels)).
Proof.
  assert (P : Permutation (sorted_by filename wheels) wheels)
    by apply sorted_by_perm.
  repeat match goal with |- _ /\ _ => split end.
  - reflexivity.
  - intros w. unfold package_anchor. now rewrite !append_assoc.
  - exact P.
  - rewrite length_map. now apply Permutation_length.
  - apply sorted_by_ascending.
  - intros wheels' H. rewrite !map_sorted_by.
    symmetry. apply sorted_order_free. now apply Permutation_map.
  - intros wheels' H Hnd. unfold generate_package_index.
    rewrite (sorted_by_order_free filename wheels wheels');
      [ reflexivity | now apply NoDup_keys_inj | exact H ].
  - intros w Hin. unfold generate_package_index.
    apply occurs_in_right, occurs_in_left.
    apply occurs_in_join with (p := package_anchor w);
      [ | apply occurs_in_refl ].
    apply in_map. eapply Permutation_in; [ apply Permutation_sym, P | exact Hin ].
Qed.

Lemma package_index_anchors_witness :
  Permutation [wheel_a2; wheel_a1] [wheel_a1; wheel_a2]
  /\ NoDup (map filename [wheel_a2; wheel_a1])
  /\ generate_package_index "flash-attn" [wheel_a1; wheel_a2]
     = generate_package_index "flash-attn" [wheel_a2; wheel_a1]
  /\ map filename (sorted_by filename [wheel_a1; wheel_a2])
     = [filename wheel_a2; filename wheel_a1].
Proof.
  destruct (package_index_anchors "flash-attn" [wheel_a2; wheel_a1])
    as (_ & _ & _ & _ & _ & Hnames & Hhtml & _).
  assert (Hnd : NoDup (map filename [wheel_a2; wheel_a1])).
  { constructor.
    - intros [H | []]. discriminate H.
    - constructor; [ intros [] | constructor ]. }
  split; [ apply perm_swap | ].
  split; [ exact Hnd | ].
  split; [ apply Hhtml; [ apply perm_swap | exact Hnd ] | ].
  rewrite (Hnames [wheel_a1; wheel_a2] (perm_swap _ _ _)).
  reflexivity.
Defined.

(** Wheels of equal file name keep their input order: the sort is stable. *)
Example package_index_ties :
  map url (sorted_by filename
             [ {| filename := "a.whl"; url := "u2"; wheel_size := 0%Z;
                  tag := "v2" |};
               {| filename := "a.whl"; url := "u1"; wheel_size := 0%Z;
                  tag := "v1" |} ])
  = ["u2"; "u1"].
Proof. reflexivity. Qed.

(* ------------------------------------------------------------------ *)
(** ** The release fetcher                                             *)
(* ------------------------------------------------------------------ *)

Section Fetcher.
Context {FS : Type} (os : OS FS).

Lemma extend_nil (w : world FS) : extend w [] [] = w.
Proof. destruct w. unfold extend. simpl. now rewrite !app_nil_r. Qed.

Lemma extend_extend (w : world FS) (o1 o2 : list string)
    (r1 r2 : list Request) :
  extend (extend w o1 r1) o2 r2 = extend w (o1 ++ o2) (r1 ++ r2).
Proof. unfold extend. simpl. now rewrite !app_assoc. Qed.

Lemma bind_print {B : Type} (line : string) (k : unit -> M FS B)
    (w : world FS) :
  bind (print line) k w = k tt (extend w [line] []).
Proof.
  unfold bind, print, extend. simpl. now rewrite app_nil_r.
Qed.

Lemma bind_send {B : Type} (req : Request) (k : response -> M FS B)
    (w : world FS) :
  bind (send os req) k w = k (urlopen_json os req) (extend w [] [req]).
Proof.
  unfold bind, send, extend. simpl. now rewrite app_nil_r.
Qed.

Lemma bind_lift {A B : Type} (a : A) (k : A -> M FS B) (w : world FS) :
  bind (lift (Returned a)) k w = k a w.
Proof. reflexivity. Qed.

(** The effects of the loop do not depend on the world it starts in: it
    only appends to the output and to the requests. *)
Lemma fetch_loop_effects (fuel : nat) (headers : list (string * string))
    (acc : list release) (page : nat) :
  (forall w, fetch_loop os fuel headers acc page w = None)
  \/ exists o out rq,
       forall w, fetch_loop os fuel headers acc page w
                 = Some (o, extend w out rq).
Proof.
  revert acc page; induction fuel as [| fuel IH]; intros acc page.
  - left. reflexivity.
  - cbn [fetch_loop].
    destruct (urlopen_json os (page_request headers page)) as [data | e] eqn:R.
    + destruct data as [| d data].
      * right. exists (Returned acc), [], [page_request headers page].
        intros w. rewrite bind_send, R. reflexivity.
      * destruct (IH (acc ++ d :: data)%list (page + 1))
          as [Hnone | [o [out [rq Hsome]]]].
        -- left. intros w. rewrite bind_send, R, bind_print. apply Hnone.
        -- right. eexists o, _, _. intros w.
           rewrite bind_send, R, bind_print, Hsome, !extend_extend.
           reflexivity.
    + right. destruct (is_HTTPError e) eqn:H.
      * eexists (Returned acc), _, _. intros w.
        rewrite bind_send, R, H, bind_print. unfold ret.
        rewrite extend_extend. reflexivity.
      * exists (Raised e), [], [page_request headers page]. intros w.
        rewrite bind_send, R, H. reflexivity.
Qed.

Lemma pages_answer_tail (headers : list (string * string)) (first : nat)
    (d : list release) (pages : list (list release)) :
  pages_answer os headers first (d :: pages) ->
  urlopen_json os (page_request headers first) = Body d
  /\ d <> []
  /\ pages_answer os headers (first + 1) pages.
Proof.
  intros H. destruct (H 0 d eq_refl) as [H0 Hd].
  rewrite Nat.add_0_r in H0.
  split; [ exact H0 | split; [ exact Hd | ] ].
  intros i data Hi. destruct (H (S i) data Hi) as [Hu Hn].
  split; [ | exact Hn ].
  now replace (first + 1 + i) with (first + S i) by lia.
Qed.

(** While the pages are non-empty the loop requests them in turn and
    accumulates them. *)
Lemma fetch_loop_pages (pages : list (list release)) :
  forall (fuel : nat) (headers : list (string * string))
         (acc : list release) (first : nat) (w : world FS),
    pages_answer os headers first pages ->
    exists out,
      fetch_loop os (List.length pages + fuel) headers acc first w
      = fetch_loop os fuel headers (acc ++ concat pages)%list
          (first + List.length pages)
          (extend w out (page_requests headers first (List.length pages))).
Proof.
  induction pages as [| d pages IH]; intros fuel headers acc first w H.
  - exists []. simpl. unfold page_requests. simpl.
    now rewrite extend_nil, app_nil_r, Nat.add_0_r.
  - apply pages_answer_tail in H. destruct H as [H0 [Hd H]].
    destruct (IH fuel headers (acc ++ d)%list (first + 1)
                 (extend (extend w [] [page_request headers first])
                         ["  Fetched page " ++ str_of_nat first ++ " ("
                          ++ str_of_nat (List.length d) ++ " releases)"] [])
                 H) as [out E].
    eexists. cbn [List.length Nat.add fetch_loop].
    rewrite bind_send, H0.
    destruct d as [| x d]; [ now elim Hd | ].
    rewrite bind_print, E, !extend_extend.
    cbn [concat]. rewrite <- app_assoc.
    replace (first + 1 + List.length pages)
      with (first + S (List.length pages)) by lia.
    unfold page_requests. cbn [seq map app].
    replace (first + 1) with (S first) by lia.
    reflexivity.
Qed.

(** What the loop does on the page after the last non-empty one. *)
Lemma fetch_loop_stop (fuel : nat) (headers : list (string * string))
    (acc : list release) (page : nat) (w : world FS) :
  exists out,
    fetch_loop os (S fuel) headers acc page w
    = match urlopen_json os (page_request headers page) with
      | Body [] =>
          Some (Returned acc, extend w out [page_request headers page])
      | Body (d :: data) =>
          fetch_loop os fuel headers (acc ++ d :: data)%list (page + 1)
            (extend w out [page_request headers page])
      | Fails e =>
          Some (if is_HTTPError e then Returned acc else Raised e,
                extend w out [page_request headers page])
      end.
Proof.
  cbn [fetch_loop]. rewrite bind_send.
  destruct (urlopen_json os (page_request headers page)) as [[| d data] | e].
  - exists []. reflexivity.
  - eexists. rewrite bind_print, extend_extend. reflexivity.
  - destruct (is_HTTPError e).
    + eexists. rewrite bind_print. unfold ret. rewrite extend_extend.
      reflexivity.
    + exists []. reflexivity.
Qed.

Lemma page_requests_snoc (headers : list (string * string)) (first n : nat) :
  (page_requests headers first n ++ [page_request headers (first + n)])%list
  = page_requests headers first (n + 1).
Proof.
  unfold page_requests. now rewrite seq_app, map_app.
Qed.

(** The run of the fetcher over [pages] non-empty pages followed by a page
    that answers [last]. *)
Lemma get_all_releases_run (pages : list (list release)) (fuel : nat)
    (w : world FS) :
  pages_answer os (request_headers (environ_GITHUB_TOKEN os)) 1 pages ->
  List.length pages < fuel ->
  exists out,
    match urlopen_json os
            (page_request (request_headers (environ_GITHUB_TOKEN os))
                          (1 + List.length pages)) with
    | Body (_ :: _) => True
    | Body [] =>
        get_all_releases os fuel w
        = Some (Returned (concat pages),
                extend w out
                  (page_requests (request_headers (environ_GITHUB_TOKEN os))
                                 1 (List.length pages + 1)))
    | Fails e =>
        get_all_releases os fuel w
        = Some (if is_HTTPError e then Returned (concat pages) else Raised e,
                extend w out
                  (page_requests (request_headers (environ_GITHUB_TOKEN os))
                                 1 (List.length pages + 1)))
    end.
Proof.
  intros H Hfuel. unfold get_all_releases.
  set (headers := request_headers (environ_GITHUB_TOKEN os)) in *.
  replace fuel with (List.length pages + S (fuel - List.length pages - 1))
    by lia.
  destruct (fetch_loop_pages pages (S (fuel - List.length pages - 1))
              headers [] 1 w H) as [out1 E1].
  destruct (fetch_loop_stop (fuel - List.length pages - 1) headers
              ([] ++ concat pages)%list (1 + List.length pages)
              (extend w out1 (page_requests headers 1 (List.length pages))))
    as [out2 E2].
  rewrite E1, E2. clear E1 E2.
  destruct (urlopen_json os (page_request headers (1 + List.length pages)))
    as [[| d data] | e].
  - eexists. rewrite extend_extend, page_requests_snoc. reflexivity.
  - exists []. exact I.
  - eexists. rewrite extend_extend, page_requests_snoc. reflexivity.
Qed.

End Fetcher.

(** C7. The fetcher pages from page 1 upward and stops at the first empty
    page: when the pages 1..n are non-empty and page n+1 is empty, it
    requests exactly the pages 1..n+1, in order, and returns the records of
    the pages 1..n, in page order.  For an API that returns exactly 100
    records on page 1 and none on page 2 it makes exactly the 2 requests for
    the pages 1 and 2 and returns exactly the 100 records of page 1. *)
Theorem fetch_stops_at_first_empty_page {FS : Type} (os : OS FS)
    (w : world FS) :
  (forall pages fuel,
      pages_answer os (request_headers (environ_GITHUB_TOKEN os)) 1 pages ->
      urlopen_json os
        (page_request (request_headers (environ_GITHUB_TOKEN os))
                      (1 + List.length pages)) = Body [] ->
      List.length pages < fuel ->
      exists w',
        get_all_releases os fuel w = Some (Returned (concat pages), w')
        /\ requests w'
           = (requests w
              ++ page_requests (request_headers (environ_GITHUB_TOKEN os))
                               1 (List.length pages + 1))%list
        /\ fs w' = fs w)
  /\ (forall page1 fuel,
        List.length page1 = 100 ->
        urlopen_json os
          (page_request (request_headers (environ_GITHUB_TOKEN os)) 1)
        = Body page1 ->
        urlopen_json os
          (page_request (request_headers (environ_GITHUB_TOKEN os)) 2)
        = Body [] ->
        2 <= fuel ->
        exists w',
          get_all_releases os fuel w = Some (Returned page1, w')
          /\ List.length page1 = 100
          /\ requests w'
             = (requests w
                ++ [ page_request
                       (request_headers (environ_GITHUB_TOKEN os)) 1;
                     page_request
                       (request_headers (environ_GITHUB_TOKEN os)) 2 ])%list
          /\ List.length
               [ page_request (request_headers (environ_GITHUB_TOKEN os)) 1;
                 page_request (request_headers (environ_GITHUB_TOKEN os)) 2 ]
             = 2).
Proof.
  assert (G : forall pages fuel,
      pages_answer os (request_headers (environ_GITHUB_TOKEN os)) 1 pages ->
      urlopen_json os
        (page_request (request_headers (environ_GITHUB_TOKEN os))
                      (1 + List.length pages)) = Body [] ->
      List.length pages < fuel ->
      exists w',
        get_all_releases os fuel w = Some (Returned (concat pages), w')
        /\ requests w'
           = (requests w
              ++ page_requests (request_headers (environ_GITHUB_TOKEN os))
                               1 (List.length pages + 1))%list
        /\ fs w' = fs w).
  { intros pages fuel H Hlast Hfuel.
    destruct (get_all_releases_run os pages fuel w H Hfuel) as [out E].
    rewrite Hlast in E. eexists. split; [ exact E | ]. split; reflexivity. }
  split; [ exact G | ].
  intros page1 fuel Hlen H1 H2 Hfuel.
  destruct (G [page1] fuel) as [w' [Hrun [Hreq _]]].
  - intros [| i] data Hi; simpl in Hi; [ | now destruct i ].
    injection Hi as <-. split; [ exact H1 | ].
    intros ->. discriminate Hlen.
  - exact H2.
  - simpl. lia.
  - exists w'. simpl in Hrun. rewrite app_nil_r in Hrun.
    repeat split; assumption.
Qed.

Lemma fetch_stops_at_first_empty_page_witness :
  exists w',
    get_all_releases (recording_os None api_one_full_page) 2 fresh_world
    = Some (Returned full_page, w')
    /\ List.length full_page = 100
    /\ requests w'
       = [ page_request (request_headers None) 1;
           page_request (request_headers None) 2 ].
Proof.
  destruct (proj2 (fetch_stops_at_first_empty_page
                     (recording_os None api_one_full_page) fresh_world)
                  full_page 2)
    as [w' [Hrun [Hlen [Hreq _]]]];
    [ reflexivity | reflexivity | reflexivity | apply le_n | ].
  exists w'. split; [ exact Hrun | ]. split; [ exact Hlen | exact Hreq ].
Defined.

(** C1 does not hold as stated: a transport error that is not an HTTP error
    (here a refused connection on page 2) is not caught; the fetcher raises
    it and returns nothing. *)
Lemma fetch_transport_error_propagates :
  urlopen_json (recording_os None api_then_refused)
               (page_request (request_headers None) 2)
  = Fails connection_refused
  /\ (exists w',
        get_all_releases (recording_os None api_then_refused) 5 fresh_world
        = Some (Raised connection_refused, w'))
  /\ (forall releases w',
        get_all_releases (recording_os None api_then_refused) 5 fresh_world
        <> Some (Returned releases, w')).
Proof.
  split; [ reflexivity | ].
  split; [ eexists; reflexivity | ].
  intros releases w' H. vm_compute in H. discriminate H.
Qed.

(** C1, amended. When the pages 1..n are non-empty and the request for page
    n+1 fails, the fetcher stops at once, having requested exactly the pages
    1..n+1.  If the failure is an [HTTPError] it returns the records of the
    pages 1..n and raises nothing; any other exception is not caught and
    propagates to the caller. *)
Theorem fetch_error_stops_pagination {FS : Type} (os : OS FS)
    (w : world FS) (pages : list (list release)) (e : exn) (fuel : nat) :
  pages_answer os (request_headers (environ_GITHUB_TOKEN os)) 1 pages ->
  urlopen_json os
    (page_request (request_headers (environ_GITHUB_TOKEN os))
                  (1 + List.length pages)) = Fails e ->
  List.length pages < fuel ->
  exists w',
    get_all_releases os fuel w
    = Some (if is_HTTPError e then Returned (concat pages) else Raised e, w')
    /\ requests w'
       = (requests w
          ++ page_requests (request_headers (environ_GITHUB_TOKEN os))
                           1 (List.length pages + 1))%list
    /\ fs w' = fs w.
Proof.
  intros H Hlast Hfuel.
  destruct (get_all_releases_run os pages fuel w H Hfuel) as [out E].
  rewrite Hlast in E. eexists. split; [ exact E | ]. split; reflexivity.
Qed.

Lemma fetch_error_stops_pagination_witness :
  exists w',
    get_all_releases (recording_os None api_then_forbidden) 2 fresh_world
    = Some (Returned [sample_release], w')
    /\ requests w'
       = [ page_request (request_headers None) 1;
           page_request (request_headers None) 2 ].
Proof.
  destruct (fetch_error_stops_pagination
              (recording_os None api_then_forbidden) fresh_world
              [[sample_release]] rate_limited 2)
    as [w' [Hrun [Hreq _]]].
  - intros [| i] data Hi; simpl in Hi; [ | now destruct i ].
    injection Hi as <-. split; [ reflexivity | discriminate ].
  - reflexivity.
  - apply le_n.
  - exists w'. split; [ exact Hrun | exact Hreq ].
Defined.

(* ------------------------------------------------------------------ *)
(** ** main                                                            *)
(* ------------------------------------------------------------------ *)

Lemma get_all_releases_anywhere {FS : Type} (os : OS FS) (fuel : nat)
    (w w1 : world FS) (o : outcome (list release)) :
  get_all_releases os fuel w = Some (o, w1) ->
  exists out rq,
    w1 = extend w out rq
    /\ forall v, get_all_releases os fuel v = Some (o, extend v out rq).
Proof.
  unfold get_all_releases. intros H.
  destruct (fetch_loop_effects os fuel
              (request_headers (environ_GITHUB_TOKEN os)) [] 1)
    as [Hnone | [o' [out [rq Hsome]]]].
  - rewrite Hnone in H. discriminate H.
  - rewrite Hsome in H. injection H as <- <-.
    exists out, rq. split; [ reflexivity | exact Hsome ].
Qed.

(** Extraction returns the empty list exactly when no asset raises and no
    asset name ends in [.whl]. *)
Lemma extract_wheels_empty_iff (releases : list release) :
  extract_wheels releases = Returned []
  <-> forallb asset_ok (all_assets releases) = true
      /\ wheel_assets releases = [].
Proof.
  pose proof (extract_wheels_spec releases) as S.
  unfold first_bad_asset in S. split.
  - intros H. destruct (find _ (all_assets releases)) as [a |] eqn:F.
    + rewrite H in S. discriminate S.
    + destruct S as [ws [Hrun Hrel]]. rewrite H in Hrun.
      injection Hrun as <-. split; [ | now inversion Hrel ].
      apply forallb_forall. intros a Ha.
      apply (find_none _ _ F) in Ha. now apply negb_false_iff in Ha.
  - intros [Hok Hnone].
    destruct (find _ (all_assets releases)) as [a |] eqn:F.
    + apply find_some in F. destruct F as [Hin Hbad].
      rewrite forallb_forall in Hok. rewrite (Hok a Hin) in Hbad.
      discriminate Hbad.
    + destruct S as [ws [Hrun Hrel]]. rewrite Hnone in Hrel.
      inversion Hrel. subst. exact Hrun.
Qed.

(** C3. When the fetcher returns and the list of extracted wheels is empty,
    [main] returns the exit code 1 and the file system is the one it
    started with, whatever the file system does: no file-system call is
    made, the check comes before every write.  The last line printed is the
    error message, and the only requests sent are those of the fetcher. *)
Theorem main_without_wheels_writes_nothing {FS : Type} (os : OS FS)
    (fuel : nat) (w w1 : world FS) (releases : list release) :
  get_all_releases os fuel w = Some (Returned releases, w1) ->
  extract_wheels releases = Returned [] ->
  exists w',
    main os fuel w = Some (Returned 1%Z, w')
    /\ fs w' = fs w
    /\ requests w' = requests w1
    /\ last (stdout w') EmptyString = "ERROR: No wheels found!".
Proof.
  intros Hfetch Hextract.
  apply get_all_releases_anywhere in Hfetch.
  destruct Hfetch as [out [rq [-> Hfetch]]].
  unfold main.
  repeat (rewrite bind_print; cbv beta).
  unfold bind at 1. rewrite Hfetch.
  repeat (rewrite bind_print; cbv beta).
  rewrite Hextract, bind_lift.
  repeat (rewrite bind_print; cbv beta).
  unfold ret. rewrite !extend_extend.
  eexists. split; [ reflexivity | ].
  split; [ reflexivity | ].
  split.
  - simpl. now rewrite !app_nil_r.
  - unfold extend. cbn [stdout]. rewrite !app_assoc. apply last_last.
Qed.

Lemma main_without_wheels_writes_nothing_witness :
  exists w',
    main (recording_os None api_without_wheels) 3 fresh_world
    = Some (Returned 1%Z, w')
    /\ fs w' = [].
Proof.
  pose proof (fun w1 =>
                main_without_wheels_writes_nothing
                  (recording_os None api_without_wheels) 3 fresh_world
                  w1 [text_only_release]) as T.
  edestruct T as [w' [Hrun [Hfs _]]]; [ reflexivity | reflexivity | ].
  exists w'. split; [ exact Hrun | exact Hfs ].
Defined.

(** A run on the sample release: one group, three files written, after the
    directories were made. *)
Example main_sample_run :
  exists w',
    main (recording_os None (api_with_first_page [sample_release] (Body [])))
         3 fresh_world
    = Some (Returned 0%Z, w')
    /\ map (fun ev => match ev with
                      | Mkdir p _ _ => "mkdir " ++ posix_str p
                      | WriteText p _ => "write " ++ posix_str p
                      end) (fs w')
       = [ "mkdir public/simple";
           "write public/simple/index.html";
           "mkdir public/simple/flash-attn";
           "write public/simple/flash-attn/index.html";
           "write public/index.html" ].
Proof. eexists. split; vm_compute; reflexivity. Qed.

(* ================================================================== *)
(** * Further properties                                               *)
(* ================================================================== *)

(* ------------------------------------------------------------------ *)
(** ** normalize_name: normal forms                                    *)
(* ------------------------------------------------------------------ *)

Lemma normal_from_none (s : string) (b : bool) :
  pep503_normal_from b s = true ->
  none_char is_upper s = true
  /\ contains_char "_" s = false
  /\ contains_char "." s = false.
Proof.
  revert b; induction s as [| c r IH]; intros b; simpl;
    [ now repeat split | ].
  destruct (is_sep c) eqn:E.
  - rewrite !andb_true_iff, Ascii.eqb_eq. intros [[-> _] H].
    destruct (IH true H) as [U [A B]]. simpl. now repeat split.
  - rewrite andb_true_iff. intros [U H].
    destruct (IH false H) as [U' [A B]]. rewrite U, U', A, B. simpl.
    unfold is_sep in E. rewrite !orb_false_iff in E.
    destruct E as [[_ E1] E2]. rewrite E1, E2. now repeat split.
Qed.

Lemma normal_from_no_double (pre post : string) (b : bool) :
  pep503_normal_from b (pre ++ "--" ++ post) = false.
Proof.
  revert b; induction pre as [| c pre IH]; intros b; simpl.
  - now rewrite andb_false_r.
  - destruct (is_sep c); rewrite IH; now rewrite !andb_false_r.
Qed.

(** X1. The result of [normalize_name] is in the normal form of PEP 503: it
    has no capital letter [A] to [Z], no ['_'], no ['.'], and no two adjacent
    ['-']. *)
Theorem normalize_name_normal (s : string) :
  pep503_normal (normalize_name s) = true
  /\ none_char is_upper (normalize_name s) = true
  /\ contains_char "_" (normalize_name s) = false
  /\ contains_char "." (normalize_name s) = false
  /\ ~ occurs_in "--" (normalize_name s).
Proof.
  assert (N : pep503_normal (normalize_name s) = true)
    by apply normalized_is_normal_from.
  split; [ exact N | ].
  destruct (normal_from_none _ _ N) as [U [A B]].
  repeat split; try assumption.
  intros [pre [post E]]. unfold pep503_normal in N.
  rewrite E, normal_from_no_double in N. discriminate N.
Qed.

(** X2. The strings [normalize_name] leaves unchanged are exactly those
    that are in normal form and that [str.lower] leaves unchanged.  The
    second condition is not implied by the first: a normal form has no
    capital letter [A] to [Z], but may hold another letter with a lower
    case. *)
Theorem normalize_name_fixed_iff (s : string) :
  normalize_name s = s <-> pep503_normal s = true /\ lower s = s.
Proof.
  unfold normalize_name, pep503_normal. split.
  - intros E. split.
    + rewrite <- E. apply normalized_is_normal_from.
    + rewrite <- E. apply lower_idem.
  - intros [P L].
    now rewrite (sep_ok_fixed s false (normal_sep_ok s false P)).
Qed.

Example normal_form_not_fixed :
  let s := utf8_encode [0xC9; 0x63; 0x6C; 0x61; 0x69; 0x72]%N in
  pep503_normal s = true
  /\ utf8_decode (normalize_name s) = [0xE9; 0x63; 0x6C; 0x61; 0x69; 0x72]%N
  /\ normalize_name s <> s.
Proof. vm_compute. repeat split. discriminate. Qed.

Lemma re_sub_sep_kind (a b : string) (c c' : ascii) (f : bool) :
  is_sep c = true -> is_sep c' = true ->
  re_sub_seps f (a ++ String c b) = re_sub_seps f (a ++ String c' b).
Proof.
  intros Hc Hc'. revert f; induction a as [| x a IH]; intros f; simpl.
  - now rewrite Hc, Hc'.
  - destruct (is_sep x); [ destruct f | ]; now rewrite IH.
Qed.

Lemma re_sub_sep_run (a b : string) (c c' : ascii) (f : bool) :
  is_sep c = true -> is_sep c' = true ->
  re_sub_seps f (a ++ String c (String c' b))
  = re_sub_seps f (a ++ String c b).
Proof.
  intros Hc Hc'. revert f; induction a as [| x a IH]; intros f; simpl.
  - rewrite Hc, Hc'. now destruct f.
  - destruct (is_sep x); [ destruct f | ]; now rewrite IH.
Qed.

(** X3. Names that differ only in which of ['-'], ['_'], ['.'] stands at a
    position, or in the length of a run of separators, have the same
    normalization. *)
Theorem normalize_name_insensitive (a b : string) (c c' : ascii) :
  is_sep c = true -> is_sep c' = true ->
  normalize_name (a ++ String c b) = normalize_name (a ++ String c' b)
  /\ normalize_name (a ++ String c (String c' b))
     = normalize_name (a ++ String c b).
Proof.
  unfold normalize_name. intros Hc Hc'.
  split.
  - now rewrite (re_sub_sep_kind a b c c' false Hc Hc').
  - now rewrite (re_sub_sep_run a b c c' false Hc Hc').
Qed.

Lemma normalize_name_insensitive_witness :
  normalize_name "Flash_Attn" = normalize_name "Flash.Attn"
  /\ normalize_name "Flash_.Attn" = normalize_name "Flash_Attn".
Proof.
  apply (normalize_name_insensitive "Flash" "Attn" "_" "."); reflexivity.
Defined.

(* ------------------------------------------------------------------ *)
(** ** The substitution of the separators, on code points              *)
(* ------------------------------------------------------------------ *)

Lemma high_bytes_re_sub (t rest : string) (p : bool) :
  all_high t = true -> t <> EmptyString ->
  re_sub_seps p (t ++ rest) = t ++ re_sub_seps false rest.
Proof.
  revert p; induction t as [| b t IH]; intros p H Hne; [ now elim Hne | ].
  cbn [all_high] in H. apply andb_true_iff in H. destruct H as [Hb Ht].
  cbn [append re_sub_seps]. destruct (high_byte b Hb) as [-> _].
  destruct t as [| b' t]; [ reflexivity | ].
  f_equal. apply IH; [ exact Ht | discriminate ].
Qed.

Lemma re_sub_encode (ts : list N) :
  Forall (fun c => valid_cp c \/ stray_byte c) ts ->
  forall p, re_sub_seps p (utf8_encode ts) = utf8_encode (re_sub_cps p ts).
Proof.
  induction 1 as [| c rest W _ IH]; intros p; [ reflexivity | ].
  cbn [utf8_encode re_sub_cps].
  destruct (N.ltb_spec c 0x80) as [A | A].
  - rewrite (encode_ascii c A). cbn [append re_sub_seps].
    destruct (ascii_facts (ascii_of_N c)) as [-> _].
    rewrite N_ascii_embedding by lia.
    destruct (sep_cp c); [ destruct p | ]; cbn [utf8_encode];
      rewrite ?IH, ?(encode_ascii c A); reflexivity.
  - destruct (encode_high c A W) as [b [t [E H]]].
    destruct (high_cp c A) as [-> _]. cbn [utf8_encode]. rewrite E.
    rewrite (high_bytes_re_sub _ _ _ H) by discriminate.
    now rewrite IH.
Qed.

Lemma stray_not_sep (c : N) : stray_byte c -> sep_cp c = false.
Proof.
  unfold stray_byte, cp_limit. intros S. apply high_cp. lia.
Qed.

(** The substitution does not change the continuation bytes at the head
    of the UTF-8 form. *)
Lemma conts_re_sub (ts : list N) :
  Forall (fun c => valid_cp c \/ stray_byte c) ts ->
  forall n,
    conts n (utf8_encode (re_sub_cps false ts)) = conts n (utf8_encode ts).
Proof.
  induction 1 as [| c rest [V | S] _ IH]; intros n; [ reflexivity | | ].
  - cbn [re_sub_cps utf8_encode]. rewrite (conts_encode_valid c _ n V).
    destruct (sep_cp c); cbn [utf8_encode]; apply conts_encode_valid;
      [ reflexivity | exact V ].
  - cbn [re_sub_cps utf8_encode]. rewrite (stray_not_sep c S).
    cbn [utf8_encode]. rewrite (stray_encode c S).
    destruct n; cbn [append conts]; [ reflexivity | ].
    destruct (cont _); [ | reflexivity ]. now rewrite IH.
Qed.

Lemma canonical_re_sub (ts : list N) :
  canonical ts -> forall p, canonical (re_sub_cps p ts).
Proof.
  induction ts as [| c rest IH]; intros C p; [ exact I | ].
  destruct C as [Hc C]. cbn [re_sub_cps].
  destruct Hc as [V | [S H]].
  - destruct (sep_cp c); [ destruct p | ].
    + now apply IH.
    + split; [ now left | now apply IH ].
    + split; [ now left | now apply IH ].
  - rewrite (stray_not_sep c S).
    split; [ right; split; [ exact S | ] | now apply IH ].
    rewrite <- H. apply utf8_head_conts. intros n.
    apply conts_re_sub. now apply canonical_wf.
Qed.

(** The substitution on the bytes is the substitution on the code
    points. *)
Lemma decode_re_sub (s : string) (p : bool) :
  utf8_decode (re_sub_seps p s) = re_sub_cps p (utf8_decode s).
Proof.
  pose proof (canonical_decode_from s 0) as C. fold (utf8_decode s) in C.
  rewrite <- (encode_decode s) at 1.
  rewrite re_sub_encode by now apply canonical_wf.
  now apply decode_encode, canonical_re_sub.
Qed.

(* ------------------------------------------------------------------ *)
(** ** Lowering without a capital sigma                                *)
(* ------------------------------------------------------------------ *)

Lemma lower_from_flat_map (l : list N) :
  forallb (fun c => negb (c =? capital_sigma)%N) l = true ->
  forall b, lower_from b l = flat_map to_lower_full l.
Proof.
  induction l as [| c l IH]; intros H b; [ reflexivity | ].
  cbn [forallb] in H. apply andb_true_iff in H. destruct H as [Hc H].
  cbn [lower_from flat_map]. unfold lower_cp.
  apply negb_true_iff in Hc. rewrite Hc. now rewrite IH.
Qed.

Lemma re_sub_cps_no_sigma (l : list N) :
  forallb (fun c => negb (c =? capital_sigma)%N) l = true ->
  forall p,
    forallb (fun c => negb (c =? capital_sigma)%N) (re_sub_cps p l) = true.
Proof.
  induction l as [| c l IH]; intros H p; [ reflexivity | ].
  cbn [forallb] in H. apply andb_true_iff in H. destruct H as [Hc H].
  cbn [re_sub_cps]. destruct (sep_cp c); [ destruct p | ];
    cbn [forallb]; rewrite ?Hc, ?IH by exact H; reflexivity.
Qed.

Lemma sep_unmapped (c : N) : sep_cp c = true -> to_lower_full c = [c].
Proof.
  unfold sep_cp. rewrite !orb_true_iff, !N.eqb_eq.
  intros [[-> | ->] | ->]; reflexivity.
Qed.

Lemma to_lower_full_not_sep (c : N) :
  sep_cp c = false ->
  Forall (fun d => sep_cp d = false) (to_lower_full c)
  /\ to_lower_full c <> nil.
Proof.
  intros S. destruct (to_lower_full_cases c) as [[-> _] | [G [Hne _]]].
  - split; [ now constructor | discriminate ].
  - split; [ | exact Hne ].
    eapply Forall_impl; [ | exact G ].
    intros d Hd. now apply good_out_spec in Hd.
Qed.

Lemma re_sub_cps_app (out rest : list N) (p : bool) :
  Forall (fun d => sep_cp d = false) out -> out <> nil ->
  re_sub_cps p (out ++ rest) = (out ++ re_sub_cps false rest)%list.
Proof.
  revert p; induction out as [| d out IH]; intros p H Hne;
    [ now elim Hne | ].
  inversion H as [| ? ? Hs H']; subst.
  cbn [app re_sub_cps]. rewrite Hs. f_equal.
  destruct out as [| d' out]; [ reflexivity | ].
  apply IH; [ exact H' | discriminate ].
Qed.

(** The mapping of the code points and the substitution commute. *)
Lemma re_sub_flat_map (l : list N) (p : bool) :
  re_sub_cps p (flat_map to_lower_full l)
  = flat_map to_lower_full (re_sub_cps p l).
Proof.
  revert p; induction l as [| c l IH]; intros p; [ reflexivity | ].
  cbn [flat_map re_sub_cps]. destruct (sep_cp c) eqn:S.
  - rewrite (sep_unmapped c S). cbn [app re_sub_cps]. rewrite S.
    destruct p; cbn [flat_map]; rewrite IH; reflexivity.
  - destruct (to_lower_full_not_sep c S) as [F Hne].
    rewrite (re_sub_cps_app _ _ _ F Hne). cbn [flat_map].
    now rewrite IH.
Qed.

Lemma normalize_name_lower (a : string) :
  no_capital_sigma a = true ->
  normalize_name (lower a) = normalize_name a.
Proof.
  unfold no_capital_sigma, normalize_name, lower. intros H.
  rewrite !decode_re_sub.
  rewrite decode_encode by apply canonical_lower, canonical_decode_from.
  f_equal.
  rewrite (lower_from_flat_map _ H false), re_sub_flat_map.
  rewrite <- (lower_from_flat_map _ (re_sub_cps_no_sigma _ H false) false).
  apply lower_from_idem.
Qed.

(** X19. Names without a capital sigma that differ only in the case of
    letters have the same normalization: the normalization of the lower
    case of a name is that of the name, and two names with the same lower
    case have the same normalization. *)
Theorem normalize_name_ignores_case (a : string) :
  no_capital_sigma a = true ->
  normalize_name (lower a) = normalize_name a
  /\ forall b, no_capital_sigma b = true -> lower a = lower b ->
                normalize_name a = normalize_name b.
Proof.
  intros Ha. split; [ now apply normalize_name_lower | ].
  intros b Hb E.
  now rewrite <- (normalize_name_lower a Ha), <- (normalize_name_lower b Hb), E.
Qed.

Lemma normalize_name_ignores_case_witness :
  normalize_name (lower "Flash_Attn") = normalize_name "Flash_Attn"
  /\ normalize_name "Flash_Attn" = normalize_name "FLASH_attn".
Proof.
  destruct (normalize_name_ignores_case "Flash_Attn") as [A B];
    [ reflexivity | ].
  split; [ exact A | apply B; reflexivity ].
Defined.

(** With a capital sigma the case matters: its lower case depends on what
    stands around it, and replacing a ['.'] by a ['-'] changes that.  The
    name of the example is [A], capital sigma, ['.'], [B]. *)
Example normalize_name_of_lower :
  let s := utf8_encode [0x41; capital_sigma; 0x2E; 0x42]%N in
  no_capital_sigma s = false
  /\ utf8_decode (normalize_name s) = [0x61; final_sigma; 0x2D; 0x62]%N
  /\ utf8_decode (lower s) = [0x61; small_sigma; 0x2E; 0x62]%N
  /\ utf8_decode (normalize_name (lower s))
     = [0x61; small_sigma; 0x2D; 0x62]%N.
Proof. vm_compute. repeat split. Qed.

(** X4. The result of [normalize_name] is empty only for the empty name. *)
Theorem normalize_name_empty (s : string) :
  normalize_name s = EmptyString <-> s = EmptyString.
Proof.
  unfold normalize_name. now rewrite lower_empty, re_sub_seps_empty.
Qed.

(** The result can be longer than the name: the lower case of U+0130 is two
    code points. *)
Example normalize_name_lengthens :
  let s := utf8_encode [0x130]%N in
  utf8_decode (normalize_name s) = [0x69; 0x307]%N
  /\ String.length s = 2 /\ String.length (normalize_name s) = 3.
Proof. vm_compute. repeat split. Qed.

(* ------------------------------------------------------------------ *)
(** ** Grouping: the key of a wheel and the order of the keys          *)
(* ------------------------------------------------------------------ *)

Lemma split_at_first_sep (sep : ascii) (a b : string) :
  contains_char sep a = false ->
  split sep (a ++ String sep b) = a :: split sep b.
Proof.
  induction a as [| c a IH]; simpl.
  - intros _. now rewrite Ascii.eqb_refl.
  - destruct (c =? sep)%char; simpl; [ discriminate | ].
    intros H. now rewrite (IH H).
Qed.

(** X5. The package name of a wheel is the normalization of the text before
    the first ['-'] of its file name, whatever follows: a distribution name
    written with a hyphen is cut at that hyphen. *)
Theorem key_of_first_segment (w : wheel) (a b : string) :
  filename w = a ++ "-" ++ b ->
  contains_char "-" a = false ->
  name_part w = Returned a /\ key_of w = normalize_name a.
Proof.
  intros E H. unfold name_part, key_of. rewrite E. simpl.
  now rewrite (split_at_first_sep "-" a b H).
Qed.

Lemma key_of_first_segment_witness :
  name_part hyphenated_wheel = Returned "flash"
  /\ key_of hyphenated_wheel = normalize_name "flash".
Proof.
  apply (key_of_first_segment hyphenated_wheel "flash"
           "attn-2.6.0-cp311-linux_x86_64.whl"); reflexivity.
Defined.

Lemma split_head_empty (sep : ascii) (s : string) :
  hd EmptyString (split sep s) = EmptyString
  <-> s = EmptyString \/ exists r, s = String sep r.
Proof.
  destruct s as [| c r]; simpl.
  - split; [ now left | reflexivity ].
  - destruct (c =? sep)%char eqn:E.
    + apply Ascii.eqb_eq in E. subst c. simpl.
      split; [ intros _; right; now exists r | reflexivity ].
    + destruct (split_cons sep r) as [p [ps Hp]]. rewrite Hp. simpl.
      split; [ discriminate | ].
      intros [H | [r' H]]; [ discriminate | ].
      injection H as -> _. now rewrite Ascii.eqb_refl in E.
Qed.

(** X6. A wheel is filed under the empty package name exactly when its file
    name is empty or begins with ['-']. *)
Theorem key_of_empty (w : wheel) :
  key_of w = EmptyString
  <-> filename w = EmptyString \/ exists r, filename w = String "-" r.
Proof.
  unfold key_of, normalize_name.
  rewrite lower_empty, re_sub_seps_empty. apply split_head_empty.
Qed.

Lemma add_wheel_contains (k k' : string) (w : wheel) (d : dict) :
  dict_contains k' (add_wheel k w d) = (k =? k') || dict_contains k' d.
Proof.
  induction d as [| [k0 g] r IH]; simpl.
  - reflexivity.
  - destruct (k0 =? k) eqn:E; simpl.
    + apply String.eqb_eq in E. subst k0.
      now destruct (k =? k').
    + rewrite IH. now destruct (k0 =? k'), (k =? k').
Qed.

Lemma filter_twice {A : Type} (f g : A -> bool) (l : list A) :
  filter f (filter g l) = filter (fun x => g x && f x) l.
Proof.
  induction l as [| x l IH]; simpl; [ reflexivity | ].
  destruct (g x); simpl; [ | exact IH ].
  destruct (f x); now rewrite IH.
Qed.

Lemma fold_add_wheel_keys (ws : list wheel) (d : dict) :
  dict_keys (fold_left (fun d w => add_wheel (key_of w) w d) ws d)
  = (dict_keys d
     ++ filter (fun k => negb (dict_contains k d))
               (distinct_in_order (map key_of ws)))%list.
Proof.
  revert d; induction ws as [| w ws IH]; intros d; simpl.
  - now rewrite app_nil_r.
  - rewrite IH, add_wheel_keys, filter_twice.
    assert (F : forall l,
      filter (fun k => negb (dict_contains k (add_wheel (key_of w) w d))) l
      = filter (fun k => negb (k =? key_of w) && negb (dict_contains k d)) l).
    { intros l. apply filter_ext. intros k.
      rewrite add_wheel_contains, negb_orb.
      now rewrite (String.eqb_sym (key_of w) k). }
    rewrite F. destruct (dict_contains (key_of w) d); simpl.
    + reflexivity.
    + now rewrite <- app_assoc.
Qed.

(** X7. The keys of the grouping, in the order in which [main] prints the
    groups and writes their pages, are the distinct normalized package names
    of the wheels in the order of their first occurrence, and each key is in
    normal form. *)
Theorem grouping_key_order (wheels : list wheel) :
  exists packages,
    group_packages wheels = Returned packages
    /\ dict_keys packages = distinct_in_order (map key_of wheels)
    /\ Forall (fun k => pep503_normal k = true) (dict_keys packages).
Proof.
  exists (grouped wheels). split; [ apply group_packages_grouped | ].
  split.
  - unfold grouped. rewrite fold_add_wheel_keys. simpl.
    induction (distinct_in_order (map key_of wheels)) as [| k l IH];
      simpl; [ reflexivity | now rewrite IH ].
  - apply Forall_forall. intros k Hk.
    apply grouped_keys in Hk. destruct Hk as [w [_ <-]].
    apply normalized_is_normal_from.
Qed.

(* ------------------------------------------------------------------ *)
(** ** Wheel extraction: composition                                   *)
(* ------------------------------------------------------------------ *)

Lemma extract_assets_acc (t : string) (l : list asset) (acc : list wheel) :
  extract_assets t l acc
  = match extract_assets t l [] with
    | Returned ws => Returned (acc ++ ws)%list
    | Raised e => Raised e
    end.
Proof.
  revert acc; induction l as [| a l IH]; intros acc; simpl.
  - now rewrite app_nil_r.
  - destruct (getitem "name" (name a)) as [n | e]; [ | reflexivity ].
    destruct (endswith n ".whl"); [ | apply IH ].
    destruct (getitem "browser_download_url" (browser_download_url a))
      as [u | e]; [ | reflexivity ].
    rewrite IH. rewrite (IH [_]).
    destruct (extract_assets t l []); [ | reflexivity ].
    now rewrite <- app_assoc.
Qed.

Lemma extract_releases_acc (rs : list release) (acc : list wheel) :
  extract_releases rs acc
  = match extract_releases rs [] with
    | Returned ws => Returned (acc ++ ws)%list
    | Raised e => Raised e
    end.
Proof.
  revert acc; induction rs as [| r rs IH]; intros acc; simpl.
  - now rewrite app_nil_r.
  - rewrite extract_assets_acc.
    rewrite (extract_assets_acc _ _ []).
    destruct (extract_assets _ (get_default (assets r) []) [])
      as [ws1 | e]; [ | reflexivity ].
    rewrite IH. rewrite (IH ([] ++ ws1)%list). simpl.
    destruct (extract_releases rs []); [ | reflexivity ].
    now rewrite <- app_assoc.
Qed.

Lemma extract_releases_app (rs1 rs2 : list release) (acc : list wheel) :
  extract_releases (rs1 ++ rs2) acc
  = match extract_releases rs1 acc with
    | Returned ws => extract_releases rs2 ws
    | Raised e => Raised e
    end.
Proof.
  revert acc; induction rs1 as [| r rs1 IH]; intros acc; simpl;
    [ reflexivity | ].
  destruct (extract_assets _ (get_default (assets r) []) acc);
    [ apply IH | reflexivity ].
Qed.

(** X8. Extraction follows the order of the releases: on a concatenation it
    raises what the first part raises, else what the second part raises,
    else returns the wheels of the first part followed by those of the
    second. *)
Theorem extract_wheels_app (rs1 rs2 : list release) :
  extract_wheels (rs1 ++ rs2)
  = match extract_wheels rs1 with
    | Raised e => Raised e
    | Returned ws1 =>
        match extract_wheels rs2 with
        | Raised e => Raised e
        | Returned ws2 => Returned (ws1 ++ ws2)%list
        end
    end.
Proof.
  unfold extract_wheels. rewrite extract_releases_app.
  destruct (extract_releases rs1 []) as [ws1 | e]; [ | reflexivity ].
  apply extract_releases_acc.
Qed.

(** X9. Every record extraction returns has a file name that ends in
    [.whl], hence of at least four characters, and the tag of one of the
    releases, or ["unknown"] for a release without tag. *)
Theorem extracted_wheels_wellformed (releases : list release)
    (wheels : list wheel) :
  extract_wheels releases = Returned wheels ->
  Forall (fun w =>
            endswith (filename w) ".whl" = true
            /\ 4 <= String.length (filename w)
            /\ exists r, In r releases
                         /\ tag w = get_default (tag_name r) "unknown")
         wheels.
Proof.
  intros H. apply extract_wheels_returned in H.
  apply Forall_forall. intros w Hw.
  assert (E : endswith (filename w) ".whl" = true).
  { apply extracted_filenames in H.
    assert (Hn : In (filename w) (map filename wheels)) by now apply in_map.
    rewrite H in Hn. now apply filter_In in Hn. }
  split; [ exact E | ]. split.
  - unfold endswith in E. apply andb_true_iff in E.
    destruct E as [E _]. now apply Nat.leb_le in E.
  - assert (Hra : exists ra, In ra (wheel_assets releases)
                             /\ is_wheel_of ra w).
    { clear E. induction H as [| ra w' l l' Hrel _ IH];
        [ destruct Hw | ].
      destruct Hw as [-> | Hw]; [ exists ra; split; [ now left | exact Hrel ] | ].
      destruct (IH Hw) as [ra' [Hin Hrel']].
      exists ra'. split; [ now right | exact Hrel' ]. }
    destruct Hra as [[r a] [Hin [_ [_ [_ Ht]]]]].
    exists r. split; [ | exact Ht ].
    unfold wheel_assets in Hin. apply in_flat_map in Hin.
    destruct Hin as [r' [Hr' Hin]]. apply in_map_iff in Hin.
    destruct Hin as [a' [Heq _]]. injection Heq as -> ->. exact Hr'.
Qed.

Lemma extracted_wheels_wellformed_witness :
  Forall (fun w =>
            endswith (filename w) ".whl" = true
            /\ 4 <= String.length (filename w)
            /\ exists r, In r [sample_release; text_only_release]
                         /\ tag w = get_default (tag_name r) "unknown")
         [ {| filename := "flash_attn-1.0-cp310-linux_x86_64.whl";
              url := sample_wheel_url;
              wheel_size := 100%Z; tag := "v1.0" |} ].
Proof.
  apply (extracted_wheels_wellformed [sample_release; text_only_release]).
  reflexivity.
Defined.

(* ------------------------------------------------------------------ *)
(** ** The fetcher: every run that ends, output, requests              *)
(* ------------------------------------------------------------------ *)

Lemma length_append (a b : string) :
  String.length (a ++ b) = String.length a + String.length b.
Proof. induction a as [| c a IH]; simpl; [ reflexivity | now rewrite IH ]. Qed.

Lemma append_cancel_r (t x y : string) : x ++ t = y ++ t -> x = y.
Proof.
  revert y; induction x as [| c x IH]; intros [| c' y] H; simpl in H.
  - reflexivity.
  - apply (f_equal String.length) in H. simpl in H.
    rewrite length_append in H. lia.
  - apply (f_equal String.length) in H. simpl in H.
    rewrite length_append in H. lia.
  - injection H as -> H. f_equal. now apply IH.
Qed.

Lemma str_of_nat_inj (n m : nat) : str_of_nat n = str_of_nat m -> n = m.
Proof.
  unfold str_of_nat. intros H.
  apply (f_equal NilEmpty.uint_of_string) in H.
  rewrite !NilEmpty.usu in H. injection H as H.
  now apply DecimalNat.Unsigned.to_uint_inj.
Qed.

Lemma page_request_inj (headers : list (string * string)) (p q : nat) :
  page_request headers p = page_request headers q -> p = q.
Proof.
  unfold page_request. intros H. injection H as H.
  apply append_cancel_r in H.
  now apply str_of_nat_inj.
Qed.

Lemma page_requests_NoDup (headers : list (string * string))
    (first n : nat) :
  NoDup (page_requests headers first n).
Proof.
  unfold page_requests.
  assert (M : forall l, NoDup l -> NoDup (map (page_request headers) l)).
  { induction 1 as [| p l Hp _ IH]; simpl; constructor; [ | exact IH ].
    intros Hin. apply in_map_iff in Hin. destruct Hin as [q [Hq Hin]].
    apply page_request_inj in Hq. now subst q. }
  apply M, seq_NoDup.
Qed.

Lemma pages_answer_cons {FS : Type} (os : OS FS)
    (headers : list (string * string)) (first : nat)
    (d : list release) (pages : list (list release)) :
  urlopen_json os (page_request headers first) = Body d ->
  d <> [] ->
  pages_answer os headers (first + 1) pages ->
  pages_answer os headers first (d :: pages).
Proof.
  intros H0 Hd H [| i] data Hi; simpl in Hi.
  - injection Hi as <-. now rewrite Nat.add_0_r.
  - destruct (H i data Hi) as [Hu Hn]. split; [ | exact Hn ].
    now replace (first + S i) with (first + 1 + i) by lia.
Qed.

(** Every run of the loop that ends went through some non-empty pages and
    stopped on the first response that ends the pagination. *)
Lemma fetch_loop_ended {FS : Type} (os : OS FS) (fuel : nat) :
  forall (headers : list (string * string)) (acc : list release)
         (first : nat) (w w' : world FS) (o : outcome (list release)),
    fetch_loop os fuel headers acc first w = Some (o, w') ->
    exists pages,
      pages_answer os headers first pages
      /\ List.length pages < fuel
      /\ ends_pagination
           (urlopen_json os
              (page_request headers (first + List.length pages))) = true
      /\ o = final_outcome (acc ++ concat pages)
               (urlopen_json os
                  (page_request headers (first + List.length pages)))
      /\ w' = extend w
                (progress_lines first pages
                 ++ final_lines (first + List.length pages)
                      (urlopen_json os
                         (page_request headers
                                       (first + List.length pages))))
                (page_requests headers first (List.length pages + 1)).
Proof.
  induction fuel as [| fuel IH]; intros headers acc first w w' o H;
    [ discriminate H | ].
  assert (Hnil : pages_answer os headers first [])
    by (intros i data Hi; now destruct i).
  cbn [fetch_loop] in H. rewrite bind_send in H.
  destruct (urlopen_json os (page_request headers first))
    as [[| d data] | e] eqn:R.
  - exists []. unfold ret in H. injection H as <- <-.
    cbn [List.length concat progress_lines app]. rewrite Nat.add_0_r, R.
    split; [ exact Hnil | ]. split; [ lia | ]. split; [ reflexivity | ].
    split; [ now rewrite app_nil_r | reflexivity ].
  - rewrite bind_print in H. apply IH in H.
    destruct H as [pages [Hp [Hlen [Hend [Ho Hw]]]]].
    exists ((d :: data) :: pages).
    cbn [List.length concat progress_lines].
    replace (first + S (List.length pages))
      with (first + 1 + List.length pages) by lia.
    split; [ apply pages_answer_cons; [ exact R | discriminate | exact Hp ] | ].
    split; [ lia | ]. split; [ exact Hend | ].
    split; [ now rewrite Ho, <- app_assoc | ].
    rewrite Hw, !extend_extend. unfold page_requests, fetched_line.
    cbn [Nat.add seq map app].
    now replace (first + 1) with (S first) by lia.
  - exists []. cbn [List.length concat progress_lines app].
    rewrite Nat.add_0_r, R. cbn [ends_pagination final_outcome final_lines].
    split; [ exact Hnil | ]. split; [ lia | ]. split; [ reflexivity | ].
    rewrite app_nil_r.
    destruct (is_HTTPError e).
    + rewrite bind_print in H. unfold ret in H. injection H as <- <-.
      split; [ reflexivity | now rewrite extend_extend ].
    + unfold raise in H. injection H as <- <-.
      split; reflexivity.
Qed.

(** X10. Every run of the fetcher that ends, by a return or by an exception,
    went through n non-empty pages 1..n, with n below the number of
    iterations allowed, and stopped on page n+1, whose response is an empty
    page or a failure.  It returns the records of the pages 1..n in page
    order, unless that failure is not an [HTTPError], which it raises; and
    it leaves the file system untouched. *)
Theorem fetch_ended_run {FS : Type} (os : OS FS) (fuel : nat)
    (w w' : world FS) (o : outcome (list release)) :
  get_all_releases os fuel w = Some (o, w') ->
  exists pages,
    pages_answer os (request_headers (environ_GITHUB_TOKEN os)) 1 pages
    /\ List.length pages < fuel
    /\ ends_pagination
         (urlopen_json os
            (page_request (request_headers (environ_GITHUB_TOKEN os))
                          (1 + List.length pages))) = true
    /\ o = final_outcome (concat pages)
             (urlopen_json os
                (page_request (request_headers (environ_GITHUB_TOKEN os))
                              (1 + List.length pages)))
    /\ fs w' = fs w.
Proof.
  unfold get_all_releases. intros H. apply fetch_loop_ended in H.
  destruct H as [pages [Hp [Hlen [Hend [Ho Hw]]]]].
  exists pages. split; [ exact Hp | ]. split; [ exact Hlen | ].
  split; [ exact Hend | ]. split; [ exact Ho | now rewrite Hw ].
Qed.

Lemma fetch_ended_run_witness :
  exists pages,
    pages_answer (recording_os None api_then_refused)
                 (request_headers None) 1 pages
    /\ List.length pages < 5
    /\ Raised connection_refused
       = final_outcome (concat pages)
           (urlopen_json (recording_os None api_then_refused)
              (page_request (request_headers None)
                            (1 + List.length pages))).
Proof.
  pose proof (fun w' =>
                fetch_ended_run (recording_os None api_then_refused) 5
                  fresh_world w' (Raised connection_refused)) as T.
  edestruct T as [pages [Hp [Hlen [_ [Ho _]]]]]; [ reflexivity | ].
  exists pages. split; [ exact Hp | ]. split; [ exact Hlen | exact Ho ].
Defined.

(** X11. In every run of the fetcher that ends, the requests sent are those
    for the pages 1..m, in this order, for some m between 1 and the number
    of iterations allowed: no page is skipped and no request is sent twice.
    Each carries the [Accept] header, and an [Authorization] header exactly
    when the token is set and not empty, with the value [Bearer <token>]. *)
Theorem fetch_requests {FS : Type} (os : OS FS) (fuel : nat)
    (w w' : world FS) (o : outcome (list release)) :
  get_all_releases os fuel w = Some (o, w') ->
  exists m,
    1 <= m <= fuel
    /\ requests w'
       = (requests w
          ++ page_requests (request_headers (environ_GITHUB_TOKEN os))
                           1 m)%list
    /\ NoDup (page_requests (request_headers (environ_GITHUB_TOKEN os)) 1 m)
    /\ forall req,
         In req (page_requests (request_headers (environ_GITHUB_TOKEN os))
                               1 m) ->
         In ("Accept", "application/vnd.github+json") (req_headers req)
         /\ forall v,
              In ("Authorization", v) (req_headers req)
              <-> exists t, environ_GITHUB_TOKEN os = Some t
                            /\ t <> EmptyString
                            /\ v = "Bearer " ++ t.
Proof.
  unfold get_all_releases. intros H. apply fetch_loop_ended in H.
  destruct H as [pages [_ [Hlen [_ [_ Hw]]]]].
  exists (List.length pages + 1).
  split; [ lia | ]. split; [ now rewrite Hw | ].
  split; [ apply page_requests_NoDup | ].
  intros req Hreq. unfold page_requests in Hreq.
  apply in_map_iff in Hreq. destruct Hreq as [p [<- _]].
  cbn [page_request req_headers]. unfold request_headers.
  destruct (environ_GITHUB_TOKEN os) as [t |].
  - destruct (t =? "") eqn:E.
    + apply String.eqb_eq in E. subst t.
      split; [ now left | ]. intros v. split.
      * intros [Hv | []]. discriminate Hv.
      * intros [t [Ht [Hne _]]]. injection Ht as <-. now elim Hne.
    + apply String.eqb_neq in E.
      split; [ now left | ]. intros v. split.
      * intros [Hv | [Hv | []]]; [ discriminate Hv | ].
        injection Hv as <-. now exists t.
      * intros [t' [Ht [_ ->]]]. injection Ht as <-. right. now left.
  - split; [ now left | ]. intros v. split.
    + intros [Hv | []]. discriminate Hv.
    + intros [t [Ht _]]. discriminate Ht.
Qed.

Lemma fetch_requests_witness :
  exists m,
    1 <= m <= 5
    /\ NoDup (page_requests (request_headers None) 1 m).
Proof.
  pose proof (fun w' =>
                fetch_requests (recording_os None api_then_refused) 5
                  fresh_world w' (Raised connection_refused)) as T.
  edestruct T as [m [Hm [_ [Hnd _]]]]; [ reflexivity | ].
  exists m. split; [ exact Hm | exact Hnd ].
Defined.

Lemma fetch_loop_through {FS : Type} (os : OS FS)
    (pages : list (list release)) :
  forall (fuel : nat) (headers : list (string * string))
         (acc : list release) (first : nat) (w : world FS),
    pages_answer os headers first pages ->
    fetch_loop os (List.length pages + fuel) headers acc first w
    = fetch_loop os fuel headers (acc ++ concat pages)%list
        (first + List.length pages)
        (extend w (progress_lines first pages)
                (page_requests headers first (List.length pages))).
Proof.
  induction pages as [| d pages IH]; intros fuel headers acc first w H.
  - simpl. unfold page_requests. simpl.
    now rewrite extend_nil, app_nil_r, Nat.add_0_r.
  - apply pages_answer_tail in H. destruct H as [H0 [Hd H]].
    cbn [List.length Nat.add fetch_loop].
    rewrite bind_send, H0.
    destruct d as [| x d]; [ now elim Hd | ].
    rewrite bind_print, (IH _ _ _ _ _ H), !extend_extend.
    cbn [concat progress_lines]. rewrite <- app_assoc.
    replace (first + 1 + List.length pages)
      with (first + S (List.length pages)) by lia.
    unfold page_requests, fetched_line. cbn [seq map app].
    now replace (first + 1) with (S first) by lia.
Qed.

(** X12. When the pages 1..n are non-empty and the response for page n+1
    ends the pagination, the fetcher prints exactly one line per fetched
    page, in page order, with the page number and its number of records,
    followed by one error line if page n+1 failed with an [HTTPError], and
    nothing else. *)
Theorem fetch_output {FS : Type} (os : OS FS) (w : world FS)
    (pages : list (list release)) (fuel : nat) :
  pages_answer os (request_headers (environ_GITHUB_TOKEN os)) 1 pages ->
  ends_pagination
    (urlopen_json os
       (page_request (request_headers (environ_GITHUB_TOKEN os))
                     (1 + List.length pages))) = true ->
  List.length pages < fuel ->
  exists w',
    get_all_releases os fuel w
    = Some (final_outcome (concat pages)
              (urlopen_json os
                 (page_request (request_headers (environ_GITHUB_TOKEN os))
                               (1 + List.length pages))), w')
    /\ stdout w'
       = (stdout w ++ progress_lines 1 pages
          ++ final_lines (1 + List.length pages)
               (urlopen_json os
                  (page_request (request_headers (environ_GITHUB_TOKEN os))
                                (1 + List.length pages))))%list.
Proof.
  intros H Hend Hfuel. unfold get_all_releases.
  set (headers := request_headers (environ_GITHUB_TOKEN os)) in *.
  replace fuel with (List.length pages + S (fuel - List.length pages - 1))
    by lia.
  rewrite (fetch_loop_through os pages _ _ _ _ _ H).
  cbn [fetch_loop]. rewrite bind_send.
  destruct (urlopen_json os (page_request headers (1 + List.length pages)))
    as [[| d data] | e]; [ | discriminate Hend | ].
  - eexists. split; [ reflexivity | ].
    cbn [extend stdout final_lines]. now rewrite !app_nil_r.
  - cbn [final_outcome final_lines]. destruct (is_HTTPError e).
    + rewrite bind_print. eexists. split; [ reflexivity | ].
      cbn [extend stdout]. now rewrite !app_nil_r, <- app_assoc.
    + eexists. split; [ reflexivity | ].
      cbn [extend stdout]. now rewrite !app_nil_r.
Qed.

Lemma fetch_output_witness :
  exists w',
    get_all_releases (recording_os None api_then_forbidden) 2 fresh_world
    = Some (Returned [sample_release], w')
    /\ stdout w'
       = [ "  Fetched page 1 (1 releases)";
           "Error fetching page 2: HTTP Error 403: rate limit exceeded" ].
Proof.
  destruct (fetch_output (recording_os None api_then_forbidden) fresh_world
              [[sample_release]] 2) as [w' [Hrun Hout]].
  - intros [| i] data Hi; simpl in Hi; [ | now destruct i ].
    injection Hi as <-. split; [ reflexivity | discriminate ].
  - reflexivity.
  - apply le_n.
  - exists w'. split; [ exact Hrun | exact Hout ].
Defined.

(** X13. When the API answers every page with a non-empty array, the loop of
    the fetcher never ends: it is still running after any number of
    iterations. *)
Theorem fetch_never_ends {FS : Type} (os : OS FS) :
  (forall page,
      exists data,
        urlopen_json os
          (page_request (request_headers (environ_GITHUB_TOKEN os)) page)
        = Body data /\ data <> []) ->
  forall fuel w, get_all_releases os fuel w = None.
Proof.
  intros H fuel. unfold get_all_releases.
  generalize (@nil release) as acc. generalize 1 as page.
  induction fuel as [| fuel IH]; intros page acc w; [ reflexivity | ].
  cbn [fetch_loop]. rewrite bind_send.
  destruct (H page) as [[| d data] [-> Hd]]; [ now elim Hd | ].
  rewrite bind_print. apply IH.
Qed.

Lemma fetch_never_ends_witness :
  get_all_releases (recording_os None api_endless) 50 fresh_world = None.
Proof.
  apply (fetch_never_ends (recording_os None api_endless)).
  intros page. exists [sample_release]. split; [ reflexivity | discriminate ].
Defined.

(* ------------------------------------------------------------------ *)
(** ** main: every run                                                 *)
(* ------------------------------------------------------------------ *)

Section MainRuns.
Context {FS : Type} (os : OS FS).

Lemma bind_fs_call {B : Type} (op : FS -> option exn * FS)
    (k : unit -> M FS B) (w : world FS) :
  bind (fs_call op) k w
  = match op (fs w) with
    | (None, s) => k tt (with_fs w s)
    | (Some e, s) => Some (Raised e, with_fs w s)
    end.
Proof.
  unfold bind, fs_call, with_fs. destruct (op (fs w)) as [[e |] s];
    reflexivity.
Qed.

Lemma bind_assoc {A B C : Type} (m : M FS A) (f : A -> M FS B)
    (g : B -> M FS C) (w : world FS) :
  bind (bind m f) g w = bind m (fun a => bind (f a) g) w.
Proof.
  unfold bind. destruct (m w) as [[[a | e] w1] |]; reflexivity.
Qed.

Lemma for_each_print {A : Type} (f : A -> string) (l : list A)
    (w : world FS) :
  for_each l (fun x => print (f x)) w
  = Some (Returned tt, extend w (map f l) []).
Proof.
  revert w; induction l as [| x l IH]; intros w; simpl.
  - unfold ret. now rewrite extend_nil.
  - rewrite bind_print, IH, extend_extend. reflexivity.
Qed.

Lemma run_script_app (a b : list fs_event) (s : FS) :
  run_script os (a ++ b) s
  = match run_script os a s with
    | (None, s') => run_script os b s'
    | (Some e, s') => (Some e, s')
    end.
Proof.
  revert s; induction a as [| ev a IH]; intros s; simpl; [ reflexivity | ].
  destruct (apply_event os ev s) as [[e |] s']; [ reflexivity | apply IH ].
Qed.

Lemma for_each_write_package (packages : dict) (w : world FS) :
  exists out,
    for_each packages (write_package os (Path "public/simple")) w
    = Some (match fst (run_script os (flat_map package_events packages)
                                  (fs w)) with
            | None => Returned tt
            | Some e => Raised e
            end,
            with_fs (extend w out [])
                    (snd (run_script os (flat_map package_events packages)
                                     (fs w)))).
Proof.
  revert w; induction packages as [| [k g] packages IH]; intros w.
  - exists []. simpl. unfold ret, with_fs. rewrite extend_nil.
    now destruct w.
  - cbn [for_each flat_map package_events fst snd app run_script
         apply_event write_package].
    rewrite bind_assoc, bind_fs_call.
    destruct (mkdir os (PathJoin (Path "public/simple") k) false true (fs w))
      as [[e |] s1].
    + exists []. unfold with_fs. now rewrite extend_nil.
    + rewrite bind_assoc, bind_fs_call. cbn [with_fs fs].
      destruct (write_text os _ _ s1) as [[e |] s2].
      * exists []. unfold with_fs. cbn. now rewrite !app_nil_r.
      * rewrite bind_print.
        destruct (IH (extend (with_fs (with_fs w s1) s2)
                        ["      Created: "
                         ++ path_str os (PathJoin (Path "public/simple") k)
                         ++ "/index.html"] [])) as [out E].
        rewrite E. eexists (_ :: out).
        unfold with_fs, extend. simpl.
        rewrite ?app_nil_r, <- ?app_assoc. reflexivity.
Qed.

End MainRuns.

Lemma bind_for_each_print {FS : Type} {A B : Type} (f : A -> string)
    (l : list A) (k : unit -> M FS B) (w : world FS) :
  bind (for_each l (fun x => print (f x))) k w
  = k tt (extend w (map f l) []).
Proof. unfold bind. now rewrite for_each_print. Qed.

(** Every run of [main], by what the fetcher and the extraction do. *)
Lemma main_run {FS : Type} (os : OS FS) (fuel : nat) (w : world FS) :
  match get_all_releases os fuel w with
  | None => main os fuel w = None
  | Some (Raised e, w1) =>
      exists w', main os fuel w = Some (Raised e, w')
                 /\ fs w' = fs w /\ requests w' = requests w1
  | Some (Returned releases, w1) =>
      match extract_wheels releases with
      | Raised e =>
          exists w', main os fuel w = Some (Raised e, w')
                     /\ fs w' = fs w /\ requests w' = requests w1
      | Returned [] =>
          exists w', main os fuel w = Some (Returned 1%Z, w')
                     /\ fs w' = fs w /\ requests w' = requests w1
      | Returned (x :: l) =>
          exists w',
            main os fuel w
            = Some (script_outcome
                      (fst (run_script os
                              (main_script (grouped (x :: l))
                                           (List.length (x :: l)))
                              (fs w))), w')
            /\ fs w'
               = snd (run_script os
                        (main_script (grouped (x :: l))
                                     (List.length (x :: l)))
                        (fs w))
            /\ requests w' = requests w1
      end
  end.
Proof.
  unfold get_all_releases at 1.
  destruct (fetch_loop_effects os fuel
              (request_headers (environ_GITHUB_TOKEN os)) [] 1)
    as [Hnone | [o [out [rq Hsome]]]].
  - rewrite Hnone. unfold main.
    repeat (rewrite bind_print; cbv beta).
    unfold bind at 1. unfold get_all_releases. now rewrite Hnone.
  - rewrite Hsome.
    assert (Hstart : forall (k : list release -> M FS Z),
      bind (get_all_releases os fuel) k
        (extend w
           [str_repeat "=" 60; "Flash Attention Wheel Index Generator";
            str_repeat "=" 60;
            nl ++ "[1/4] Fetching releases from GitHub..."] [])
      = match o with
        | Returned releases =>
            k releases
              (extend w
                 ([str_repeat "=" 60;
                   "Flash Attention Wheel Index Generator";
                   str_repeat "=" 60;
                   nl ++ "[1/4] Fetching releases from GitHub..."] ++ out)
                 rq)
        | Raised e =>
            Some (Raised e,
                  extend w
                    ([str_repeat "=" 60;
                      "Flash Attention Wheel Index Generator";
                      str_repeat "=" 60;
                      nl ++ "[1/4] Fetching releases from GitHub..."] ++ out)
                    rq)
        end).
    { intros k. unfold bind, get_all_releases. rewrite Hsome.
      rewrite extend_extend. now destruct o. }
    destruct o as [releases | e].
    + destruct (extract_wheels releases) as [[| x l] | e] eqn:Hx.
      * unfold main. repeat (rewrite bind_print; cbv beta).
        rewrite !extend_extend. rewrite Hstart.
        repeat (rewrite bind_print; cbv beta).
        rewrite Hx, bind_lift.
        repeat (rewrite bind_print; cbv beta).
        unfold ret. rewrite !extend_extend.
        eexists. split; [ reflexivity | ].
        split; [ reflexivity | ]. simpl. now rewrite ?app_nil_r.
      * unfold main. repeat (rewrite bind_print; cbv beta).
        rewrite !extend_extend. rewrite Hstart.
        repeat (rewrite bind_print; cbv beta).
        rewrite Hx, bind_lift.
        repeat (rewrite bind_print; cbv beta).
        rewrite group_packages_grouped, bind_lift.
        rewrite bind_for_each_print. cbv beta.
        rewrite bind_print. cbv beta.
        rewrite bind_fs_call.
        cbn [main_script app run_script apply_event fs extend with_fs].
        destruct (mkdir os (Path "public/simple") true true (fs w))
          as [[e |] s1].
        { eexists. split; [ reflexivity | ].
          split; [ reflexivity | ]. simpl. now rewrite ?app_nil_r. }
        rewrite bind_fs_call. cbn [fs with_fs].
        destruct (write_text os (PathJoin (Path "public/simple") "index.html")
                    (generate_root_index (dict_keys (grouped (x :: l)))) s1)
          as [[e |] s2].
        { eexists. split; [ reflexivity | ].
          split; [ reflexivity | ]. simpl. now rewrite ?app_nil_r. }
        rewrite bind_print. cbv beta.
        match goal with
        | |- exists w', bind _ _ ?W0 = _ /\ _ => set (W := W0)
        end.
        assert (Hfs : fs W = s2) by reflexivity.
        assert (Hrq : requests W = requests (extend w out rq))
          by (unfold W; simpl; now rewrite ?app_nil_r).
        clearbody W.
        unfold bind at 1.
        destruct (for_each_write_package os (grouped (x :: l)) W)
          as [out2 E].
        rewrite E, Hfs, run_script_app.
        destruct (run_script os (flat_map package_events (grouped (x :: l)))
                             s2) as [[e |] s3]; cbn [fst snd].
        { eexists. split; [ reflexivity | ].
          split; [ reflexivity | ]. simpl. now rewrite ?app_nil_r. }
        rewrite bind_fs_call.
        cbn [fs with_fs extend run_script apply_event].
        destruct (write_text os (PathJoin (Path "public") "index.html")
                    (generate_landing_page (grouped (x :: l))
                                           (List.length (x :: l))) s3)
          as [[e |] s4].
        { eexists. split; [ reflexivity | ].
          split; [ reflexivity | ]. simpl. now rewrite ?app_nil_r. }
        repeat (rewrite bind_print; cbv beta).
        unfold bind at 1.
        repeat (rewrite bind_print; cbv beta).
        unfold ret. eexists. split; [ reflexivity | ].
        split; [ reflexivity | ]. simpl. now rewrite ?app_nil_r.
      * unfold main. repeat (rewrite bind_print; cbv beta).
        rewrite !extend_extend. rewrite Hstart.
        repeat (rewrite bind_print; cbv beta).
        rewrite Hx. unfold bind, lift.
        eexists. split; [ reflexivity | ].
        split; [ reflexivity | ]. simpl. now rewrite ?app_nil_r.
    + unfold main. repeat (rewrite bind_print; cbv beta).
      rewrite !extend_extend. rewrite Hstart.
      eexists. split; [ reflexivity | ].
      split; [ reflexivity | ]. simpl. now rewrite ?app_nil_r.
Qed.

(** X14. An exception of the fetcher, or of the extraction once the fetcher
    has returned, leaves [main] as it is: it is raised to the caller of
    [main] before any file-system call, and no request is sent besides
    those of the fetcher. *)
Theorem main_exception_before_writes {FS : Type} (os : OS FS) (fuel : nat)
    (w w1 : world FS) (e : exn) :
  (get_all_releases os fuel w = Some (Raised e, w1)
   \/ exists releases,
        get_all_releases os fuel w = Some (Returned releases, w1)
        /\ extract_wheels releases = Raised e) ->
  exists w',
    main os fuel w = Some (Raised e, w')
    /\ fs w' = fs w
    /\ requests w' = requests w1.
Proof.
  intros H. pose proof (main_run os fuel w) as R.
  destruct H as [H | [releases [H Hx]]]; rewrite H in R.
  - exact R.
  - now rewrite Hx in R.
Qed.

Lemma main_exception_before_writes_witness :
  (exists w',
     main (recording_os None api_then_refused) 3 fresh_world
     = Some (Raised connection_refused, w') /\ fs w' = [])
  /\ (exists w',
        main (recording_os None api_nameless_asset) 3 fresh_world
        = Some (Raised (KeyError "name"), w') /\ fs w' = []).
Proof.
  split.
  - pose proof (fun w1 =>
                  main_exception_before_writes
                    (recording_os None api_then_refused) 3 fresh_world w1
                    connection_refused) as T.
    edestruct T as [w' [Hrun [Hfs _]]]; [ left; reflexivity | ].
    exists w'. split; [ exact Hrun | exact Hfs ].
  - pose proof (fun w1 =>
                  main_exception_before_writes
                    (recording_os None api_nameless_asset) 3 fresh_world w1
                    (KeyError "name")) as T.
    edestruct T as [w' [Hrun [Hfs _]]].
    + right. eexists. split; reflexivity.
    + exists w'. split; [ exact Hrun | exact Hfs ].
Defined.



(** X16. Whenever [main] returns, the exit code is 0 or 1.  It is 1 exactly
    when the fetcher returned and no wheel was extracted, and then the file
    system is untouched; it is 0 exactly when wheels were extracted and
    every file-system call of the run succeeded. *)
Theorem main_exit_code {FS : Type} (os : OS FS) (fuel : nat)
    (w w' : world FS) (c : Z) :
  main os fuel w = Some (Returned c, w') ->
  exists releases w1 wheels,
    get_all_releases os fuel w = Some (Returned releases, w1)
    /\ extract_wheels releases = Returned wheels
    /\ ((wheels = [] /\ c = 1%Z /\ fs w' = fs w)
        \/ (wheels <> [] /\ c = 0%Z
            /\ run_script os
                 (main_script (grouped wheels) (List.length wheels)) (fs w)
               = (None, fs w'))).
Proof.
  intros H. pose proof (main_run os fuel w) as R.
  destruct (get_all_releases os fuel w) as [[[releases | e] w1] |].
  - exists releases, w1.
    destruct (extract_wheels releases) as [[| x l] | e].
    + exists []. destruct R as [v [Hv [Hfs _]]].
      rewrite H in Hv. injection Hv as -> ->.
      split; [ reflexivity | ]. split; [ reflexivity | ]. now left.
    + exists (x :: l).
      remember (run_script os
                  (main_script (grouped (x :: l)) (List.length (x :: l)))
                  (fs w)) as S0 eqn:ES.
      destruct R as [v [Hv [Hfs _]]].
      rewrite H in Hv. injection Hv as Hc ->.
      split; [ reflexivity | ]. split; [ reflexivity | ]. right.
      split; [ discriminate | ].
      destruct S0 as [[e |] s]; cbn [fst snd script_outcome] in *.
      * discriminate Hc.
      * injection Hc as ->. split; [ reflexivity | now rewrite Hfs ].
    + destruct R as [v [Hv _]]. rewrite H in Hv. discriminate Hv.
  - destruct R as [v [Hv _]]. rewrite H in Hv. discriminate Hv.
  - rewrite H in R. discriminate R.
Qed.

Lemma main_exit_code_witness :
  exists releases w1 wheels,
    get_all_releases (recording_os None api_sample) 3 fresh_world
    = Some (Returned releases, w1)
    /\ extract_wheels releases = Returned wheels
    /\ wheels <> [].
Proof.
  pose proof (fun w' =>
                main_exit_code (recording_os None api_sample) 3
                  fresh_world w' 0%Z) as T.
  edestruct T as [releases [w1 [wheels [Hf [Hx Hc]]]]];
    [ vm_compute; reflexivity | ].
  exists releases, w1, wheels. split; [ exact Hf | ].
  split; [ exact Hx | ].
  destruct Hc as [[_ [Hc _]] | [Hne _]]; [ discriminate Hc | exact Hne ].
Defined.

(** X17. When the first page is empty, or fails with an [HTTPError], the run
    ends with exit code 1 after that single request, and the file system is
    untouched. *)
Theorem main_nothing_fetched {FS : Type} (os : OS FS) (fuel : nat)
    (w : world FS) :
  (urlopen_json os
     (page_request (request_headers (environ_GITHUB_TOKEN os)) 1) = Body []
   \/ exists e,
        urlopen_json os
          (page_request (request_headers (environ_GITHUB_TOKEN os)) 1)
        = Fails e /\ is_HTTPError e = true) ->
  1 <= fuel ->
  exists w',
    main os fuel w = Some (Returned 1%Z, w')
    /\ fs w' = fs w
    /\ requests w'
       = (requests w
          ++ [page_request (request_headers (environ_GITHUB_TOKEN os)) 1])%list.
Proof.
  intros H Hfuel.
  assert (Hp : pages_answer os (request_headers (environ_GITHUB_TOKEN os))
                            1 [])
    by (intros i data Hi; now destruct i).
  destruct (get_all_releases_run os [] fuel w Hp Hfuel) as [out E].
  cbn [List.length Nat.add concat] in E.
  pose proof (main_run os fuel w) as R.
  assert (Hf : get_all_releases os fuel w
               = Some (Returned [],
                       extend w out
                         [page_request
                            (request_headers (environ_GITHUB_TOKEN os)) 1])).
  { destruct H as [H | [e [H He]]]; rewrite H in E; [ exact E | ].
    now rewrite He in E. }
  rewrite Hf in R. cbn in R.
  destruct R as [w' [Hrun [Hfs Hrq]]].
  exists w'. split; [ exact Hrun | ]. split; [ exact Hfs | exact Hrq ].
Qed.

Lemma main_nothing_fetched_witness :
  exists w',
    main (recording_os None (fun _ => Fails rate_limited)) 1 fresh_world
    = Some (Returned 1%Z, w')
    /\ fs w' = []
    /\ requests w' = [page_request (request_headers None) 1].
Proof.
  apply (main_nothing_fetched
           (recording_os None (fun _ => Fails rate_limited)) 1 fresh_world).
  - right. exists rate_limited. split; reflexivity.
  - apply le_n.
Defined.

(* ------------------------------------------------------------------ *)
(** ** The landing page                                                *)
(* ------------------------------------------------------------------ *)

Ltac skip_to_summary :=
  repeat lazymatch goal with
         | |- occurs_in _ (join _ _ ++ _) => fail
         | |- occurs_in _ (_ ++ _) => apply occurs_in_right
         end.

(** X18. The landing page lists one item per package, with the name and the
    number of wheels of the package, in ascending order of name; it does
    not depend on the order of the entries of the grouping; and for the
    grouping of [main] the total it is given is the sum of the numbers it
    lists. *)
Theorem landing_page_summary (packages : dict) (total : nat) :
  occurs_in (join nl (map landing_item (sorted_by fst packages)))
            (generate_landing_page packages total)
  /\ Permutation (sorted_by fst packages) packages
  /\ ascending fst (sorted_by fst packages)
  /\ (forall entry,
        In entry packages ->
        occurs_in ("<li><strong>" ++ fst entry ++ "</strong>: "
                   ++ str_of_nat (List.length (snd entry))
                   ++ " wheels</li>")
                  (generate_landing_page packages total))
  /\ (forall packages',
        NoDup (dict_keys packages) ->
        Permutation packages packages' ->
        generate_landing_page packages' total
        = generate_landing_page packages total)
  /\ (forall wheels,
        group_packages wheels = Returned packages ->
        List.length wheels = total_wheels packages).
Proof.
  assert (L : occurs_in (join nl (map landing_item (sorted_by fst packages)))
                        (generate_landing_page packages total)).
  { unfold generate_landing_page. skip_to_summary.
    apply occurs_in_left, occurs_in_refl. }
  split; [ exact L | ].
  split; [ apply sorted_by_perm | ].
  split; [ apply sorted_by_ascending | ].
  split; [ | split ].
  - intros entry Hin. destruct L as [pre [post ->]].
    apply occurs_in_right, occurs_in_left.
    apply occurs_in_join with (p := landing_item entry);
      [ | apply occurs_in_refl ].
    apply in_map. eapply Permutation_in; [ | exact Hin ].
    apply Permutation_sym, sorted_by_perm.
  - intros packages' Hnd P. unfold generate_landing_page.
    rewrite (sorted_by_order_free fst packages packages');
      [ | now apply NoDup_keys_inj | exact P ].
    now rewrite (Permutation_length P).
  - intros wheels H. rewrite group_packages_grouped in H.
    injection H as <-. symmetry. apply grouped_total.
Qed.

Lemma landing_page_summary_witness :
  generate_landing_page
    [("torch-ext", [wheel_b1]); ("flash-attn", [wheel_a1; wheel_a2])] 3
  = generate_landing_page
      [("flash-attn", [wheel_a1; wheel_a2]); ("torch-ext", [wheel_b1])] 3
  /\ occurs_in "<li><strong>flash-attn</strong>: 2 wheels</li>"
       (generate_landing_page
          [("flash-attn", [wheel_a1; wheel_a2]); ("torch-ext", [wheel_b1])]
          3).
Proof.
  destruct (landing_page_summary
              [("flash-attn", [wheel_a1; wheel_a2]); ("torch-ext", [wheel_b1])]
              3) as (_ & _ & _ & Hitem & Hperm & _).
  split.
  - apply Hperm; [ | apply perm_swap ].
    constructor.
    + intros [H | []]. discriminate H.
    + constructor; [ intros [] | constructor ].
  - apply (Hitem ("flash-attn", [wheel_a1; wheel_a2])). now left.
Defined.
